(** * RFM feature engineering and implicit-rating derivation

    A shallow embedding of the two hand-written data transformations of
    the tutorial notebooks:

    - the customer-lifetime-value notebook: cleaning of the transaction
      table, [get_period], the (CustomerID, HalfYear, NextHalfYear)
      group-by, [recency], and the self-merge that attaches [M_Next];
    - the movie-recommendation notebook: the per-(MovieId, UserId, Action)
      counts, the [agg_data] dictionary of dictionaries, the weighted raw
      ratings and their normalisation to the 0..10 scale.

    Conventions.  A pandas DataFrame is the list of its rows, a row is a
    record of the columns the code touches.  The cells are given twice.
    In the first reading float columns hold rationals ([Q]) and sums,
    products and quotients are exact; a missing value (NaN) of a column
    is [None].  It serves the properties of the shape of the tables:
    which rows and keys there are, and in which order.  In the second
    reading, the module [F64], float columns hold IEEE 754 binary64
    numbers, every operation on them is rounded, and an invoice number
    can be missing; it serves the properties of the values of F, M and
    Rating.  Python dictionaries are insertion-ordered association lists;
    the dictionaries that the rating loop shares between names live in an
    explicit store and are handled through references. *)

From Stdlib Require Import ZArith QArith Lqa Lia List Sorted OrdersEx SpecFloat.
From stdpp Require Import base decidable option list strings gmap.

Local Open Scope Z_scope.

(** ** Ordered keys

    pandas sorts group keys (and a MultiIndex built from them) column by
    column.  [KeyOrder] is the interface of a column type that can be
    sorted: a three-way comparison that decides equality and is a strict
    order. *)

Class KeyOrder (K : Type) := {
  kcmp : K -> K -> comparison;
  kcmp_eq : forall a b, kcmp a b = Eq <-> a = b;
  kcmp_antisym : forall a b, kcmp b a = CompOpp (kcmp a b);
  kcmp_trans : forall a b c, kcmp a b = Lt -> kcmp b c = Lt -> kcmp a c = Lt
}.

Definition klt {K} `{KeyOrder K} (a b : K) : Prop := kcmp a b = Lt.

#[export, refine] Instance Z_KeyOrder : KeyOrder Z := {| kcmp := Z.compare |}.
Proof.
  - intros a b. apply Z.compare_eq_iff.
  - intros a b. apply Z.compare_antisym.
  - intros a b c. rewrite !Z.compare_lt_iff. lia.
Defined.

(** Python compares [str] values code point by code point. *)
#[export, refine] Instance string_KeyOrder : KeyOrder string :=
  {| kcmp := String_as_OT.compare |}.
Proof.
  - intros a b. destruct (String_as_OT.compare_spec a b) as [E|L|G].
    + split; auto.
    + split; [discriminate|]. intros ->.
      exfalso. exact (StrictOrder_Irreflexive _ L).
    + split; [discriminate|]. intros ->.
      exfalso. exact (StrictOrder_Irreflexive _ G).
  - intros a b.
    assert (Hirr : forall x, ~ String_as_OT.lt x x)
      by (intros x; exact (StrictOrder_Irreflexive x)).
    assert (Htr : forall x y, String_as_OT.lt x y -> String_as_OT.lt y x -> False)
      by (intros x y L1 L2;
          exact (Hirr x (StrictOrder_Transitive (R:=String_as_OT.lt) x y x L1 L2))).
    destruct (String_as_OT.compare_spec a b) as [E|L|G];
      destruct (String_as_OT.compare_spec b a) as [E'|L'|G'];
      simpl; try reflexivity; exfalso;
      unfold String_as_OT.eq in *; subst; eauto.
  - intros a b c L1 L2.
    exact (StrictOrder_Transitive (R:=String_as_OT.lt) a b c L1 L2).
Defined.

(** Tuples of key columns are ordered lexicographically. *)
Definition lex_cmp {A B} `{KeyOrder A} `{KeyOrder B} (x y : A * B) : comparison :=
  match kcmp (fst x) (fst y) with
  | Eq => kcmp (snd x) (snd y)
  | c => c
  end.

#[export, refine] Instance prod_KeyOrder {A B} `{KeyOrder A} `{KeyOrder B} :
  KeyOrder (A * B) := {| kcmp := lex_cmp |}.
Proof.
  - intros [a1 b1] [a2 b2]. unfold lex_cmp. simpl.
    destruct (kcmp a1 a2) eqn:E.
    + apply kcmp_eq in E. subst. rewrite kcmp_eq. split; congruence.
    + split; [discriminate|]. intros [= -> ->].
      assert (kcmp a2 a2 = Eq) by (apply kcmp_eq; reflexivity). congruence.
    + split; [discriminate|]. intros [= -> ->].
      assert (kcmp a2 a2 = Eq) by (apply kcmp_eq; reflexivity). congruence.
  - intros [a1 b1] [a2 b2]. unfold lex_cmp. simpl.
    rewrite (kcmp_antisym a1 a2).
    destruct (kcmp a1 a2); simpl; auto using kcmp_antisym.
  - intros [a1 b1] [a2 b2] [a3 b3]. unfold lex_cmp. simpl.
    destruct (kcmp a1 a2) eqn:E12; try discriminate.
    + apply kcmp_eq in E12. subst.
      destruct (kcmp a2 a3); try discriminate; eauto using kcmp_trans.
    + intros _. destruct (kcmp a2 a3) eqn:E23; try discriminate.
      * apply kcmp_eq in E23. subst. rewrite E12. reflexivity.
      * intros _. rewrite (kcmp_trans _ _ _ E12 E23). reflexivity.
Defined.

(** ** Sorted group keys

    [DataFrame.groupby(cols)] (with the default [sort=True]) yields one
    group per distinct key, in increasing key order. *)

Section GroupKeys.
Context {K : Type} `{KeyOrder K}.

Fixpoint key_insert (k : K) (l : list K) : list K :=
  match l with
  | [] => [k]
  | x :: xs =>
      match kcmp k x with
      | Lt => k :: x :: xs
      | Eq => x :: xs
      | Gt => x :: key_insert k xs
      end
  end.

Definition group_keys (l : list K) : list K := fold_right key_insert [] l.

Definition key_eqb (a b : K) : bool :=
  match kcmp a b with Eq => true | _ => false end.
End GroupKeys.

(** ** Calendar dates and timestamps

    [date] is Python's [datetime.date]; [toordinal] follows CPython's
    [_ymd2ord], so that [(a - b).days] is [toordinal a - toordinal b].
    A pandas [Timestamp] is a date together with the time elapsed since
    midnight, in nanoseconds. *)

Record date := mkdate { year : Z; month : Z; day : Z }.

Definition is_leap (y : Z) : bool :=
  (y mod 4 =? 0) && (negb (y mod 100 =? 0) || (y mod 400 =? 0)).

Definition days_in_month (y m : Z) : Z :=
  if (m =? 2) && is_leap y then 29
  else match m with
       | 1 => 31 | 2 => 28 | 3 => 31 | 4 => 30 | 5 => 31 | 6 => 30
       | 7 => 31 | 8 => 31 | 9 => 30 | 10 => 31 | 11 => 30 | 12 => 31
       | _ => 0
       end.

Definition days_before_year (y : Z) : Z :=
  let y' := y - 1 in y' * 365 + y' / 4 - y' / 100 + y' / 400.

Definition days_before_month (y m : Z) : Z :=
  match m with
  | 1 => 0 | 2 => 31 | 3 => 59 | 4 => 90 | 5 => 120 | 6 => 151
  | 7 => 181 | 8 => 212 | 9 => 243 | 10 => 273 | 11 => 304 | 12 => 334
  | _ => 0
  end + (if (2 <? m) && is_leap y then 1 else 0).

Definition toordinal (d : date) : Z :=
  days_before_year (year d) + days_before_month (year d) (month d) + day d.

(** [(a - b).days] *)
Definition days_between (a b : date) : Z := toordinal a - toordinal b.

(** Dates compare as the tuples (year, month, day). *)
Definition date_key (d : date) : Z * (Z * Z) := (year d, (month d, day d)).

Definition date_ltb (a b : date) : bool :=
  match kcmp (date_key a) (date_key b) with Lt => true | _ => false end.

(** The dates the [date] constructor accepts. *)
Definition valid_date (d : date) : Prop :=
  1 <= year d <= 9999 /\ 1 <= month d <= 12 /\
  1 <= day d <= days_in_month (year d) (month d).

Record Timestamp := mkTimestamp { ts_date : date; ts_nanos : Z }.

Definition valid_Timestamp (t : Timestamp) : Prop :=
  valid_date (ts_date t) /\ 0 <= ts_nanos t < 86400 * 1000000000.

(** [Timestamp(d)]: midnight of the day [d], which is what a comparison
    of a datetime column with a [datetime.date] coerces the date to. *)
Definition Timestamp_of_date (d : date) : Timestamp := mkTimestamp d 0.

Definition ts_key (t : Timestamp) : (Z * (Z * Z)) * Z := (date_key (ts_date t), ts_nanos t).

Definition ts_ltb (a b : Timestamp) : bool :=
  match kcmp (ts_key a) (ts_key b) with Lt => true | _ => false end.

(** The running maximum of a datetime column. *)
Definition ts_max (a b : Timestamp) : Timestamp := if ts_ltb a b then b else a.

(** ** Numeric columns *)

Definition Qltb (a b : Q) : bool :=
  match (a ?= b)%Q with Lt => true | _ => false end.

(** [Series.sum] of a float column. *)
Definition col_sum (l : list Q) : Q := fold_left Qplus l 0%Q.

(** [Series.nunique]: the number of distinct values. *)
Definition nunique (l : list string) : Z := Z.of_nat (length (remove_dups l)).

(** ** Binary64 arithmetic

    A float64 column of pandas holds IEEE 754 binary64 numbers.
    [binary64] is the Standard Library's specification of them
    ([spec_float]) at precision 53 and exponent bound 1024: a signed zero,
    a signed infinity, NaN, or [S754_finite s m e], which stands for
    (-1)^s * m * 2^e.  Sums, products and quotients are rounded to the
    nearest number, ties to even; every comparison with NaN is false. *)

Definition binary64 := spec_float.

Definition b64_zero : binary64 := S754_zero false.
Definition b64_add : binary64 -> binary64 -> binary64 := SFadd 53 1024.
Definition b64_mul : binary64 -> binary64 -> binary64 := SFmul 53 1024.
Definition b64_div : binary64 -> binary64 -> binary64 := SFdiv 53 1024.
Definition b64_ltb : binary64 -> binary64 -> bool := SFltb.
Definition b64_leb : binary64 -> binary64 -> bool := SFleb.

(** [np.isnan] *)
Definition b64_isnan (x : binary64) : bool :=
  match x with S754_nan => true | _ => false end.

(** The conversion of an integer to float64: exact up to 2^53 in absolute
    value, rounded beyond. *)
Definition b64_of_Z (n : Z) : binary64 := binary_normalize 53 1024 n 0 false.

(** The rational number a float64 stands for; an infinity and NaN stand
    for none. *)
Definition b64_to_Q (x : binary64) : option Q :=
  match x with
  | S754_zero _ => Some 0%Q
  | S754_finite s m e => Some (inject_Z (cond_Zopp s (Zpos m)) * Qpower 2 e)%Q
  | _ => None
  end.

(** ** The transaction table and its cleaning

    [Raw.row] is a row as [read_csv] delivers it; only the columns the
    notebook reads are kept.  [CustomerID] is a float column there, with
    NaN for a missing id. *)

Module Raw.
Record row := mk
  { InvoiceNo : string; Quantity : Q; InvoiceDate : Timestamp;
    UnitPrice : Q; CustomerID : option Z }.
End Raw.

Module Txn.
Record row := mk
  { InvoiceNo : string; Quantity : Q; InvoiceDate : Timestamp;
    UnitPrice : Q; CustomerID : Z }.
End Txn.

(** [data = data[np.isnan(data.CustomerID) == False]] followed by
    [data['CustomerID'] = pd.to_numeric(data['CustomerID'], downcast='integer')]. *)
Definition drop_missing_CustomerID (d : list Raw.row) : list Txn.row :=
  flat_map (fun x =>
    match Raw.CustomerID x with
    | Some c => [Txn.mk (Raw.InvoiceNo x) (Raw.Quantity x) (Raw.InvoiceDate x)
                        (Raw.UnitPrice x) c]
    | None => []
    end) d.

(** [data = data[data['InvoiceDate'] < dt.date(2011, 12, 1)]] *)
Definition date_window (d : list Txn.row) : list Txn.row :=
  List.filter (fun x => ts_ltb (Txn.InvoiceDate x) (Timestamp_of_date (mkdate 2011 12 1))) d.

(** [clean_data = data[data['Quantity'] > 0].copy()] and
    [clean_data = clean_data[clean_data['UnitPrice'] > 0]] *)
Definition drop_returns (d : list Txn.row) : list Txn.row :=
  List.filter (fun x => Qltb 0 (Txn.UnitPrice x))
    (List.filter (fun x => Qltb 0 (Txn.Quantity x)) d).

(** [clean_data = clean_data[clean_data['Quantity'] < 30]] *)
Definition quantity_cap (d : list Txn.row) : list Txn.row :=
  List.filter (fun x => Qltb (Txn.Quantity x) 30) d.

(** [clean_data = clean_data[clean_data['UnitPrice'] < 30]] *)
Definition price_cap (d : list Txn.row) : list Txn.row :=
  List.filter (fun x => Qltb (Txn.UnitPrice x) 30) d.

Definition drop_outliers (d : list Txn.row) : list Txn.row :=
  price_cap (quantity_cap d).

(** ** Period assignment *)

Definition get_period (x : Timestamp) : Z :=
  if date_ltb (ts_date x) (mkdate 2011 6 1) then 1 else 2.

Module Per.
Record row := mk
  { txn : Txn.row; HalfYear : Z; NextHalfYear : Z; Amount : Q }.
End Per.

(** [clean_data['HalfYear'] = clean_data.InvoiceDate.apply(get_period)],
    [clean_data['NextHalfYear'] = clean_data['HalfYear'] + 1],
    [clean_data['Amount'] = clean_data.apply(lambda x: x.Quantity * x.UnitPrice, axis=1)] *)
Definition add_period_columns (d : list Txn.row) : list Per.row :=
  map (fun x =>
    let HalfYear := get_period (Txn.InvoiceDate x) in
    Per.mk x HalfYear (HalfYear + 1) (Txn.Quantity x * Txn.UnitPrice x)%Q) d.

(** ** RFM aggregation *)

Module Agg.
Record row := mk
  { CustomerID : Z; HalfYear : Z; NextHalfYear : Z;
    Amount : Q; InvoiceDate : Timestamp; InvoiceNo : Z }.
End Agg.

Definition group_key (x : Per.row) : Z * (Z * Z) :=
  (Txn.CustomerID (Per.txn x), (Per.HalfYear x, Per.NextHalfYear x)).

(** The rows of one group, in table order. *)
Definition group_rows (k : Z * (Z * Z)) (d : list Per.row) : list Per.row :=
  List.filter (fun x => key_eqb (group_key x) k) d.

(** [aggregations]: Amount -> sum, InvoiceDate -> max, InvoiceNo -> nunique,
    applied to the non-empty group [x :: xs]. *)
Definition aggregations (k : Z * (Z * Z)) (x : Per.row) (xs : list Per.row) : Agg.row :=
  Agg.mk (fst k) (fst (snd k)) (snd (snd k))
    (col_sum (map Per.Amount (x :: xs)))
    (fold_left ts_max (map (fun y => Txn.InvoiceDate (Per.txn y)) xs)
       (Txn.InvoiceDate (Per.txn x)))
    (nunique (map (fun y => Txn.InvoiceNo (Per.txn y)) (x :: xs))).

(** [clean_data.groupby(['CustomerID','HalfYear','NextHalfYear'],
    as_index=False).agg(aggregations)] *)
Definition groupby_agg (d : list Per.row) : list Agg.row :=
  flat_map (fun k =>
    match group_rows k d with
    | [] => []
    | x :: xs => [aggregations k x xs]
    end) (group_keys (map group_key d)).

Definition recency (x : Agg.row) : Z :=
  let ref_date := if Agg.HalfYear x =? 1 then mkdate 2011 5 31 else mkdate 2011 11 30 in
  days_between ref_date (ts_date (Agg.InvoiceDate x)).

Module AggR.
Record row := mk { agg : Agg.row; R : Z }.
End AggR.

(** [rfm_data['R'] = rfm_data.apply(recency, axis=1)] *)
Definition add_R (d : list Agg.row) : list AggR.row :=
  map (fun x => AggR.mk x (recency x)) d.

Module Rfm.
Record row := mk
  { CustomerID : Z; HalfYear : Z; NextHalfYear : Z; R : Z; F : Z; M : Q }.
End Rfm.

(** [rfm_data.rename(columns={'InvoiceNo': 'F', 'Amount': 'M'}, inplace=True)]
    and [rfm_data[['CustomerID', 'HalfYear', 'NextHalfYear', 'R', 'F', 'M']]] *)
Definition rename_select (d : list AggR.row) : list Rfm.row :=
  map (fun x =>
    let a := AggR.agg x in
    Rfm.mk (Agg.CustomerID a) (Agg.HalfYear a) (Agg.NextHalfYear a)
           (AggR.R x) (Agg.InvoiceNo a) (Agg.Amount a)) d.

(** ** Label join *)

(** [pd.merge(l, r, left_on=['CustomerID','NextHalfYear'],
    right_on=['CustomerID','HalfYear'], how='left', suffixes=['','_Next'])]:
    every left row, in order, paired with each matching right row, or with
    no row (all [_Next] columns NaN) when nothing matches. *)
Definition merge_on (a b : Rfm.row) : bool :=
  (Rfm.CustomerID a =? Rfm.CustomerID b) && (Rfm.NextHalfYear a =? Rfm.HalfYear b).

Definition merge_left (l r : list Rfm.row) : list (Rfm.row * option Rfm.row) :=
  flat_map (fun a =>
    match List.filter (merge_on a) r with
    | [] => [(a, None)]
    | bs => map (fun b => (a, Some b)) bs
    end) l.

Module Final.
Record row := mk { R : Z; F : Z; M : Q; M_Next : option Q }.
End Final.

(** [rfm_data_final[['R', 'F', 'M', 'M_Next']]] *)
Definition select_RFM_MNext (x : Rfm.row * option Rfm.row) : Final.row :=
  Final.mk (Rfm.R (fst x)) (Rfm.F (fst x)) (Rfm.M (fst x))
           (option_map Rfm.M (snd x)).

(** [rfm_data_final[np.isnan(rfm_data_final['M_Next']) == False]] *)
Definition dropna_M_Next (d : list Final.row) : list Final.row :=
  List.filter (fun x => match Final.M_Next x with Some _ => true | None => false end) d.

(** ** The notebook's tables as functions of the loaded file *)

Definition data (raw : list Raw.row) : list Txn.row :=
  date_window (drop_missing_CustomerID raw).

Definition clean_data (raw : list Raw.row) : list Per.row :=
  add_period_columns (drop_outliers (drop_returns (data raw))).

Definition rfm_data (raw : list Raw.row) : list Rfm.row :=
  rename_select (add_R (groupby_agg (clean_data raw))).

Definition rfm_data_merged (raw : list Raw.row) : list (Rfm.row * option Rfm.row) :=
  merge_left (rfm_data raw) (rfm_data raw).

Definition rfm_data_final (raw : list Raw.row) : list Final.row :=
  dropna_M_Next (map select_RFM_MNext (rfm_data_merged raw)).

(** ** Python values

    Exceptions, insertion-ordered dictionaries and the [for] loop. *)

Inductive exn := KeyError | NameError.

Inductive result (A : Type) :=
| Ok (a : A)
| Raise (e : exn).
Arguments Ok {A} a.
Arguments Raise {A} e.

Definition bind {A B} (r : result A) (k : A -> result B) : result B :=
  match r with
  | Ok a => k a
  | Raise e => Raise e
  end.

Notation "'let*' x ':=' r 'in' k" := (bind r (fun x => k))
  (at level 10, x name, r at level 100, k at level 200).

(** [o] if it is there, the exception [e] otherwise. *)
Definition expect {A} (e : exn) (o : option A) : result A :=
  match o with
  | Some a => Ok a
  | None => Raise e
  end.

(** [for x in l: s = body(s, x)] *)
Fixpoint for_each {A S} (l : list A) (body : S -> A -> result S) (s : S) : result S :=
  match l with
  | [] => Ok s
  | x :: xs => let* s' := body s x in for_each xs body s'
  end.

Section Dict.
Context {K V : Type} `{EqDecision K}.

Definition dict := list (K * V).

(** [d[k]], or nothing when [k not in d] *)
Fixpoint dict_get (k : K) (d : dict) : option V :=
  match d with
  | [] => None
  | (k', v) :: d' => if decide (k = k') then Some v else dict_get k d'
  end.

(** [k in d.keys()] *)
Definition dict_mem (k : K) (d : dict) : bool :=
  match dict_get k d with Some _ => true | None => false end.

(** [d[k] = v]: a key that is present keeps its place, a new key goes last *)
Fixpoint dict_set (k : K) (v : V) (d : dict) : dict :=
  match d with
  | [] => [(k, v)]
  | (k', v') :: d' =>
      if decide (k = k') then (k, v) :: d' else (k', v') :: dict_set k v d'
  end.

(** [d.keys()] *)
Definition dict_keys (d : dict) : list K := map fst d.
End Dict.
Arguments dict : clear implicits.

(** ** The action log and its counts *)

Module Act.
Record row := mk { MovieId : Z; UserId : Z; Action : string }.
End Act.

Definition action_key (x : Act.row) : Z * (Z * string) :=
  (Act.MovieId x, (Act.UserId x, Act.Action x)).

(** A Series over a MultiIndex: the index entries in order, each with its value. *)
Definition Series := list ((Z * (Z * string)) * Z).

(** [data.groupby(['MovieId', 'UserId', 'Action'])['Action'].count()] *)
Definition counts (d : list Act.row) : Series :=
  map (fun k =>
    (k, Z.of_nat (length (List.filter (fun x => key_eqb (action_key x) k) d))))
    (group_keys (map action_key d)).

(** [counts.index] *)
Definition index (c : Series) : list (Z * (Z * string)) := map fst c.

(** [counts[i]] *)
Fixpoint series_get (c : Series) (i : Z * (Z * string)) : option Z :=
  match c with
  | [] => None
  | (k, n) :: c' => if key_eqb i k then Some n else series_get c' i
  end.

(** ** Aggregation into [agg_data]

    [agg_data] maps a MovieId to a dictionary that maps a UserId to the
    per-action counters of the pair.  The counter dictionaries are objects
    of the store: the name [user_agg_data] and the entries of the movie
    dictionaries hold references to them, and [+=] updates the referenced
    object.  A movie dictionary is always reached through [agg_data] in the
    iteration that writes to it, so it is kept in place. *)

Definition ref := nat.

Record agg_state := mk_agg_state
  { agg_data : dict Z (dict Z ref);
    store : list (dict string Z);
    user_agg_data : option ref }.

(** [{'buy': 0, 'addToCart': 0, 'details': 0}] *)
Definition new_user_agg_data : dict string Z :=
  [("buy"%string, 0); ("addToCart"%string, 0); ("details"%string, 0)].

(** [user_agg_data = {...}]: a fresh object, bound to the name *)
Definition alloc_user_agg_data (s : agg_state) : agg_state :=
  mk_agg_state (agg_data s) (store s ++ [new_user_agg_data]) (Some (length (store s))).

(** The [if]/[else] of the loop body.  For a new movie, a fresh counter
    object is bound to [user_agg_data] and stored in a new movie
    dictionary.  For a known movie, a fresh object is bound to
    [user_agg_data] only when the user is new, but
    [movie_agg_data[i[1]] = user_agg_data] is executed in either case, with
    whatever object the name holds then. *)
Definition ensure_entry (s : agg_state) (i : Z * (Z * string)) : result agg_state :=
  let m := fst i in
  let u := fst (snd i) in
  match dict_get m (agg_data s) with
  | None =>
      let s1 := alloc_user_agg_data s in
      let* r := expect NameError (user_agg_data s1) in
      let movie_agg_data := dict_set u r [] in
      Ok (mk_agg_state (dict_set m movie_agg_data (agg_data s1))
            (store s1) (user_agg_data s1))
  | Some movie_agg_data =>
      let s1 := if dict_mem u movie_agg_data then s else alloc_user_agg_data s in
      let* r := expect NameError (user_agg_data s1) in
      Ok (mk_agg_state (dict_set m (dict_set u r movie_agg_data) (agg_data s1))
            (store s1) (user_agg_data s1))
  end.

(** [agg_data[i[0]][i[1]][i[2]] += counts[i]]: the counter object is
    reached through its reference and updated in the store.  A missing
    key of any of the dictionaries, or of [counts], raises [KeyError]. *)
Definition add_count (c : Series) (s : agg_state) (i : Z * (Z * string)) : result agg_state :=
  let m := fst i in
  let u := fst (snd i) in
  let a := snd (snd i) in
  let* movie_agg_data := expect KeyError (dict_get m (agg_data s)) in
  let* r := expect KeyError (dict_get u movie_agg_data) in
  let* counters := expect KeyError (store s !! r) in
  let* old := expect KeyError (dict_get a counters) in
  let* n := expect KeyError (series_get c i) in
  Ok (mk_agg_state (agg_data s)
        (<[r := dict_set a (old + n) counters]> (store s))
        (user_agg_data s)).

Definition agg_body (c : Series) (s : agg_state) (i : Z * (Z * string)) : result agg_state :=
  let* s1 := ensure_entry s i in add_count c s1 i.

(** [agg_data = dict()] and the loop [for i in counts.index] *)
Definition agg_loop (c : Series) : result agg_state :=
  for_each (index c) (agg_body c) (mk_agg_state [] [] None).

(** ** Raw ratings and their normalisation *)

Definition weights : dict string Z :=
  [("buy"%string, 100); ("addToCart"%string, 50); ("details"%string, 15)].

Record rating_state := mk_rating_state
  { raw_ratings : list (Z * Z * Z); max_rating : Z }.

(** [raw_rating = 0] and the loop [for weights_key in weights.keys()] *)
Definition raw_rating (s : agg_state) (movie_key user_key : Z) : result Z :=
  for_each (dict_keys weights) (fun raw_rating weights_key =>
    let* movie_agg_data := expect KeyError (dict_get movie_key (agg_data s)) in
    let* r := expect KeyError (dict_get user_key movie_agg_data) in
    let* counters := expect KeyError (store s !! r) in
    let* n := expect KeyError (dict_get weights_key counters) in
    let* w := expect KeyError (dict_get weights_key weights) in
    Ok (raw_rating + n * w)) 0.

(** The body of the loop over the users of a movie. *)
Definition rating_body (s : agg_state) (movie_key : Z)
    (st : rating_state) (user_key : Z) : result rating_state :=
  let* raw := raw_rating s movie_key user_key in
  let max_rating' := if max_rating st <? raw then raw else max_rating st in
  Ok (mk_rating_state (raw_ratings st ++ [(movie_key, user_key, raw)]) max_rating').

(** [raw_ratings = []], [max_rating = 0] and the two nested loops over
    [agg_data.keys()] and [agg_data[movie_key].keys()] *)
Definition rating_loop (s : agg_state) : result rating_state :=
  for_each (dict_keys (agg_data s)) (fun st movie_key =>
    let* movie_agg_data := expect KeyError (dict_get movie_key (agg_data s)) in
    for_each (dict_keys movie_agg_data) (rating_body s movie_key) st)
    (mk_rating_state [] 0).

(** A float64 value: a number, an infinity or NaN. *)
Inductive float64 :=
| Fin (q : Q)
| PosInf
| NegInf
| NaN.

(** Element-wise division of a float column by an integer; numpy does not
    raise on a zero divisor, it yields an infinity or NaN. *)
Definition np_div (x : Q) (d : Z) : float64 :=
  if d =? 0 then
    match (x ?= 0)%Q with
    | Gt => PosInf
    | Lt => NegInf
    | Eq => NaN
    end
  else Fin (x / inject_Z d)%Q.

Module Rating.
Record row := mk
  { MovieId : Z; UserId : Z; RawRating : Z; Rating : float64 }.
End Rating.

(** [ratings = pd.DataFrame(raw_ratings, columns=['MovieId', 'UserId', 'RawRating'])]
    and [ratings['Rating'] = float(10) * ratings['RawRating'] / max_rating] *)
Definition ratings_frame (st : rating_state) : list Rating.row :=
  map (fun x =>
    let RawRating := snd x in
    Rating.mk (fst (fst x)) (snd (fst x)) RawRating
      (np_div (10 * inject_Z RawRating)%Q (max_rating st)))
    (raw_ratings st).

(** The rating notebook from the loaded action log to the [ratings] table. *)
Definition ratings (log : list Act.row) : result (list Rating.row) :=
  let* s := agg_loop (counts log) in
  let* st := rating_loop s in
  Ok (ratings_frame st).

(** ** Queries on the ratings table *)

(** [Series.unique]: the distinct values, in the order of their first
    appearance. *)
Fixpoint unique (l : list Z) : list Z :=
  match l with
  | [] => []
  | x :: xs => x :: List.filter (fun y => negb (y =? x)) (unique xs)
  end.

(** [set(ratings.MovieId.unique()).difference(
      ratings[ratings.UserId == user].MovieId.unique())]:
    the movies of the table that [user] has no rating for. *)
Definition unrated_movies (table : list Rating.row) (user : Z) : gset Z :=
  list_to_set (unique (map Rating.MovieId table)) ∖
  list_to_set (unique (map Rating.MovieId
                 (List.filter (fun r => Rating.UserId r =? user) table))).

(** [ratings[(ratings.UserId == user) & (ratings.MovieId == movie)]] *)
Definition rating_of (table : list Rating.row) (user movie : Z) : list Rating.row :=
  List.filter (fun r => (Rating.UserId r =? user) && (Rating.MovieId r =? movie)) table.

(** ** The notebooks on float64 columns

    The definitions above add and multiply on the rationals and give
    every transaction an invoice number.  [F64] is the same sequence of
    cells with the columns as pandas holds them: [Quantity], [UnitPrice],
    [Amount], [M], [M_Next] and [Rating] are float64, every product, sum
    and quotient is rounded, and [InvoiceNo] can be missing.

    [Quantity] is an integer column when the file has only whole
    quantities.  The cells read it in the comparisons with 0 and 30 and
    in the product with [UnitPrice], for which it is converted to
    float64; the comparisons give the same on an integer and on the
    float64 it converts to, and the conversion is exact below 30.  A
    column that the merge could not fill holds NaN. *)

Module F64.

(** The sum of a float column within a group: the values are added one
    by one, in the order of the rows, to an accumulator that starts at
    0.0.  This is the group-by sum of the pandas releases the notebook
    runs on: those for its Python 3.6 kernel in which the date-window
    cell's comparison of a datetime column with a [datetime.date] is
    still accepted.  Later releases carry a compensation term for the
    rounding error along (Kahan summation), which leaves a sum of one or
    two values as it is and can change the last bits of a longer one. *)
Definition col_sum (l : list binary64) : binary64 := fold_left b64_add l b64_zero.

(** [Series.nunique]: the number of distinct values, missing values left
    out. *)
Definition nunique (l : list (option string)) : Z :=
  Z.of_nat (length (remove_dups (omap id l))).

Module Raw.
Record row := mk
  { InvoiceNo : option string; Quantity : binary64; InvoiceDate : Timestamp;
    UnitPrice : binary64; CustomerID : option Z }.
End Raw.

Module Txn.
Record row := mk
  { InvoiceNo : option string; Quantity : binary64; InvoiceDate : Timestamp;
    UnitPrice : binary64; CustomerID : Z }.
End Txn.

(** [data = data[np.isnan(data.CustomerID) == False]] followed by
    [data['CustomerID'] = pd.to_numeric(data['CustomerID'], downcast='integer')]. *)
Definition drop_missing_CustomerID (d : list Raw.row) : list Txn.row :=
  flat_map (fun x =>
    match Raw.CustomerID x with
    | Some c => [Txn.mk (Raw.InvoiceNo x) (Raw.Quantity x) (Raw.InvoiceDate x)
                        (Raw.UnitPrice x) c]
    | None => []
    end) d.

(** [data = data[data['InvoiceDate'] < dt.date(2011, 12, 1)]] *)
Definition date_window (d : list Txn.row) : list Txn.row :=
  List.filter (fun x => ts_ltb (Txn.InvoiceDate x) (Timestamp_of_date (mkdate 2011 12 1))) d.

(** [clean_data = data[data['Quantity'] > 0].copy()] and
    [clean_data = clean_data[clean_data['UnitPrice'] > 0]] *)
Definition drop_returns (d : list Txn.row) : list Txn.row :=
  List.filter (fun x => b64_ltb b64_zero (Txn.UnitPrice x))
    (List.filter (fun x => b64_ltb b64_zero (Txn.Quantity x)) d).

(** [clean_data = clean_data[clean_data['Quantity'] < 30]] *)
Definition quantity_cap (d : list Txn.row) : list Txn.row :=
  List.filter (fun x => b64_ltb (Txn.Quantity x) (b64_of_Z 30)) d.

(** [clean_data = clean_data[clean_data['UnitPrice'] < 30]] *)
Definition price_cap (d : list Txn.row) : list Txn.row :=
  List.filter (fun x => b64_ltb (Txn.UnitPrice x) (b64_of_Z 30)) d.

Definition drop_outliers (d : list Txn.row) : list Txn.row :=
  price_cap (quantity_cap d).

Module Per.
Record row := mk
  { txn : Txn.row; HalfYear : Z; NextHalfYear : Z; Amount : binary64 }.
End Per.

(** [clean_data['HalfYear'] = clean_data.InvoiceDate.apply(get_period)],
    [clean_data['NextHalfYear'] = clean_data['HalfYear'] + 1],
    [clean_data['Amount'] = clean_data.apply(lambda x: x.Quantity * x.UnitPrice, axis=1)] *)
Definition add_period_columns (d : list Txn.row) : list Per.row :=
  map (fun x =>
    let HalfYear := get_period (Txn.InvoiceDate x) in
    Per.mk x HalfYear (HalfYear + 1) (b64_mul (Txn.Quantity x) (Txn.UnitPrice x))) d.

Module Agg.
Record row := mk
  { CustomerID : Z; HalfYear : Z; NextHalfYear : Z;
    Amount : binary64; InvoiceDate : Timestamp; InvoiceNo : Z }.
End Agg.

Definition group_key (x : Per.row) : Z * (Z * Z) :=
  (Txn.CustomerID (Per.txn x), (Per.HalfYear x, Per.NextHalfYear x)).

Definition group_rows (k : Z * (Z * Z)) (d : list Per.row) : list Per.row :=
  List.filter (fun x => key_eqb (group_key x) k) d.

(** [aggregations]: Amount -> sum, InvoiceDate -> max, InvoiceNo -> nunique,
    applied to the non-empty group [x :: xs]. *)
Definition aggregations (k : Z * (Z * Z)) (x : Per.row) (xs : list Per.row) : Agg.row :=
  Agg.mk (fst k) (fst (snd k)) (snd (snd k))
    (col_sum (map Per.Amount (x :: xs)))
    (fold_left ts_max (map (fun y => Txn.InvoiceDate (Per.txn y)) xs)
       (Txn.InvoiceDate (Per.txn x)))
    (nunique (map (fun y => Txn.InvoiceNo (Per.txn y)) (x :: xs))).

(** [clean_data.groupby(['CustomerID','HalfYear','NextHalfYear'],
    as_index=False).agg(aggregations)] *)
Definition groupby_agg (d : list Per.row) : list Agg.row :=
  flat_map (fun k =>
    match group_rows k d with
    | [] => []
    | x :: xs => [aggregations k x xs]
    end) (group_keys (map group_key d)).

Definition recency (x : Agg.row) : Z :=
  let ref_date := if Agg.HalfYear x =? 1 then mkdate 2011 5 31 else mkdate 2011 11 30 in
  days_between ref_date (ts_date (Agg.InvoiceDate x)).

Module AggR.
Record row := mk { agg : Agg.row; R : Z }.
End AggR.

(** [rfm_data['R'] = rfm_data.apply(recency, axis=1)] *)
Definition add_R (d : list Agg.row) : list AggR.row :=
  map (fun x => AggR.mk x (recency x)) d.

Module Rfm.
Record row := mk
  { CustomerID : Z; HalfYear : Z; NextHalfYear : Z; R : Z; F : Z; M : binary64 }.
End Rfm.

(** [rfm_data.rename(columns={'InvoiceNo': 'F', 'Amount': 'M'}, inplace=True)]
    and [rfm_data[['CustomerID', 'HalfYear', 'NextHalfYear', 'R', 'F', 'M']]] *)
Definition rename_select (d : list AggR.row) : list Rfm.row :=
  map (fun x =>
    let a := AggR.agg x in
    Rfm.mk (Agg.CustomerID a) (Agg.HalfYear a) (Agg.NextHalfYear a)
           (AggR.R x) (Agg.InvoiceNo a) (Agg.Amount a)) d.

Definition merge_on (a b : Rfm.row) : bool :=
  (Rfm.CustomerID a =? Rfm.CustomerID b) && (Rfm.NextHalfYear a =? Rfm.HalfYear b).

(** [pd.merge(rfm_data, rfm_data, left_on=['CustomerID','NextHalfYear'],
    right_on=['CustomerID','HalfYear'], how='left', suffixes=['','_Next'])] *)
Definition merge_left (l r : list Rfm.row) : list (Rfm.row * option Rfm.row) :=
  flat_map (fun a =>
    match List.filter (merge_on a) r with
    | [] => [(a, None)]
    | bs => map (fun b => (a, Some b)) bs
    end) l.

Module Final.
Record row := mk { R : Z; F : Z; M : binary64; M_Next : binary64 }.
End Final.

(** [rfm_data_final[['R', 'F', 'M', 'M_Next']]]; [M_Next] is NaN on a
    row the merge found no partner for. *)
Definition select_RFM_MNext (x : Rfm.row * option Rfm.row) : Final.row :=
  Final.mk (Rfm.R (fst x)) (Rfm.F (fst x)) (Rfm.M (fst x))
           (match snd x with Some b => Rfm.M b | None => S754_nan end).

(** [rfm_data_final[np.isnan(rfm_data_final['M_Next']) == False]] *)
Definition dropna_M_Next (d : list Final.row) : list Final.row :=
  List.filter (fun x => negb (b64_isnan (Final.M_Next x))) d.

Definition data (raw : list Raw.row) : list Txn.row :=
  date_window (drop_missing_CustomerID raw).

Definition clean_data (raw : list Raw.row) : list Per.row :=
  add_period_columns (drop_outliers (drop_returns (data raw))).

Definition rfm_data (raw : list Raw.row) : list Rfm.row :=
  rename_select (add_R (groupby_agg (clean_data raw))).

Definition rfm_data_merged (raw : list Raw.row) : list (Rfm.row * option Rfm.row) :=
  merge_left (rfm_data raw) (rfm_data raw).

Definition rfm_data_final (raw : list Raw.row) : list Final.row :=
  dropna_M_Next (map select_RFM_MNext (rfm_data_merged raw)).

Module Rating.
Record row := mk
  { MovieId : Z; UserId : Z; RawRating : Z; Rating : binary64 }.
End Rating.

(** [ratings = pd.DataFrame(raw_ratings, columns=['MovieId', 'UserId', 'RawRating'])]
    and [ratings['Rating'] = float(10) * ratings['RawRating'] / max_rating]:
    the integer column is converted to float64 and multiplied by 10.0,
    the product is divided by [max_rating], converted likewise. *)
Definition ratings_frame (st : rating_state) : list Rating.row :=
  map (fun x =>
    let RawRating := snd x in
    Rating.mk (fst (fst x)) (snd (fst x)) RawRating
      (b64_div (b64_mul (b64_of_Z 10) (b64_of_Z RawRating))
               (b64_of_Z (max_rating st))))
    (raw_ratings st).

Definition ratings (log : list Act.row) : result (list Rating.row) :=
  let* s := agg_loop (counts log) in
  let* st := rating_loop s in
  Ok (ratings_frame st).

(** *** Vocabulary *)

(** What the cleaning cells guarantee for every row they keep. *)
Definition cleaned (x : Txn.row) : Prop :=
  b64_ltb b64_zero (Txn.Quantity x) = true /\
  b64_ltb b64_zero (Txn.UnitPrice x) = true /\
  b64_ltb (Txn.Quantity x) (b64_of_Z 30) = true /\
  b64_ltb (Txn.UnitPrice x) (b64_of_Z 30) = true /\
  ts_ltb (Txn.InvoiceDate x) (Timestamp_of_date (mkdate 2011 12 1)) = true.

(** The transactions that reach the period assignment. *)
Definition filtered (raw : list Raw.row) : list Txn.row :=
  drop_outliers (drop_returns (data raw)).

(** Quantity times unit price of a transaction, as a float64. *)
Definition amount (x : Txn.row) : binary64 :=
  b64_mul (Txn.Quantity x) (Txn.UnitPrice x).

(** The row of [clean_data] that a filtered transaction becomes. *)
Definition with_period (x : Txn.row) : Per.row :=
  Per.mk x (get_period (Txn.InvoiceDate x)) (get_period (Txn.InvoiceDate x) + 1)
         (amount x).

(** The input rows of the group (entity [c], period [p]), in file order. *)
Definition txn_group (raw : list Raw.row) (c p : Z) : list Txn.row :=
  List.filter (fun x => (Txn.CustomerID x =? c) && (get_period (Txn.InvoiceDate x) =? p))
    (filtered raw).

(** The running float64 total of the amounts of a list of transactions:
    ((0.0 + a1) + a2) + ..., each sum rounded. *)
Definition total_amount (g : list Txn.row) : binary64 :=
  fold_left b64_add (map amount g) b64_zero.

(** The exact sum of quantity times unit price over a list of
    transactions whose quantities and prices are numbers. *)
Definition exact_amount (x : Txn.row) : option Q :=
  match b64_to_Q (Txn.Quantity x), b64_to_Q (Txn.UnitPrice x) with
  | Some q, Some p => Some (q * p)%Q
  | _, _ => None
  end.

Fixpoint exact_total (g : list Txn.row) : option Q :=
  match g with
  | [] => Some 0%Q
  | x :: g' =>
      match exact_amount x, exact_total g' with
      | Some a, Some t => Some (a + t)%Q
      | _, _ => None
      end
  end.

(** The number of distinct invoice ids that occur in a list of
    transactions. *)
Definition distinct_invoices (g : list Txn.row) : Z :=
  Z.of_nat (size (list_to_set (omap Txn.InvoiceNo g) : gset string)).

Definition agg_key (r : Agg.row) : Z * (Z * Z) :=
  (Agg.CustomerID r, (Agg.HalfYear r, Agg.NextHalfYear r)).

Definition rfm_key3 (r : Rfm.row) : Z * (Z * Z) :=
  (Rfm.CustomerID r, (Rfm.HalfYear r, Rfm.NextHalfYear r)).

Definition rfm_key (r : Rfm.row) : Z * Z := (Rfm.CustomerID r, Rfm.HalfYear r).

Definition label (p : Rfm.row * Rfm.row) : Final.row :=
  Final.mk (Rfm.R (fst p)) (Rfm.F (fst p)) (Rfm.M (fst p)) (Rfm.M (snd p)).

Definition labeled_pairs (l r : list Rfm.row) : list (Rfm.row * Rfm.row) :=
  flat_map (fun a => map (fun b => (a, b)) (List.filter (merge_on a) r)) l.

Definition rating_key (r : Rating.row) : Z * Z := (Rating.MovieId r, Rating.UserId r).

(** The float64 numbers that the texts 0.1 and 0.2 are read as: 1/10 and
    2/10, rounded. *)
Definition tenth : binary64 := b64_div (b64_of_Z 1) (b64_of_Z 10).
Definition fifth : binary64 := b64_div (b64_of_Z 2) (b64_of_Z 10).

(** A small transaction file: one customer buying in both half-years, one
    customer whose only transaction has no invoice number, and a row
    without customer id. *)
Definition example_raw : list Raw.row :=
  [ Raw.mk (Some "536365"%string) (b64_of_Z 2)
      (mkTimestamp (mkdate 2011 3 1) 30600000000000) (b64_of_Z 5) (Some 17850);
    Raw.mk (Some "536366"%string) (b64_of_Z 1)
      (mkTimestamp (mkdate 2011 7 10) 0) (b64_of_Z 20) (Some 17850);
    Raw.mk None (b64_of_Z 3)
      (mkTimestamp (mkdate 2011 1 15) 0) (b64_div (b64_of_Z 5) (b64_of_Z 2)) (Some 13047);
    Raw.mk (Some "536368"%string) (b64_of_Z 4)
      (mkTimestamp (mkdate 2011 8 2) 0) (b64_of_Z 1) None ].

(** Two transactions of one customer in one period, one piece each, at
    the prices 0.1 and 0.2. *)
Definition dimes_raw : list Raw.row :=
  [ Raw.mk (Some "536365"%string) (b64_of_Z 1)
      (mkTimestamp (mkdate 2011 3 1) 0) tenth (Some 17850);
    Raw.mk (Some "536366"%string) (b64_of_Z 1)
      (mkTimestamp (mkdate 2011 3 2) 0) fifth (Some 17850) ].

(** Two transactions that pass every cleaning cell: one without invoice
    number, and one whose quantity and unit price are both 2^-600. *)
Definition degenerate_raw : list Raw.row :=
  [ Raw.mk None (b64_of_Z 2)
      (mkTimestamp (mkdate 2011 3 1) 0) (b64_of_Z 5) (Some 17850);
    Raw.mk (Some "536366"%string) (S754_finite false (2 ^ 52) (-652))
      (mkTimestamp (mkdate 2011 3 2) 0) (S754_finite false (2 ^ 52) (-652)) (Some 13047) ].

End F64.

(** * Vocabulary of the properties *)

(** [a] lies strictly before [b] in the calendar. *)
Definition date_before (a b : date) : Prop :=
  year a < year b \/
  (year a = year b /\
   (month a < month b \/ (month a = month b /\ day a < day b))).

(** What the cleaning cells guarantee for every row they keep. *)
Definition cleaned (x : Txn.row) : Prop :=
  (0 < Txn.Quantity x)%Q /\ (0 < Txn.UnitPrice x)%Q /\
  (Txn.Quantity x < 30)%Q /\ (Txn.UnitPrice x < 30)%Q /\
  ts_ltb (Txn.InvoiceDate x) (Timestamp_of_date (mkdate 2011 12 1)) = true.

(** The transactions that reach the period assignment. *)
Definition filtered (raw : list Raw.row) : list Txn.row :=
  drop_outliers (drop_returns (data raw)).

(** The key columns of an aggregate. *)
Definition agg_key (r : Agg.row) : Z * (Z * Z) :=
  (Agg.CustomerID r, (Agg.HalfYear r, Agg.NextHalfYear r)).

Definition rfm_key3 (r : Rfm.row) : Z * (Z * Z) :=
  (Rfm.CustomerID r, (Rfm.HalfYear r, Rfm.NextHalfYear r)).

(** The (entity, period) of an aggregate. *)
Definition rfm_key (r : Rfm.row) : Z * Z := (Rfm.CustomerID r, Rfm.HalfYear r).

(** The row of [clean_data] that a filtered transaction becomes. *)
Definition with_period (x : Txn.row) : Per.row :=
  Per.mk x (get_period (Txn.InvoiceDate x)) (get_period (Txn.InvoiceDate x) + 1)
         (Txn.Quantity x * Txn.UnitPrice x)%Q.

(** The input rows of the group (entity [c], period [p]): the filtered
    transactions of customer [c] whose invoice date falls in period [p]. *)
Definition txn_group (raw : list Raw.row) (c p : Z) : list Txn.row :=
  List.filter (fun x => (Txn.CustomerID x =? c) && (get_period (Txn.InvoiceDate x) =? p))
    (filtered raw).

(** The exact sum of quantity times unit price over a list of transactions. *)
Definition total_amount (g : list Txn.row) : Q :=
  fold_right (fun x acc => (Txn.Quantity x * Txn.UnitPrice x + acc)%Q) 0%Q g.

(** The training row that an aggregate and its next-period aggregate give. *)
Definition label (p : Rfm.row * Rfm.row) : Final.row :=
  Final.mk (Rfm.R (fst p)) (Rfm.F (fst p)) (Rfm.M (fst p)) (Some (Rfm.M (snd p))).

(** The pairs (aggregate, next-period aggregate of the same entity). *)
Definition labeled_pairs (l r : list Rfm.row) : list (Rfm.row * Rfm.row) :=
  flat_map (fun a => map (fun b => (a, b)) (List.filter (merge_on a) r)) l.

(** A small transaction file: one customer buying in both half-years,
    one customer buying only in the first, and a row without customer id. *)
Definition example_raw : list Raw.row :=
  [ Raw.mk "536365" 2 (mkTimestamp (mkdate 2011 3 1) 30600000000000) 5 (Some 17850);
    Raw.mk "536366" 1 (mkTimestamp (mkdate 2011 7 10) 0) 20 (Some 17850);
    Raw.mk "536367" 3 (mkTimestamp (mkdate 2011 1 15) 0) (5 # 2) (Some 13047);
    Raw.mk "536368" 4 (mkTimestamp (mkdate 2011 8 2) 0) 1 None ].

(** The actions the weight table knows. *)
Definition known_action (a : string) : Prop :=
  a = "buy"%string \/ a = "addToCart"%string \/ a = "details"%string.

(** The number of rows of the log for the pair (item [m], user [u]) with
    action [a]. *)
Definition action_count (log : list Act.row) (m u : Z) (a : string) : Z :=
  Z.of_nat (length (List.filter
    (fun x => bool_decide (Act.MovieId x = m /\ Act.UserId x = u /\ Act.Action x = a)) log)).

(** The sum over the action types of count times weight. *)
Definition weighted_score (log : list Act.row) (m u : Z) : Z :=
  action_count log m u "buy" * 100 +
  action_count log m u "addToCart" * 50 +
  action_count log m u "details" * 15.

(** The pair (item, user) has at least one recorded action. *)
Definition has_action (log : list Act.row) (m u : Z) : Prop :=
  exists x, In x log /\ Act.MovieId x = m /\ Act.UserId x = u.

Definition rating_key (r : Rating.row) : Z * Z := (Rating.MovieId r, Rating.UserId r).

(** [agg_data[m][u]], as a reference. *)
Definition entry_ref (agg : dict Z (dict Z ref)) (m u : Z) : option ref :=
  match dict_get m agg with
  | Some movie_agg_data => dict_get u movie_agg_data
  | None => None
  end.

(** The counters a pair has accumulated once the index entries [P] have
    been processed, [v] giving the count of an index entry. *)
Definition tally (v : Z * (Z * string) -> Z) (P : list (Z * (Z * string)))
    (m u : Z) (a : string) : Z :=
  if existsb (key_eqb (m, (u, a))) P then v (m, (u, a)) else 0.

Definition counters_of (v : Z * (Z * string) -> Z) (P : list (Z * (Z * string)))
    (m u : Z) : dict string Z :=
  [("buy"%string, tally v P m u "buy");
   ("addToCart"%string, tally v P m u "addToCart");
   ("details"%string, tally v P m u "details")].

(** Dictionaries have no repeated key. *)
Definition agg_wf (agg : dict Z (dict Z ref)) : Prop :=
  List.NoDup (dict_keys agg) /\
  forall m md, dict_get m agg = Some md -> List.NoDup (dict_keys md).

(** The state of the aggregation loop after the index entries [P], the
    last of which is [prev]: the entries of [agg_data] are the pairs seen
    so far, distinct pairs hold distinct objects, each object holds the
    counters of its pair, and [user_agg_data] names the object of the
    pair processed last. *)
Record agg_inv (v : Z * (Z * string) -> Z) (P : list (Z * (Z * string)))
    (prev : option (Z * (Z * string))) (s : agg_state) : Prop := mk_agg_inv
  { inv_wf : agg_wf (agg_data s);
    inv_dom : forall m u,
      entry_ref (agg_data s) m u <> None <-> exists a, In (m, (u, a)) P;
    inv_inj : forall m u m' u' r,
      entry_ref (agg_data s) m u = Some r ->
      entry_ref (agg_data s) m' u' = Some r -> m = m' /\ u = u';
    inv_val : forall m u r,
      entry_ref (agg_data s) m u = Some r ->
      store s !! r = Some (counters_of v P m u);
    inv_cur : match prev with
              | None => P = []
              | Some k =>
                  In k P /\ (forall p, In p P -> p = k \/ klt p k) /\
                  exists r, user_agg_data s = Some r /\
                            entry_ref (agg_data s) (fst k) (fst (snd k)) = Some r
              end }.

(** The value [counts] holds for an index entry. *)
Definition count_of (log : list Act.row) (k : Z * (Z * string)) : Z :=
  Z.of_nat (length (List.filter (fun x => key_eqb (action_key x) k) log)).

(** The counters of a pair, as the loop leaves them. *)
Definition final_counters (log : list Act.row) (m u : Z) : dict string Z :=
  [("buy"%string, action_count log m u "buy");
   ("addToCart"%string, action_count log m u "addToCart");
   ("details"%string, action_count log m u "details")].

(** The rows the rating loop appends while it walks the movies [ms] of
    [agg], [f] giving the raw rating of a pair. *)
Definition rating_rows (agg : dict Z (dict Z ref)) (f : Z -> Z -> Z) (ms : list Z) :
    list (Z * Z * Z) :=
  flat_map (fun m =>
    match dict_get m agg with
    | Some md => map (fun u => (m, u, f m u)) (dict_keys md)
    | None => []
    end) ms.

(** A small action log: the pair (item 1, user 1) with two views and one
    cart-add, and the pair (item 2, user 1) with one view. *)
Definition example_log : list Act.row :=
  [ Act.mk 1 1 "details"; Act.mk 2 1 "details";
    Act.mk 1 1 "addToCart"; Act.mk 1 1 "details" ].

(** A row of the loaded file that survives all cleaning cells. *)
Definition kept (x : Raw.row) : bool :=
  match Raw.CustomerID x with Some _ => true | None => false end &&
  ts_ltb (Raw.InvoiceDate x) (Timestamp_of_date (mkdate 2011 12 1)) &&
  Qltb 0 (Raw.Quantity x) && Qltb 0 (Raw.UnitPrice x) &&
  Qltb (Raw.Quantity x) 30 && Qltb (Raw.UnitPrice x) 30.

(** The order of the aggregates: by customer, then by period. *)
Definition rfm_before (a b : Rfm.row) : Prop :=
  Rfm.CustomerID a < Rfm.CustomerID b \/
  (Rfm.CustomerID a = Rfm.CustomerID b /\ Rfm.HalfYear a < Rfm.HalfYear b).

(** The order of the ratings: by movie, then by user. *)
Definition rating_before (a b : Rating.row) : Prop :=
  Rating.MovieId a < Rating.MovieId b \/
  (Rating.MovieId a = Rating.MovieId b /\ Rating.UserId a < Rating.UserId b).

(** The sum of an integer column. *)
Definition col_total (l : list Z) : Z := fold_right Z.add 0 l.

(** The keys of [agg_data] and of each movie dictionary are in increasing
    order, and no movie dictionary is empty. *)
Definition agg_sorted (agg : dict Z (dict Z ref)) : Prop :=
  StronglySorted Z.lt (dict_keys agg) /\
  forall m md, dict_get m agg = Some md ->
               md <> [] /\ StronglySorted Z.lt (dict_keys md).

(** The weight of an action, 0 for an action without weight. *)
Definition weight_of (a : string) : Z := default 0 (dict_get a weights).

(** A float64 that is +0.0, a positive number or +infinity (not NaN, not
    negative, not -0.0), the exponent of a number being at least that of
    the smallest subnormal. *)
Definition b64_wf (x : binary64) : Prop :=
  match x with
  | S754_zero s => s = false
  | S754_infinity s => s = false
  | S754_finite s _ e => s = false /\ -1074 <= e
  | S754_nan => False
  end.

(** A positive number or +infinity. *)
Definition b64_positive (x : binary64) : Prop :=
  match x with
  | S754_infinity false => True
  | S754_finite false _ e => -1074 <= e
  | _ => False
  end.

(** The float64 [x] is a number and stands for exactly the rational [q]. *)
Definition b64_exactly (x : binary64) (q : Q) : Prop :=
  match b64_to_Q x with
  | Some v => (v == q)%Q
  | None => False
  end.

(** A small action log with raw ratings 15 and 165. *)
Definition uneven_log : list Act.row :=
  [ Act.mk 1 1 "details"; Act.mk 2 1 "buy"; Act.mk 2 1 "addToCart";
    Act.mk 2 1 "details" ].

(** * Properties *)

(** ** Sorted group keys *)

Section GroupKeysFacts.
Context {K : Type} `{KeyOrder K}.

Lemma key_eqb_true a b : key_eqb a b = true <-> a = b.
Proof.
  unfold key_eqb. destruct (kcmp a b) eqn:E.
  - apply kcmp_eq in E. tauto.
  - split; [discriminate|]. intros ->.
    assert (kcmp b b = Eq) by (apply kcmp_eq; reflexivity). congruence.
  - split; [discriminate|]. intros ->.
    assert (kcmp b b = Eq) by (apply kcmp_eq; reflexivity). congruence.
Qed.

Lemma key_eqb_refl a : key_eqb a a = true.
Proof. apply key_eqb_true. reflexivity. Qed.

Lemma klt_irrefl a : ~ klt a a.
Proof.
  unfold klt. intros L.
  assert (kcmp a a = Eq) by (apply kcmp_eq; reflexivity). congruence.
Qed.

Lemma klt_gt a b : kcmp a b = Gt -> klt b a.
Proof. unfold klt. intros G. rewrite kcmp_antisym, G. reflexivity. Qed.

Lemma key_insert_In k x l : In x (key_insert k l) <-> x = k \/ In x l.
Proof.
  induction l as [|y ys IH]; simpl.
  - intuition.
  - destruct (kcmp k y) eqn:E; simpl.
    + apply kcmp_eq in E. subst. intuition.
    + intuition.
    + rewrite IH. intuition.
Qed.

Lemma group_keys_In x l : In x (group_keys l) <-> In x l.
Proof.
  induction l as [|y ys IH]; simpl.
  - tauto.
  - rewrite key_insert_In, IH. intuition.
Qed.

Lemma key_insert_sorted k l :
  StronglySorted klt l -> StronglySorted klt (key_insert k l).
Proof.
  induction 1 as [|y ys Hs IH Hall]; simpl.
  - repeat constructor.
  - destruct (kcmp k y) eqn:E.
    + constructor; assumption.
    + constructor; [constructor; assumption|].
      constructor; [exact E|].
      rewrite List.Forall_forall in *. intros z Hz.
      exact (kcmp_trans _ _ _ E (Hall z Hz)).
    + constructor; [exact IH|].
      rewrite List.Forall_forall in *. intros z Hz.
      apply key_insert_In in Hz. destruct Hz as [->|Hz].
      * apply klt_gt. exact E.
      * apply Hall. exact Hz.
Qed.

Lemma group_keys_sorted l : StronglySorted klt (group_keys l).
Proof.
  induction l; simpl; [constructor | apply key_insert_sorted; assumption].
Qed.

Lemma sorted_NoDup (l : list K) : StronglySorted klt l -> List.NoDup l.
Proof.
  induction 1 as [|y ys Hs IH Hall]; constructor; [|exact IH].
  intros Hin. rewrite List.Forall_forall in Hall.
  exact (klt_irrefl y (Hall y Hin)).
Qed.

Lemma group_keys_NoDup l : List.NoDup (group_keys l).
Proof. apply sorted_NoDup, group_keys_sorted. Qed.
End GroupKeysFacts.

(** ** Dates *)

Lemma date_ltb_before a b : date_ltb a b = true <-> date_before a b.
Proof.
  unfold date_ltb, date_before, date_key. simpl. unfold lex_cmp. simpl.
  unfold lex_cmp. simpl.
  destruct (Z.compare_spec (year a) (year b));
    destruct (Z.compare_spec (month a) (month b));
    destruct (Z.compare_spec (day a) (day b));
    split; intros; try discriminate; try reflexivity; lia.
Qed.

Lemma date_ltb_not_before a b : date_ltb a b = false <-> ~ date_before a b.
Proof.
  rewrite <- date_ltb_before. destruct (date_ltb a b); split; congruence.
Qed.

Lemma ts_ltb_midnight t d :
  0 <= ts_nanos t -> ts_ltb t (Timestamp_of_date d) = true -> date_before (ts_date t) d.
Proof.
  intros Hn. unfold ts_ltb, ts_key, Timestamp_of_date. simpl.
  unfold lex_cmp at 1. simpl fst. simpl snd.
  rewrite <- date_ltb_before. unfold date_ltb.
  change (@kcmp (Z * (Z * Z)) prod_KeyOrder) with (@lex_cmp Z (Z * Z) _ _).
  destruct (lex_cmp (date_key (ts_date t)) (date_key d)); try easy.
  simpl. destruct (Z.compare_spec (ts_nanos t) 0); try discriminate; lia.
Qed.

Lemma days_before_year_succ y :
  days_before_year (y + 1) = days_before_year y + (if is_leap y then 366 else 365).
Proof.
  unfold days_before_year, is_leap. cbv zeta.
  replace (y + 1 - 1) with y by lia.
  destruct (Z.eqb_spec (y mod 4) 0); destruct (Z.eqb_spec (y mod 100) 0);
    destruct (Z.eqb_spec (y mod 400) 0); simpl;
    Z.div_mod_to_equations; lia.
Qed.

Lemma days_before_year_mono a b :
  a <= b -> days_before_year a <= days_before_year b.
Proof.
  intros Hab. unfold days_before_year. cbv zeta.
  Z.div_mod_to_equations. lia.
Qed.

(** The day number within the year stays within the year's length. *)
Lemma day_of_year_bound d :
  valid_date d ->
  1 <= days_before_month (year d) (month d) + day d
    <= (if is_leap (year d) then 366 else 365).
Proof.
  unfold valid_date, days_before_month, days_in_month.
  intros (_ & Hm & Hd).
  assert (Hcases : month d = 1 \/ month d = 2 \/ month d = 3 \/ month d = 4 \/
                   month d = 5 \/ month d = 6 \/ month d = 7 \/ month d = 8 \/
                   month d = 9 \/ month d = 10 \/ month d = 11 \/ month d = 12) by lia.
  destruct (is_leap (year d));
    repeat (destruct Hcases as [E | Hcases]; [rewrite E in *; simpl in *; lia|]);
    rewrite Hcases in *; simpl in *; lia.
Qed.

Lemma toordinal_lt a b :
  valid_date a -> valid_date b -> date_before a b -> toordinal a < toordinal b.
Proof.
  intros Va Vb Hlt. unfold toordinal.
  pose proof (day_of_year_bound a Va) as Ba.
  pose proof (day_of_year_bound b Vb) as Bb.
  destruct Hlt as [Hy | [Hy Hmd]].
  - pose proof (days_before_year_succ (year a)) as Hs.
    pose proof (days_before_year_mono (year a + 1) (year b)).
    lia.
  - rewrite Hy in *. clear Ba Bb.
    destruct Va as (_ & Hma & Hda). destruct Vb as (_ & Hmb & Hdb).
    rewrite Hy in Hda.
    unfold days_before_month, days_in_month in *.
    destruct Hmd as [Hm | [Hm Hd]].
    + assert (Ca : month a = 1 \/ month a = 2 \/ month a = 3 \/ month a = 4 \/
                   month a = 5 \/ month a = 6 \/ month a = 7 \/ month a = 8 \/
                   month a = 9 \/ month a = 10 \/ month a = 11 \/ month a = 12) by lia.
      assert (Cb : month b = 1 \/ month b = 2 \/ month b = 3 \/ month b = 4 \/
                   month b = 5 \/ month b = 6 \/ month b = 7 \/ month b = 8 \/
                   month b = 9 \/ month b = 10 \/ month b = 11 \/ month b = 12) by lia.
      destruct (is_leap (year b));
        repeat (destruct Ca as [Ea | Ca]; [rewrite Ea in *|]);
        try rewrite Ca in *;
        repeat (destruct Cb as [Eb | Cb]; [rewrite Eb in *; simpl in *; lia|]);
        rewrite Cb in *; simpl in *; lia.
    + rewrite Hm. lia.
Qed.

(** ** Period assignment *)

(** C7.  [get_period] returns 1 exactly for the timestamps whose date lies
    strictly before 2011-06-01 and 2 for all others; a timestamp on
    2011-06-01 itself, at any time of the day, is in period 2; and every
    row of the table with the period columns has
    [HalfYear = get_period InvoiceDate] and [NextHalfYear = HalfYear + 1]. *)
Theorem get_period_cutoff :
  (forall x : Timestamp,
     (get_period x = 1 <-> date_before (ts_date x) (mkdate 2011 6 1)) /\
     (get_period x = 2 <-> ~ date_before (ts_date x) (mkdate 2011 6 1))) /\
  (forall nanos : Z, get_period (mkTimestamp (mkdate 2011 6 1) nanos) = 2) /\
  (forall d : list Txn.row,
     Forall (fun r =>
               Per.HalfYear r = get_period (Txn.InvoiceDate (Per.txn r)) /\
               Per.NextHalfYear r = Per.HalfYear r + 1)
            (add_period_columns d)).
Proof.
  split; [|split].
  - intros x. unfold get_period.
    destruct (date_ltb (ts_date x) (mkdate 2011 6 1)) eqn:E.
    + apply date_ltb_before in E. split; split; intros; try reflexivity;
        try assumption; try discriminate. contradiction.
    + apply date_ltb_not_before in E. split; split; intros; try reflexivity;
        try assumption; try discriminate. contradiction.
  - intros nanos. reflexivity.
  - intros d. apply List.Forall_forall. intros r Hr.
    unfold add_period_columns in Hr. apply in_map_iff in Hr.
    destruct Hr as (x & <- & _). simpl. split; reflexivity.
Qed.

(** ** The end-to-end example *)

(** C4.  For the two transactions (c, 2011-03-01, quantity 2, price 5) and
    (c, 2011-07-10, quantity 1, price 20) of one customer [c], whatever
    their invoice numbers and times of day, the aggregator yields exactly
    the two rows (period 1, R = 91, F = 1, M = 10) and (period 2, R = 143,
    F = 1, M = 20), and the label join yields exactly the one training row
    (R = 91, F = 1, M = 10, M_Next = 20). *)
Theorem end_to_end_example (c : Z) (inv1 inv2 : string) (t1 t2 : Z) :
  let raw :=
    [ Raw.mk inv1 2 (mkTimestamp (mkdate 2011 3 1) t1) 5 (Some c);
      Raw.mk inv2 1 (mkTimestamp (mkdate 2011 7 10) t2) 20 (Some c) ] in
  rfm_data raw = [ Rfm.mk c 1 2 91 1 10; Rfm.mk c 2 3 143 1 20 ] /\
  rfm_data_final raw = [ Final.mk 91 1 10 (Some 20%Q) ].
Proof.
  intros raw.
  assert (Hc : clean_data raw =
    [ Per.mk (Txn.mk inv1 2 (mkTimestamp (mkdate 2011 3 1) t1) 5 c) 1 2 10;
      Per.mk (Txn.mk inv2 1 (mkTimestamp (mkdate 2011 7 10) t2) 20 c) 2 3 20 ]).
  { vm_compute. reflexivity. }
  assert (Hr : rfm_data raw = [ Rfm.mk c 1 2 91 1 10; Rfm.mk c 2 3 143 1 20 ]).
  { unfold rfm_data. rewrite Hc.
    unfold groupby_agg, group_keys, group_rows, key_eqb. cbn.
    unfold lex_cmp. cbn. repeat (rewrite !Z.compare_refl; cbn). reflexivity. }
  split; [exact Hr|].
  unfold rfm_data_final, rfm_data_merged. rewrite Hr.
  unfold merge_left, merge_on. cbn. rewrite !Z.eqb_refl. cbn. reflexivity.
Qed.

(** ** Cleaning *)

Lemma Qltb_lt a b : Qltb a b = true <-> (a < b)%Q.
Proof.
  unfold Qltb. rewrite Qlt_alt. destruct (a ?= b)%Q; split; congruence.
Qed.

Lemma drop_outliers_cleaned d x :
  In x (drop_outliers (drop_returns (date_window d))) -> In x d /\ cleaned x.
Proof.
  unfold drop_outliers, price_cap, quantity_cap, drop_returns, date_window, cleaned.
  rewrite !filter_In, !Qltb_lt. tauto.
Qed.

Lemma drop_missing_CustomerID_In raw x :
  In x (drop_missing_CustomerID raw) ->
  exists y, In y raw /\ Raw.InvoiceDate y = Txn.InvoiceDate x.
Proof.
  unfold drop_missing_CustomerID. rewrite in_flat_map.
  intros (y & Hy & Hx). exists y. split; [exact Hy|].
  destruct (Raw.CustomerID y); simpl in Hx; [|contradiction].
  destruct Hx as [<-|[]]. reflexivity.
Qed.

Lemma clean_data_filtered raw : clean_data raw = add_period_columns (filtered raw).
Proof. reflexivity. Qed.

Lemma filtered_cleaned raw x : In x (filtered raw) -> cleaned x.
Proof. unfold filtered, data. intros Hx. apply drop_outliers_cleaned in Hx. tauto. Qed.

Lemma filtered_valid raw x :
  Forall (fun y => valid_Timestamp (Raw.InvoiceDate y)) raw ->
  In x (filtered raw) -> valid_Timestamp (Txn.InvoiceDate x).
Proof.
  intros Hv Hx. unfold filtered, data in Hx.
  apply drop_outliers_cleaned in Hx. destruct Hx as [Hx _].
  apply drop_missing_CustomerID_In in Hx. destruct Hx as (y & Hy & <-).
  rewrite List.Forall_forall in Hv. auto.
Qed.

Lemma get_period_cases x : get_period x = 1 \/ get_period x = 2.
Proof. unfold get_period. destruct (date_ltb _ _); auto. Qed.

Lemma clean_data_In raw r :
  In r (clean_data raw) <->
  exists x, In x (filtered raw) /\
    r = Per.mk x (get_period (Txn.InvoiceDate x))
               (get_period (Txn.InvoiceDate x) + 1)
               (Txn.Quantity x * Txn.UnitPrice x)%Q.
Proof.
  rewrite clean_data_filtered. unfold add_period_columns. rewrite in_map_iff.
  split; intros (x & H1 & H2); exists x; split; auto.
Qed.

(** ** Lists *)

Lemma filter_map_comm {A B} (f : B -> bool) (g : A -> B) (l : list A) :
  List.filter f (map g l) = map g (List.filter (fun x => f (g x)) l).
Proof.
  induction l as [|x xs IH]; simpl; [reflexivity|].
  destruct (f (g x)); simpl; rewrite IH; reflexivity.
Qed.

Lemma filter_at_most_one {A B} (f : A -> B) (p : A -> bool) (l : list A) :
  List.NoDup (map f l) ->
  (forall x y, In x l -> In y l -> p x = true -> p y = true -> f x = f y) ->
  (length (List.filter p l) <= 1)%nat.
Proof.
  induction l as [|x xs IH]; simpl; intros Hnd Hsame; [lia|].
  inversion Hnd as [|? ? Hx Hxs]; subst.
  destruct (p x) eqn:Px.
  - assert (E : List.filter p xs = []).
    { destruct (List.filter p xs) as [|y ys] eqn:Ef; [reflexivity|].
      assert (Hy : In y (List.filter p xs)) by (rewrite Ef; left; reflexivity).
      apply filter_In in Hy. destruct Hy as [Hy Py].
      exfalso. apply Hx. rewrite (Hsame x y); auto.
      apply in_map. exact Hy. }
    rewrite E. simpl. lia.
  - apply IH; auto.
Qed.

(** ** Group-by *)

Lemma with_period_map d : add_period_columns d = map with_period d.
Proof. reflexivity. Qed.

Lemma group_key_with_period x :
  group_key (with_period x) =
  (Txn.CustomerID x, (get_period (Txn.InvoiceDate x), get_period (Txn.InvoiceDate x) + 1)).
Proof. reflexivity. Qed.

Lemma key_eqb_period (c c' p p' : Z) :
  key_eqb (c', (p', p' + 1)) (c, (p, p + 1)) = (c' =? c) && (p' =? p).
Proof.
  unfold key_eqb. simpl. unfold lex_cmp. simpl. unfold lex_cmp. simpl.
  destruct (Z.compare_spec c' c); destruct (Z.compare_spec p' p);
    destruct (Z.compare_spec (p' + 1) (p + 1));
    destruct (Z.eqb_spec c' c); destruct (Z.eqb_spec p' p); simpl;
    try reflexivity; lia.
Qed.

Lemma group_rows_txn_group raw c p :
  group_rows (c, (p, p + 1)) (clean_data raw) = map with_period (txn_group raw c p).
Proof.
  rewrite clean_data_filtered, with_period_map. unfold group_rows, txn_group.
  rewrite filter_map_comm. f_equal. apply filter_ext. intros x.
  rewrite group_key_with_period. apply key_eqb_period.
Qed.

Lemma group_keys_shape raw k :
  In k (group_keys (map group_key (clean_data raw))) ->
  exists x, In x (filtered raw) /\ k = group_key (with_period x).
Proof.
  rewrite group_keys_In, in_map_iff. intros (r & <- & Hr).
  apply clean_data_In in Hr. destruct Hr as (x & Hx & ->).
  exists x. split; [exact Hx | reflexivity].
Qed.

Lemma txn_group_In raw c p x :
  In x (txn_group raw c p) <->
  In x (filtered raw) /\ Txn.CustomerID x = c /\ get_period (Txn.InvoiceDate x) = p.
Proof.
  unfold txn_group. rewrite filter_In, andb_true_iff, !Z.eqb_eq. tauto.
Qed.

Lemma groupby_agg_keys_gen (f : Z * (Z * Z) -> list Per.row) (ks : list (Z * (Z * Z))) :
  (forall k, In k ks -> f k <> []) ->
  map agg_key
    (flat_map (fun k => match f k with
                        | [] => []
                        | x :: xs => [aggregations k x xs]
                        end) ks) = ks.
Proof.
  induction ks as [|k ks IH]; simpl; intros Hne; [reflexivity|].
  rewrite map_app, IH by auto.
  destruct (f k) as [|x xs] eqn:E.
  - exfalso. apply (Hne k); auto.
  - simpl. destruct k as [c [p n]]. reflexivity.
Qed.

Lemma groupby_agg_keys raw :
  map agg_key (groupby_agg (clean_data raw)) =
  group_keys (map group_key (clean_data raw)).
Proof.
  unfold groupby_agg.
  apply (groupby_agg_keys_gen (fun k => group_rows k (clean_data raw))).
  intros k Hk E. apply group_keys_shape in Hk. destruct Hk as (x & Hx & ->).
  rewrite group_key_with_period, group_rows_txn_group in E.
  assert (Hin : In x (txn_group raw (Txn.CustomerID x) (get_period (Txn.InvoiceDate x))))
    by (apply txn_group_In; auto).
  destruct (txn_group raw _ _); [contradiction | discriminate].
Qed.

(** Every aggregate is the summary of one non-empty transaction group. *)
Lemma rfm_data_In raw r :
  In r (rfm_data raw) ->
  exists c p x g,
    txn_group raw c p = x :: g /\ (p = 1 \/ p = 2) /\
    r = Rfm.mk c p (p + 1)
          (days_between (if p =? 1 then mkdate 2011 5 31 else mkdate 2011 11 30)
             (ts_date (fold_left ts_max (map Txn.InvoiceDate g) (Txn.InvoiceDate x))))
          (nunique (map Txn.InvoiceNo (x :: g)))
          (col_sum (map (fun y => (Txn.Quantity y * Txn.UnitPrice y)%Q) (x :: g))).
Proof.
  unfold rfm_data, rename_select, add_R. rewrite map_map, in_map_iff.
  intros (a & <- & Ha). simpl.
  unfold groupby_agg in Ha. apply in_flat_map in Ha.
  destruct Ha as (k & Hk & Ha).
  apply group_keys_shape in Hk. destruct Hk as (x0 & Hx0 & ->).
  rewrite group_key_with_period, group_rows_txn_group in Ha.
  set (c := Txn.CustomerID x0) in *.
  set (p := get_period (Txn.InvoiceDate x0)) in *.
  destruct (txn_group raw c p) as [|x g] eqn:Eg; simpl in Ha; [contradiction|].
  destruct Ha as [<-|[]].
  exists c, p, x, g. split; [exact Eg|]. split; [apply get_period_cases|].
  unfold recency, aggregations. simpl. rewrite !map_map. simpl. reflexivity.
Qed.

Lemma rfm_data_keys raw :
  map rfm_key3 (rfm_data raw) = group_keys (map group_key (clean_data raw)).
Proof.
  rewrite <- groupby_agg_keys. unfold rfm_data, rename_select, add_R.
  rewrite !map_map. reflexivity.
Qed.

Lemma NoDup_map_weaken {A B C} (f : A -> B) (g : A -> C) (l : list A) :
  (forall x y, In x l -> In y l -> g x = g y -> f x = f y) ->
  List.NoDup (map f l) -> List.NoDup (map g l).
Proof.
  induction l as [|x xs IH]; simpl; intros Hfg Hnd; [constructor|].
  inversion Hnd as [|? ? Hx Hxs]; subst. constructor.
  - intros Hin. apply in_map_iff in Hin. destruct Hin as (y & Hy & Hiny).
    apply Hx. rewrite (Hfg x y); auto. apply in_map. exact Hiny.
  - apply IH; auto.
Qed.

(** At most one aggregate per (entity, period). *)
Lemma rfm_data_NoDup raw : List.NoDup (map rfm_key (rfm_data raw)).
Proof.
  apply (NoDup_map_weaken rfm_key3 rfm_key).
  - intros a b Ha Hb E.
    apply rfm_data_In in Ha. destruct Ha as (c & p & x & g & _ & _ & ->).
    apply rfm_data_In in Hb. destruct Hb as (c' & p' & x' & g' & _ & _ & ->).
    unfold rfm_key, rfm_key3 in *. simpl in *. congruence.
  - rewrite rfm_data_keys. apply group_keys_NoDup.
Qed.

(** ** Aggregates *)

Lemma col_sum_acc l a : (fold_left Qplus l a == a + fold_right Qplus 0 l)%Q.
Proof.
  revert a. induction l as [|x xs IH]; intros a; simpl.
  - ring.
  - rewrite IH. ring.
Qed.

Lemma col_sum_total_amount g :
  (col_sum (map (fun y => Txn.Quantity y * Txn.UnitPrice y) g) == total_amount g)%Q.
Proof.
  unfold col_sum. rewrite col_sum_acc.
  induction g as [|x xs IH]; simpl.
  - ring.
  - ring_simplify. ring_simplify in IH. rewrite IH. ring.
Qed.

Lemma ts_max_In (l : list Timestamp) (a : Timestamp) :
  fold_left ts_max l a = a \/ In (fold_left ts_max l a) l.
Proof.
  revert a. induction l as [|x xs IH]; intros a; simpl; [left; reflexivity|].
  destruct (IH (ts_max a x)) as [E|Hin]; [|right; right; exact Hin].
  rewrite E. unfold ts_max. destruct (ts_ltb a x); auto.
Qed.

Lemma txn_group_member raw c p x g y :
  txn_group raw c p = x :: g -> In y (x :: g) ->
  In y (filtered raw) /\ get_period (Txn.InvoiceDate y) = p.
Proof.
  intros Eg Hy. rewrite <- Eg in Hy. apply txn_group_In in Hy. tauto.
Qed.

(** ** Label join *)

Lemma dropna_matched a bs :
  dropna_M_Next (map select_RFM_MNext (map (fun b => (a, Some b)) bs)) =
  map label (map (fun b => (a, b)) bs).
Proof.
  induction bs as [|b bs IH]; [reflexivity|].
  unfold dropna_M_Next in *. simpl. f_equal. exact IH.
Qed.

Lemma final_labeled_pairs l r :
  dropna_M_Next (map select_RFM_MNext (merge_left l r)) = map label (labeled_pairs l r).
Proof.
  induction l as [|a l IH]; simpl; [reflexivity|].
  rewrite !map_app. unfold dropna_M_Next in *. rewrite List.filter_app, IH. f_equal.
  destruct (List.filter (merge_on a) r) as [|b bs] eqn:E; [reflexivity|].
  apply (dropna_matched a (b :: bs)).
Qed.

Lemma labeled_pairs_In l r a b :
  In (a, b) (labeled_pairs l r) <-> In a l /\ In b r /\ merge_on a b = true.
Proof.
  unfold labeled_pairs. rewrite in_flat_map. split.
  - intros (a' & Ha' & Hin). apply in_map_iff in Hin.
    destruct Hin as (b' & [= <- <-] & Hb'). apply filter_In in Hb'. tauto.
  - intros (Ha & Hb & Hm). exists a. split; [exact Ha|].
    apply in_map_iff. exists b. split; [reflexivity|]. apply filter_In. tauto.
Qed.

Lemma labeled_pairs_NoDup {B} (f : Rfm.row -> B) l r :
  (forall a, In a l -> (length (List.filter (merge_on a) r) <= 1)%nat) ->
  List.NoDup (map f l) ->
  List.NoDup (map (fun p => f (fst p)) (labeled_pairs l r)).
Proof.
  induction l as [|a l IH]; simpl; intros Hone Hnd; [constructor|].
  inversion Hnd as [|? ? Ha Hl]; subst.
  assert (IH' : List.NoDup (map (fun p => f (fst p)) (labeled_pairs l r)))
    by (apply IH; auto).
  rewrite map_app, map_map. simpl.
  pose proof (Hone a (or_introl eq_refl)) as Hlen.
  destruct (List.filter (merge_on a) r) as [|b [|b' bs]]; simpl in *; try lia.
  - exact IH'.
  - constructor; [|exact IH'].
    intros Hin. apply in_map_iff in Hin. destruct Hin as ([a' b'] & E & Hp).
    apply labeled_pairs_In in Hp. simpl in E. apply Ha. rewrite <- E.
    apply in_map. tauto.
Qed.

Lemma merge_on_spec a b :
  merge_on a b = true <->
  Rfm.CustomerID a = Rfm.CustomerID b /\ Rfm.NextHalfYear a = Rfm.HalfYear b.
Proof. unfold merge_on. rewrite andb_true_iff, !Z.eqb_eq. tauto. Qed.

Lemma rfm_data_periods raw a :
  In a (rfm_data raw) ->
  (Rfm.HalfYear a = 1 \/ Rfm.HalfYear a = 2) /\ Rfm.NextHalfYear a = Rfm.HalfYear a + 1.
Proof.
  intros Ha. apply rfm_data_In in Ha. destruct Ha as (c & p & x & g & _ & Hp & ->).
  simpl. auto.
Qed.

Lemma rfm_data_one_match raw a :
  (length (List.filter (merge_on a) (rfm_data raw)) <= 1)%nat.
Proof.
  apply (filter_at_most_one rfm_key); [apply rfm_data_NoDup|].
  intros x y _ _ Hx Hy. apply merge_on_spec in Hx, Hy.
  unfold rfm_key. destruct Hx as [<- <-], Hy as [<- <-]. reflexivity.
Qed.

Lemma rfm_data_final_pairs raw :
  rfm_data_final raw = map label (labeled_pairs (rfm_data raw) (rfm_data raw)).
Proof. unfold rfm_data_final, rfm_data_merged. apply final_labeled_pairs. Qed.

(** C1.  The label joiner's output is, row by row, the image of a list of
    pairs (a, b) of aggregates in which [b] is the aggregate of the same
    entity for the period after that of [a]; no (entity, period) occurs
    twice among the aggregates nor among the [a]s, so each output row
    comes from exactly one (entity, period) aggregate whose successor
    exists; every output row carries a label; and an entity whose
    aggregates all lie in one period is the source of no output row. *)
Theorem label_join_complete (raw : list Raw.row) :
  exists src : list (Rfm.row * Rfm.row),
    rfm_data_final raw = map label src /\
    Forall (fun p => In (fst p) (rfm_data raw) /\ In (snd p) (rfm_data raw) /\
                     Rfm.CustomerID (snd p) = Rfm.CustomerID (fst p) /\
                     Rfm.HalfYear (snd p) = Rfm.HalfYear (fst p) + 1) src /\
    List.NoDup (map rfm_key (rfm_data raw)) /\
    List.NoDup (map (fun p => rfm_key (fst p)) src) /\
    Forall (fun r => Final.M_Next r <> None) (rfm_data_final raw) /\
    (forall c : Z,
       (forall a b, In a (rfm_data raw) -> In b (rfm_data raw) ->
                    Rfm.CustomerID a = c -> Rfm.CustomerID b = c ->
                    Rfm.HalfYear a = Rfm.HalfYear b) ->
       Forall (fun p => Rfm.CustomerID (fst p) <> c) src).
Proof.
  exists (labeled_pairs (rfm_data raw) (rfm_data raw)).
  assert (Hsrc : forall p, In p (labeled_pairs (rfm_data raw) (rfm_data raw)) ->
            In (fst p) (rfm_data raw) /\ In (snd p) (rfm_data raw) /\
            Rfm.CustomerID (snd p) = Rfm.CustomerID (fst p) /\
            Rfm.HalfYear (snd p) = Rfm.HalfYear (fst p) + 1).
  { intros [a b] Hp. apply labeled_pairs_In in Hp. destruct Hp as (Ha & Hb & Hm).
    apply merge_on_spec in Hm. destruct Hm as [Hc Hn].
    destruct (rfm_data_periods raw a Ha) as [_ Hnext]. simpl.
    repeat split; auto; congruence. }
  split; [apply rfm_data_final_pairs|].
  split; [apply List.Forall_forall; exact Hsrc|].
  split; [apply rfm_data_NoDup|].
  split; [apply labeled_pairs_NoDup;
          [intros; apply rfm_data_one_match | apply rfm_data_NoDup]|].
  split.
  - rewrite rfm_data_final_pairs. apply List.Forall_forall. intros r Hr.
    apply in_map_iff in Hr. destruct Hr as (p & <- & _). discriminate.
  - intros c Hone. apply List.Forall_forall. intros p Hp Hc.
    destruct (Hsrc p Hp) as (Ha & Hb & Hcb & Hnext).
    pose proof (Hone (fst p) (snd p) Ha Hb Hc ltac:(congruence)). lia.
Qed.

(** C10.  Every row of the final training table comes from a period-1
    aggregate paired with the period-2 aggregate of the same entity, and
    no entity is the source of two rows: the aggregates only have periods
    1 and 2, an aggregate of period 2 is matched by no aggregate, and no
    (entity, period) has two aggregates. *)
Theorem final_rows_from_first_period (raw : list Raw.row) :
  exists src : list (Rfm.row * Rfm.row),
    rfm_data_final raw = map label src /\
    Forall (fun p => In (fst p) (rfm_data raw) /\ In (snd p) (rfm_data raw) /\
                     Rfm.HalfYear (fst p) = 1 /\ Rfm.HalfYear (snd p) = 2) src /\
    List.NoDup (map (fun p => Rfm.CustomerID (fst p)) src) /\
    Forall (fun a => Rfm.HalfYear a = 1 \/ Rfm.HalfYear a = 2) (rfm_data raw) /\
    Forall (fun a => Rfm.HalfYear a = 2 ->
                     List.filter (merge_on a) (rfm_data raw) = []) (rfm_data raw).
Proof.
  exists (labeled_pairs (rfm_data raw) (rfm_data raw)).
  assert (Hsrc : forall p, In p (labeled_pairs (rfm_data raw) (rfm_data raw)) ->
            In (fst p) (rfm_data raw) /\ In (snd p) (rfm_data raw) /\
            Rfm.HalfYear (fst p) = 1 /\ Rfm.HalfYear (snd p) = 2).
  { intros [a b] Hp. apply labeled_pairs_In in Hp. destruct Hp as (Ha & Hb & Hm).
    apply merge_on_spec in Hm. destruct Hm as [Hc Hn].
    destruct (rfm_data_periods raw a Ha) as [Hpa Hnext].
    destruct (rfm_data_periods raw b Hb) as [Hpb _]. simpl.
    repeat split; auto; lia. }
  split; [apply rfm_data_final_pairs|].
  split; [apply List.Forall_forall; exact Hsrc|].
  split.
  - apply (NoDup_map_weaken (fun p => rfm_key (fst p))).
    + intros p q Hp Hq E. unfold rfm_key.
      destruct (Hsrc p Hp) as (_ & _ & Ep & _).
      destruct (Hsrc q Hq) as (_ & _ & Eq & _). congruence.
    + apply labeled_pairs_NoDup;
        [intros; apply rfm_data_one_match | apply rfm_data_NoDup].
  - split; apply List.Forall_forall; intros a Ha.
    + apply (rfm_data_periods raw a Ha).
    + intros H2.
      destruct (List.filter (merge_on a) (rfm_data raw)) as [|b bs] eqn:E;
        [reflexivity|].
      assert (Hb : In b (List.filter (merge_on a) (rfm_data raw)))
        by (rewrite E; left; reflexivity).
      apply filter_In in Hb. destruct Hb as [Hb Hm].
      apply merge_on_spec in Hm. destruct Hm as [_ Hn].
      destruct (rfm_data_periods raw a Ha) as [_ Hnext].
      destruct (rfm_data_periods raw b Hb) as [Hpb _]. lia.
Qed.

(** ** Dictionaries *)

Section DictFacts.
Context {K V : Type} `{EqDecision K}.
Implicit Types (d : dict K V) (k : K) (v : V).

Lemma dict_get_set_eq k v d : dict_get k (dict_set k v d) = Some v.
Proof.
  induction d as [|[k' v'] d IH]; simpl.
  - destruct (decide (k = k)); congruence.
  - destruct (decide (k = k')) as [->|Hne]; simpl.
    + destruct (decide (k' = k')); congruence.
    + destruct (decide (k = k')); [contradiction | exact IH].
Qed.

Lemma dict_get_set_ne k k' v d :
  k <> k' -> dict_get k' (dict_set k v d) = dict_get k' d.
Proof.
  intros Hne. induction d as [|[k0 v0] d IH]; simpl.
  - destruct (decide (k' = k)); congruence.
  - destruct (decide (k = k0)) as [->|Hne0]; simpl.
    + destruct (decide (k' = k0)); congruence.
    + destruct (decide (k' = k0)); [reflexivity | exact IH].
Qed.

Lemma dict_get_keys k d : dict_get k d <> None <-> In k (dict_keys d).
Proof.
  induction d as [|[k' v'] d IH]; simpl.
  - split; [congruence | tauto].
  - destruct (decide (k = k')) as [->|Hne].
    + split; [auto | congruence].
    + rewrite IH. split; [auto | intros [E|Hin]; [congruence | exact Hin]].
Qed.

Lemma dict_keys_set k v d :
  dict_keys (dict_set k v d) =
  match dict_get k d with
  | Some _ => dict_keys d
  | None => dict_keys d ++ [k]
  end.
Proof.
  induction d as [|[k' v'] d IH]; simpl; [reflexivity|].
  destruct (decide (k = k')) as [->|Hne]; simpl; [reflexivity|].
  rewrite IH. destruct (dict_get k d); reflexivity.
Qed.

Lemma dict_set_NoDup k v d :
  List.NoDup (dict_keys d) -> List.NoDup (dict_keys (dict_set k v d)).
Proof.
  intros Hnd. rewrite dict_keys_set.
  destruct (dict_get k d) eqn:E; [exact Hnd|].
  apply List.NoDup_app; [exact Hnd | repeat constructor; simpl; tauto |].
  intros x Hx [<-|[]]. apply dict_get_keys in Hx. congruence.
Qed.
End DictFacts.

(** ** The aggregation loop *)

Lemma entry_ref_set (agg : dict Z (dict Z ref)) m u r (md0 : dict Z ref) :
  (dict_get m agg = Some md0 \/ (dict_get m agg = None /\ md0 = [])) ->
  forall m' u',
    entry_ref (dict_set m (dict_set u r md0) agg) m' u' =
    if decide (m' = m /\ u' = u) then Some r else entry_ref agg m' u'.
Proof.
  intros Hmd m' u'. unfold entry_ref.
  destruct (decide (m' = m)) as [->|Hm].
  - rewrite dict_get_set_eq.
    destruct (decide (u' = u)) as [->|Hu].
    + rewrite dict_get_set_eq. destruct (decide (m = m /\ u = u)); tauto.
    + rewrite dict_get_set_ne by congruence.
      destruct (decide (m = m /\ u' = u)); [tauto|].
      destruct Hmd as [-> | [-> ->]]; reflexivity.
  - rewrite dict_get_set_ne by congruence.
    destruct (decide (m' = m /\ u' = u)); [tauto | reflexivity].
Qed.

Lemma agg_wf_set (agg : dict Z (dict Z ref)) m u r (md0 : dict Z ref) :
  agg_wf agg ->
  (dict_get m agg = Some md0 \/ (dict_get m agg = None /\ md0 = [])) ->
  agg_wf (dict_set m (dict_set u r md0) agg).
Proof.
  intros [Hk Hmd] H0. split; [apply dict_set_NoDup; exact Hk|].
  intros m' md'. destruct (decide (m' = m)) as [->|Hm].
  - rewrite dict_get_set_eq. intros [= <-]. apply dict_set_NoDup.
    destruct H0 as [E | [_ ->]]; [eapply Hmd; eauto | constructor].
  - rewrite dict_get_set_ne by congruence. apply Hmd.
Qed.

(** A pair seen for the first time gets a fresh object. *)
Lemma ensure_entry_fresh s m u a :
  agg_wf (agg_data s) -> entry_ref (agg_data s) m u = None ->
  exists s1,
    ensure_entry s (m, (u, a)) = Ok s1 /\
    store s1 = store s ++ [new_user_agg_data] /\
    user_agg_data s1 = Some (length (store s)) /\
    agg_wf (agg_data s1) /\
    forall m' u',
      entry_ref (agg_data s1) m' u' =
      if decide (m' = m /\ u' = u) then Some (length (store s))
      else entry_ref (agg_data s) m' u'.
Proof.
  intros Hwf Hnone. unfold ensure_entry, entry_ref in *. simpl fst. simpl snd.
  destruct (dict_get m (agg_data s)) as [md|] eqn:Em.
  - unfold dict_mem. rewrite Hnone. simpl.
    eexists. split; [reflexivity|]. simpl.
    split; [reflexivity|]. split; [reflexivity|]. split.
    + apply agg_wf_set; auto.
    + apply entry_ref_set. auto.
  - simpl. eexists. split; [reflexivity|]. simpl.
    split; [reflexivity|]. split; [reflexivity|]. split.
    + apply (agg_wf_set (agg_data s) m u _ []); auto.
    + apply (entry_ref_set (agg_data s) m u _ []). auto.
Qed.

(** A pair that is already there has its entry overwritten with whatever
    object [user_agg_data] names at that moment. *)
Lemma ensure_entry_seen s m u a r :
  agg_wf (agg_data s) -> entry_ref (agg_data s) m u <> None ->
  user_agg_data s = Some r ->
  exists s1,
    ensure_entry s (m, (u, a)) = Ok s1 /\
    store s1 = store s /\
    user_agg_data s1 = Some r /\
    agg_wf (agg_data s1) /\
    forall m' u',
      entry_ref (agg_data s1) m' u' =
      if decide (m' = m /\ u' = u) then Some r else entry_ref (agg_data s) m' u'.
Proof.
  intros Hwf Hsome Hcur. unfold ensure_entry, entry_ref in *. simpl fst. simpl snd.
  destruct (dict_get m (agg_data s)) as [md|] eqn:Em; [|congruence].
  unfold dict_mem. destruct (dict_get u md) eqn:Eu; [|congruence].
  rewrite Hcur. simpl.
  eexists. split; [reflexivity|]. simpl.
  split; [reflexivity|]. split; [reflexivity|]. split.
  - apply agg_wf_set; auto.
  - apply entry_ref_set. auto.
Qed.

Lemma existsb_key_In (k : Z * (Z * string)) P : existsb (key_eqb k) P = true <-> In k P.
Proof.
  rewrite existsb_exists. split.
  - intros (x & Hx & E). apply key_eqb_true in E. subst. exact Hx.
  - intros Hk. exists k. split; [exact Hk | apply key_eqb_refl].
Qed.

Lemma tally_absent v P m u a : ~ In (m, (u, a)) P -> tally v P m u a = 0.
Proof.
  intros Hn. unfold tally.
  destruct (existsb (key_eqb (m, (u, a))) P) eqn:E; [|reflexivity].
  apply existsb_key_In in E. contradiction.
Qed.

Lemma tally_present v P m u a : In (m, (u, a)) P -> tally v P m u a = v (m, (u, a)).
Proof.
  intros Hin. unfold tally. apply existsb_key_In in Hin. rewrite Hin. reflexivity.
Qed.

Lemma tally_cons_ne v k P m u a :
  k <> (m, (u, a)) -> tally v (k :: P) m u a = tally v P m u a.
Proof.
  intros Hne. unfold tally. simpl.
  destruct (key_eqb (m, (u, a)) k) eqn:E; [|reflexivity].
  apply key_eqb_true in E. congruence.
Qed.

Lemma counters_of_fresh v P m u :
  (forall a, ~ In (m, (u, a)) P) -> counters_of v P m u = new_user_agg_data.
Proof.
  intros Hn. unfold counters_of, new_user_agg_data.
  rewrite !tally_absent by apply Hn. reflexivity.
Qed.

Lemma counters_of_cons_ne v P m u m2 u2 a2 :
  (m, u) <> (m2, u2) ->
  counters_of v ((m2, (u2, a2)) :: P) m u = counters_of v P m u.
Proof.
  intros Hne. unfold counters_of.
  rewrite !tally_cons_ne by congruence. reflexivity.
Qed.

Lemma counters_of_get v P m u a :
  known_action a -> dict_get a (counters_of v P m u) = Some (tally v P m u a).
Proof. intros [-> | [-> | ->]]; reflexivity. Qed.

Lemma counters_of_add v P m u a :
  known_action a -> ~ In (m, (u, a)) P ->
  dict_set a (tally v P m u a + v (m, (u, a))) (counters_of v P m u) =
  counters_of v ((m, (u, a)) :: P) m u.
Proof.
  intros Hk Hn.
  rewrite (tally_absent v P m u a Hn), Z.add_0_l.
  rewrite <- (tally_present v ((m, (u, a)) :: P) m u a) by (left; reflexivity).
  unfold counters_of.
  destruct Hk as [-> | [-> | ->]]; cbn [dict_set];
    repeat (case_decide; try congruence);
    try rewrite (tally_cons_ne v _ P m u "buy") by congruence;
    try rewrite (tally_cons_ne v _ P m u "addToCart") by congruence;
    try rewrite (tally_cons_ne v _ P m u "details") by congruence;
    reflexivity.
Qed.

Lemma add_count_ok c s m u a r cnt old n :
  entry_ref (agg_data s) m u = Some r ->
  store s !! r = Some cnt ->
  dict_get a cnt = Some old ->
  series_get c (m, (u, a)) = Some n ->
  add_count c s (m, (u, a)) =
  Ok (mk_agg_state (agg_data s) (<[r := dict_set a (old + n) cnt]> (store s))
        (user_agg_data s)).
Proof.
  unfold add_count, entry_ref. simpl fst. simpl snd. intros Hr Hs Ho Hn.
  destruct (dict_get m (agg_data s)) as [md|]; [|discriminate].
  simpl. rewrite Hr. simpl. rewrite Hs. simpl. rewrite Ho. simpl.
  rewrite Hn. reflexivity.
Qed.

(** Between two index entries of the same pair there are only entries of
    that pair. *)
Lemma klt_between (m u m2 u2 : Z) (a a1 a2 : string) :
  klt (m2, (u2, a1)) (m, (u, a)) -> klt (m, (u, a)) (m2, (u2, a2)) ->
  m = m2 /\ u = u2.
Proof.
  unfold klt. simpl. unfold lex_cmp. simpl. unfold lex_cmp. simpl.
  rewrite (Z.compare_antisym m m2), (Z.compare_antisym u u2).
  destruct (Z.compare_spec m m2); simpl; try discriminate;
    destruct (Z.compare_spec u u2); simpl; try discriminate; auto.
Qed.

(** The [if]/[else] of the loop body, under the invariant: the entry of
    the pair of the next index entry ends up holding the object that
    [user_agg_data] names, that object holds the counters of the pair, and
    no other entry is disturbed. *)
Lemma ensure_entry_inv v P prev s m2 u2 a2 :
  agg_inv v P prev s ->
  (forall p, In p P -> klt p (m2, (u2, a2))) ->
  exists s1 r1,
    ensure_entry s (m2, (u2, a2)) = Ok s1 /\
    agg_wf (agg_data s1) /\
    user_agg_data s1 = Some r1 /\
    (forall m u, entry_ref (agg_data s1) m u =
                 if decide (m = m2 /\ u = u2) then Some r1
                 else entry_ref (agg_data s) m u) /\
    store s1 !! r1 = Some (counters_of v P m2 u2) /\
    (forall m u r, (m, u) <> (m2, u2) ->
       entry_ref (agg_data s) m u = Some r ->
       r <> r1 /\ store s1 !! r = Some (counters_of v P m u)).
Proof.
  intros Hinv Hlt.
  destruct (entry_ref (agg_data s) m2 u2) as [r0|] eqn:E0.
  - (* the pair is there: the stale name must denote its object *)
    assert (Hex : exists a, In (m2, (u2, a)) P)
      by (apply (inv_dom _ _ _ _ Hinv); congruence).
    destruct Hex as (a1 & Ha1).
    pose proof (inv_cur _ _ _ _ Hinv) as Hcur.
    destruct prev as [[m [u a]]|]; [|rewrite Hcur in Ha1; contradiction].
    destruct Hcur as (Hk & Hmax & r & Hr & Href). simpl in Href.
    assert (Hsame : m = m2 /\ u = u2).
    { destruct (Hmax _ Ha1) as [[= -> -> ->] | Hlt1]; [auto|].
      eapply klt_between; [exact Hlt1 | apply Hlt; exact Hk]. }
    destruct Hsame as [-> ->].
    assert (r = r0) by congruence. subst r.
    destruct (ensure_entry_seen s m2 u2 a2 r0 (inv_wf _ _ _ _ Hinv)) as
      (s1 & Hok & Hst & Hu & Hwf & Hent); [congruence | exact Hr |].
    exists s1, r0. rewrite Hst.
    split; [exact Hok|]. split; [exact Hwf|]. split; [exact Hu|].
    split; [exact Hent|]. split.
    + apply (inv_val _ _ _ _ Hinv). exact E0.
    + intros m' u' r' Hne H0. split.
      * intros ->. destruct (inv_inj _ _ _ _ Hinv _ _ _ _ _ H0 E0). congruence.
      * apply (inv_val _ _ _ _ Hinv). exact H0.
  - (* a new pair: a fresh object *)
    destruct (ensure_entry_fresh s m2 u2 a2 (inv_wf _ _ _ _ Hinv) E0) as
      (s1 & Hok & Hst & Hu & Hwf & Hent).
    exists s1, (length (store s)). rewrite Hst.
    split; [exact Hok|]. split; [exact Hwf|]. split; [exact Hu|].
    split; [exact Hent|]. split.
    + rewrite list_lookup_middle by reflexivity. f_equal. symmetry.
      apply counters_of_fresh. intros a Ha.
      assert (entry_ref (agg_data s) m2 u2 <> None)
        by (apply (inv_dom _ _ _ _ Hinv); eauto).
      congruence.
    + intros m' u' r' Hne H0.
      pose proof (inv_val _ _ _ _ Hinv _ _ _ H0) as Hv.
      pose proof (lookup_lt_Some _ _ _ Hv) as Hlen. split.
      * intros ->. lia.
      * rewrite lookup_app_l; [exact Hv | exact Hlen].
Qed.

(** One iteration of the aggregation loop keeps the invariant. *)
Lemma agg_body_step c v P prev s k :
  agg_inv v P prev s ->
  (forall p, In p P -> klt p k) ->
  known_action (snd (snd k)) ->
  series_get c k = Some (v k) ->
  exists s', agg_body c s k = Ok s' /\ agg_inv v (k :: P) (Some k) s'.
Proof.
  destruct k as [m2 [u2 a2]]. simpl. intros Hinv Hlt Hknown Hget.
  assert (Hnew : ~ In (m2, (u2, a2)) P).
  { intros Hin. exact (klt_irrefl _ (Hlt _ Hin)). }
  destruct (ensure_entry_inv v P prev s m2 u2 a2 Hinv Hlt) as
    (s1 & r1 & Hok & Hwf & Hu & Hent & Hr1 & Hold).
  assert (Hent2 : entry_ref (agg_data s1) m2 u2 = Some r1).
  { rewrite Hent. destruct (decide (m2 = m2 /\ u2 = u2)); tauto. }
  unfold agg_body. rewrite Hok. simpl.
  rewrite (add_count_ok c s1 m2 u2 a2 r1 _ _ _ Hent2 Hr1
             (counters_of_get v P m2 u2 a2 Hknown) Hget).
  rewrite counters_of_add by assumption.
  eexists. split; [reflexivity|].
  constructor; simpl.
  - exact Hwf.
  - intros m u. rewrite Hent.
    destruct (decide (m = m2 /\ u = u2)) as [[-> ->]|Hne].
    + split; [eauto | congruence].
    + rewrite (inv_dom _ _ _ _ Hinv). split.
      * intros (a & Ha). eauto.
      * intros (a & [[= -> -> ->] | Ha]); [tauto | eauto].
  - intros m u m' u' r. rewrite !Hent.
    destruct (decide (m = m2 /\ u = u2)) as [[-> ->]|Hne];
      destruct (decide (m' = m2 /\ u' = u2)) as [[-> ->]|Hne']; auto.
    + intros [= <-] H'.
      destruct (Hold m' u' r1); [intros [= ? ?]; tauto | exact H' | congruence].
    + intros H' [= <-].
      destruct (Hold m u r1); [intros [= ? ?]; tauto | exact H' | congruence].
    + apply (inv_inj _ _ _ _ Hinv).
  - intros m u r. rewrite Hent.
    destruct (decide (m = m2 /\ u = u2)) as [[-> ->]|Hne].
    + intros [= <-]. apply list_lookup_insert_eq.
      eapply lookup_lt_Some. exact Hr1.
    + intros Hr.
      assert (Hne' : (m, u) <> (m2, u2)) by (intros [= ? ?]; tauto).
      destruct (Hold m u r Hne' Hr) as [Hr' Hv].
      rewrite list_lookup_insert_ne by congruence.
      rewrite counters_of_cons_ne by exact Hne'. exact Hv.
  - split; [left; reflexivity|]. split.
    + intros p [<- | Hp]; auto.
    + exists r1. split; [exact Hu | exact Hent2].
Qed.

Lemma agg_inv_init v : agg_inv v [] None (mk_agg_state [] [] None).
Proof.
  constructor; simpl.
  - split; [constructor | intros m md; discriminate].
  - intros m u. split; [intros H; exfalso; apply H; reflexivity | intros (a & [])].
  - intros m u m' u' r; discriminate.
  - intros m u r; discriminate.
  - reflexivity.
Qed.

Lemma agg_loop_steps c v rest :
  forall P prev s,
    agg_inv v P prev s ->
    (forall p k, In p P -> In k rest -> klt p k) ->
    StronglySorted klt rest ->
    (forall k, In k rest -> known_action (snd (snd k)) /\ series_get c k = Some (v k)) ->
    exists s' prev',
      for_each rest (agg_body c) s = Ok s' /\ agg_inv v (rev rest ++ P) prev' s'.
Proof.
  induction rest as [|k rest IH]; intros P prev s Hinv Hlt Hsorted Hok.
  - exists s, prev. split; [reflexivity | exact Hinv].
  - inversion Hsorted as [|? ? Hs Hall]; subst.
    destruct (Hok k (or_introl eq_refl)) as [Hknown Hget].
    destruct (agg_body_step c v P prev s k Hinv) as (s1 & Hstep & Hinv1); auto.
    { intros p Hp. apply Hlt; [exact Hp | left; reflexivity]. }
    destruct (IH (k :: P) (Some k) s1 Hinv1) as (s' & prev' & Hrun & Hinv'); auto.
    { intros p k' [<- | Hp] Hk'.
      - rewrite List.Forall_forall in Hall. apply Hall. exact Hk'.
      - apply Hlt; [exact Hp | right; exact Hk']. }
    { intros k' Hk'. apply Hok. right. exact Hk'. }
    exists s', prev'. split.
    + simpl. rewrite Hstep. simpl. exact Hrun.
    + simpl. rewrite <- app_assoc. exact Hinv'.
Qed.

(** Why the order of the index matters: on an index in which the entries
    of a pair are not adjacent, the entry of user 1 is overwritten with the
    object of user 2, and the count meant for user 1 lands there.  The
    index of [counts] is sorted, which rules this out. *)
Example unsorted_index_aliases :
  agg_loop [ ((1, (1, "buy"%string)), 1); ((1, (2, "buy"%string)), 1);
             ((1, (1, "details"%string)), 1) ] =
  Ok (mk_agg_state
        [(1, [(1, 1%nat); (2, 1%nat)])]
        [ [("buy"%string, 1); ("addToCart"%string, 0); ("details"%string, 0)];
          [("buy"%string, 1); ("addToCart"%string, 0); ("details"%string, 1)] ]
        (Some 1%nat)).
Proof. vm_compute. reflexivity. Qed.

(** ** The counts *)

Lemma index_counts log : index (counts log) = group_keys (map action_key log).
Proof. unfold index, counts. rewrite map_map. simpl. apply map_id. Qed.

Lemma series_get_counts log k :
  In k (index (counts log)) -> series_get (counts log) k = Some (count_of log k).
Proof.
  unfold index, counts. rewrite map_map. simpl. rewrite map_id.
  induction (group_keys (map action_key log)) as [|k' ks IH]; simpl; [tauto|].
  destruct (key_eqb k k') eqn:E.
  - apply key_eqb_true in E. subst. reflexivity.
  - intros [-> | Hin]; [rewrite key_eqb_refl in E; discriminate | auto].
Qed.

Lemma action_key_eqb x m u a :
  key_eqb (action_key x) (m, (u, a)) =
  bool_decide (Act.MovieId x = m /\ Act.UserId x = u /\ Act.Action x = a).
Proof.
  destruct (key_eqb (action_key x) (m, (u, a))) eqn:E; symmetry.
  - apply key_eqb_true in E. unfold action_key in E.
    apply bool_decide_eq_true. split; [|split]; congruence.
  - apply bool_decide_eq_false. intros (E1 & E2 & E3).
    assert (key_eqb (action_key x) (m, (u, a)) = true)
      by (apply key_eqb_true; unfold action_key; congruence).
    congruence.
Qed.

Lemma count_of_action_count log m u a : count_of log (m, (u, a)) = action_count log m u a.
Proof.
  unfold count_of, action_count. do 2 f_equal.
  apply filter_ext. intros x. apply action_key_eqb.
Qed.

Lemma action_count_absent log m u a :
  ~ In (m, (u, a)) (map action_key log) -> action_count log m u a = 0.
Proof.
  intros Hn. unfold action_count.
  destruct (List.filter _ log) as [|x xs] eqn:E; [reflexivity|].
  exfalso. apply Hn.
  assert (Hx : In x (List.filter
            (fun x => bool_decide (Act.MovieId x = m /\ Act.UserId x = u /\
                                   Act.Action x = a)) log))
    by (rewrite E; left; reflexivity).
  apply filter_In in Hx. destruct Hx as [Hx Hd].
  apply bool_decide_eq_true in Hd. destruct Hd as (<- & <- & <-).
  apply in_map_iff. exists x. split; [reflexivity | exact Hx].
Qed.

Lemma counters_of_final log P m u :
  (forall k, In k P <-> In k (map action_key log)) ->
  counters_of (count_of log) P m u = final_counters log m u.
Proof.
  intros HP. unfold counters_of, final_counters.
  assert (Ht : forall a, tally (count_of log) P m u a = action_count log m u a).
  { intros a. unfold tally.
    destruct (existsb (key_eqb (m, (u, a))) P) eqn:E.
    - apply count_of_action_count.
    - symmetry. apply action_count_absent. rewrite <- HP, <- existsb_key_In.
      congruence. }
  rewrite !Ht. reflexivity.
Qed.

(** The aggregation loop succeeds on a log of known actions; afterwards
    [agg_data] has an entry exactly for the pairs with an action, and the
    object of a pair holds the pair's three action counts. *)
Lemma agg_loop_ok log :
  Forall (fun x => known_action (Act.Action x)) log ->
  exists s,
    agg_loop (counts log) = Ok s /\
    agg_wf (agg_data s) /\
    (forall m u, entry_ref (agg_data s) m u <> None <-> has_action log m u) /\
    (forall m u r, entry_ref (agg_data s) m u = Some r ->
                   store s !! r = Some (final_counters log m u)).
Proof.
  intros Hknown. unfold agg_loop.
  destruct (agg_loop_steps (counts log) (count_of log) (index (counts log))
              [] None (mk_agg_state [] [] None)) as (s & prev & Hrun & Hinv).
  - apply agg_inv_init.
  - intros p k [].
  - rewrite index_counts. apply group_keys_sorted.
  - intros k Hk. split; [|apply series_get_counts; exact Hk].
    rewrite index_counts, group_keys_In, in_map_iff in Hk.
    destruct Hk as (x & <- & Hx). simpl.
    rewrite List.Forall_forall in Hknown. auto.
  - assert (HP : forall k, In k (rev (index (counts log)) ++ []) <->
                           In k (map action_key log)).
    { intros k. rewrite app_nil_r, <- in_rev, index_counts. apply group_keys_In. }
    exists s. split; [exact Hrun|]. split; [exact (inv_wf _ _ _ _ Hinv)|]. split.
    + intros m u. rewrite (inv_dom _ _ _ _ Hinv). unfold has_action. split.
      * intros (a & Ha). apply HP, in_map_iff in Ha.
        destruct Ha as (x & [= <- <- <-] & Hx). eauto.
      * intros (x & Hx & <- & <-). exists (Act.Action x). apply HP.
        apply in_map_iff. exists x. split; [reflexivity | exact Hx].
    + intros m u r Hr. rewrite (inv_val _ _ _ _ Hinv _ _ _ Hr).
      f_equal. apply counters_of_final. exact HP.
Qed.

(** ** The rating loop *)

Lemma raw_rating_ok s m u r b a d :
  entry_ref (agg_data s) m u = Some r ->
  store s !! r =
    @Some (dict string Z)
      [("buy"%string, b); ("addToCart"%string, a); ("details"%string, d)] ->
  raw_rating s m u = Ok (b * 100 + a * 50 + d * 15).
Proof.
  unfold entry_ref, raw_rating. intros Hr Hs.
  destruct (dict_get m (agg_data s)) as [md|] eqn:Em; [|discriminate].
  simpl. rewrite !Hr. cbn [bind expect]. rewrite !Hs. reflexivity.
Qed.

Lemma max_update a b : (if a <? b then b else a) = Z.max a b.
Proof. destruct (Z.ltb_spec a b); lia. Qed.

Lemma rating_users_loop s m f us :
  forall st,
    (forall u, In u us -> raw_rating s m u = Ok (f u)) ->
    for_each us (rating_body s m) st =
    Ok (mk_rating_state (raw_ratings st ++ map (fun u => (m, u, f u)) us)
          (fold_left Z.max (map f us) (max_rating st))).
Proof.
  induction us as [|u us IH]; intros st Hraw; simpl.
  - rewrite app_nil_r. destruct st; reflexivity.
  - unfold rating_body at 1. rewrite (Hraw u) by (left; reflexivity). simpl.
    rewrite IH by (intros; apply Hraw; right; assumption). simpl.
    rewrite max_update, <- app_assoc. reflexivity.
Qed.

Lemma rating_movies_loop s f ms :
  forall st,
    (forall m md u, In m ms -> dict_get m (agg_data s) = Some md ->
                    In u (dict_keys md) -> raw_rating s m u = Ok (f m u)) ->
    (forall m, In m ms -> dict_get m (agg_data s) <> None) ->
    for_each ms (fun st movie_key =>
        let* movie_agg_data := expect KeyError (dict_get movie_key (agg_data s)) in
        for_each (dict_keys movie_agg_data) (rating_body s movie_key) st) st =
    Ok (mk_rating_state (raw_ratings st ++ rating_rows (agg_data s) f ms)
          (fold_left Z.max (map snd (rating_rows (agg_data s) f ms)) (max_rating st))).
Proof.
  induction ms as [|m ms IH]; intros st Hraw Hin; simpl.
  - rewrite app_nil_r. destruct st; reflexivity.
  - destruct (dict_get m (agg_data s)) as [md|] eqn:Em;
      [|exfalso; apply (Hin m); [left; reflexivity | exact Em]].
    simpl. rewrite (rating_users_loop s m (f m)).
    2:{ intros u Hu. apply (Hraw m md u); auto. left; reflexivity. }
    simpl. rewrite IH.
    2:{ intros m' md' u Hm'. apply Hraw. right. exact Hm'. }
    2:{ intros m' Hm'. apply Hin. right. exact Hm'. }
    simpl. rewrite <- app_assoc, map_app, fold_left_app, !map_map. reflexivity.
Qed.

Lemma rating_rows_In agg f ms m u x :
  In (m, u, x) (rating_rows agg f ms) <->
  In m ms /\ entry_ref agg m u <> None /\ x = f m u.
Proof.
  unfold rating_rows, entry_ref. rewrite in_flat_map. split.
  - intros (m' & Hm' & Hin).
    destruct (dict_get m' agg) as [md|] eqn:Em; [|contradiction].
    apply in_map_iff in Hin. destruct Hin as (u' & [= <- <- <-] & Hu').
    rewrite Em. split; [exact Hm'|]. split; [|reflexivity].
    apply dict_get_keys. exact Hu'.
  - intros (Hm & Hu & ->). exists m. split; [exact Hm|].
    destruct (dict_get m agg) as [md|]; [|congruence].
    apply in_map_iff. exists u. split; [reflexivity|].
    apply dict_get_keys. exact Hu.
Qed.

Lemma rating_rows_NoDup agg f ms :
  List.NoDup ms ->
  (forall m md, dict_get m agg = Some md -> List.NoDup (dict_keys md)) ->
  List.NoDup (map fst (rating_rows agg f ms)).
Proof.
  intros Hms Hmd. induction Hms as [|m ms Hm Hms IH]; simpl; [constructor|].
  rewrite map_app. apply List.NoDup_app; [| exact IH |].
  - destruct (dict_get m agg) as [md|] eqn:Em; [|constructor].
    rewrite map_map. simpl.
    apply (NoDup_map_weaken (fun u : Z => u) (fun u => (m, u))).
    + intros x y _ _ [= ->]. reflexivity.
    + rewrite map_id. eapply Hmd. exact Em.
  - intros [m' u'] H1 H2.
    apply in_map_iff in H1. destruct H1 as ([[m1 u1] x1] & [= -> ->] & H1).
    apply in_map_iff in H2. destruct H2 as ([[m2 u2] x2] & [= -> ->] & H2).
    apply rating_rows_In in H2. destruct H2 as (H2 & _).
    destruct (dict_get m agg) as [md|]; [|contradiction].
    apply in_map_iff in H1. destruct H1 as (u & [= <- <- <-] & _).
    contradiction.
Qed.

Lemma fold_max_bounds l :
  forall a,
    a <= fold_left Z.max l a /\
    (forall x, In x l -> x <= fold_left Z.max l a) /\
    (fold_left Z.max l a = a \/ In (fold_left Z.max l a) l).
Proof.
  induction l as [|y ys IH]; intros a; simpl.
  - split; [lia|]. split; [tauto | left; reflexivity].
  - destruct (IH (Z.max a y)) as (H1 & H2 & H3). split; [lia|]. split.
    + intros x [<- | Hx]; [lia | auto].
    + destruct H3 as [E | Hin]; [|right; right; exact Hin].
      rewrite E. destruct (Z.max_spec a y) as [[_ ->] | [_ ->]]; auto.
Qed.

(** ** The ratings table *)

Lemma action_count_nonneg log m u a : 0 <= action_count log m u a.
Proof. unfold action_count. lia. Qed.

Lemma action_count_pos log x :
  In x log -> 1 <= action_count log (Act.MovieId x) (Act.UserId x) (Act.Action x).
Proof.
  intros Hx. unfold action_count.
  assert (Hin : In x (List.filter
            (fun y => bool_decide (Act.MovieId y = Act.MovieId x /\
                                   Act.UserId y = Act.UserId x /\
                                   Act.Action y = Act.Action x)) log)).
  { apply filter_In. split; [exact Hx|]. apply bool_decide_eq_true. auto. }
  destruct (List.filter _ log); [contradiction | simpl; lia].
Qed.

Lemma weighted_score_pos log m u :
  Forall (fun x => known_action (Act.Action x)) log ->
  has_action log m u -> 15 <= weighted_score log m u.
Proof.
  intros Hknown (x & Hx & <- & <-).
  rewrite List.Forall_forall in Hknown. pose proof (Hknown x Hx) as Hk.
  pose proof (action_count_pos log x Hx) as Hpos.
  pose proof (action_count_nonneg log (Act.MovieId x) (Act.UserId x) "buy").
  pose proof (action_count_nonneg log (Act.MovieId x) (Act.UserId x) "addToCart").
  pose proof (action_count_nonneg log (Act.MovieId x) (Act.UserId x) "details").
  unfold weighted_score. destruct Hk as [E | [E | E]]; rewrite E in Hpos; lia.
Qed.

(** The notebook succeeds on a log of known actions.  Its raw ratings are
    one row per pair with an action, holding the weighted score of the
    pair, and [max_rating] ends as the largest of them (0 if there is
    none). *)
Lemma ratings_ok log :
  Forall (fun x => known_action (Act.Action x)) log ->
  exists (rows : list (Z * Z * Z)) (mx : Z),
    ratings log = Ok (ratings_frame (mk_rating_state rows mx)) /\
    List.NoDup (map fst rows) /\
    (forall m u x, In (m, u, x) rows <->
                   has_action log m u /\ x = weighted_score log m u) /\
    0 <= mx /\
    (forall x, In x (map snd rows) -> x <= mx) /\
    (mx = 0 \/ In mx (map snd rows)).
Proof.
  intros Hknown.
  destruct (agg_loop_ok log Hknown) as (s & Hrun & [Hk Hmd] & Hdom & Hval).
  set (rows := rating_rows (agg_data s) (weighted_score log) (dict_keys (agg_data s))).
  exists rows, (fold_left Z.max (map snd rows) 0).
  split; [|split; [|split; [|split; [|split]]]].
  - unfold ratings. rewrite Hrun. simpl. unfold rating_loop.
    rewrite (rating_movies_loop s (weighted_score log)).
    + reflexivity.
    + intros m md u _ Em Hu.
      assert (Hr : entry_ref (agg_data s) m u <> None).
      { unfold entry_ref. rewrite Em. apply dict_get_keys. exact Hu. }
      destruct (entry_ref (agg_data s) m u) as [r|] eqn:Er; [|congruence].
      apply (raw_rating_ok s m u r _ _ _ Er). apply Hval. exact Er.
    + intros m Hm. apply dict_get_keys. exact Hm.
  - apply rating_rows_NoDup; assumption.
  - intros m u x. unfold rows. rewrite rating_rows_In, Hdom. split.
    + tauto.
    + intros [Ha ->]. split; [|auto].
      apply Hdom in Ha. unfold entry_ref in Ha.
      apply dict_get_keys. destruct (dict_get m (agg_data s)); congruence.
  - exact (proj1 (fold_max_bounds (map snd rows) 0)).
  - exact (proj1 (proj2 (fold_max_bounds (map snd rows) 0))).
  - exact (proj2 (proj2 (fold_max_bounds (map snd rows) 0))).
Qed.



Lemma np_div_pos x mx : 0 < mx -> np_div x mx = Fin (x / inject_Z mx)%Q.
Proof.
  intros Hmx. unfold np_div. destruct (Z.eqb_spec mx 0); [lia | reflexivity].
Qed.

Lemma ratings_frame_In rows mx r :
  In r (ratings_frame (mk_rating_state rows mx)) <->
  exists m u x, In (m, u, x) rows /\
    r = Rating.mk m u x (np_div (10 * inject_Z x)%Q mx).
Proof.
  unfold ratings_frame. simpl. rewrite in_map_iff. split.
  - intros ([[m u] x] & <- & Hin). exists m, u, x. auto.
  - intros (m & u & x & Hin & ->). exists (m, u, x). auto.
Qed.

Lemma ratings_frame_keys rows mx :
  map rating_key (ratings_frame (mk_rating_state rows mx)) = map fst rows.
Proof.
  unfold ratings_frame. simpl. rewrite map_map. apply map_ext.
  intros [[m u] x]. reflexivity.
Qed.

Lemma action_count_has_action log m u a :
  0 < action_count log m u a -> has_action log m u.
Proof.
  unfold action_count, has_action. intros Hpos.
  destruct (List.filter _ log) as [|x xs] eqn:E; [simpl in Hpos; lia|].
  assert (Hx : In x (List.filter
            (fun x => bool_decide (Act.MovieId x = m /\ Act.UserId x = u /\
                                   Act.Action x = a)) log))
    by (rewrite E; left; reflexivity).
  apply filter_In in Hx. destruct Hx as [Hx Hd].
  apply bool_decide_eq_true in Hd. destruct Hd as (Hm & Hu & _). eauto.
Qed.


Lemma example_log_known : Forall (fun x => known_action (Act.Action x)) example_log.
Proof.
  unfold example_log.
  repeat (apply List.Forall_cons; [unfold known_action; simpl; auto|]).
  apply List.Forall_nil.
Qed.


(** The example of the rating scheme, evaluated: two details actions and
    one addToCart action of the pair (1, 1) give the raw rating 80, which
    is the largest of the log, and the rating 10. *)
Example example_log_ratings :
  ratings example_log =
  Ok [ Rating.mk 1 1 80 (Fin (800 # 80)); Rating.mk 2 1 15 (Fin (150 # 80)) ].
Proof. vm_compute. reflexivity. Qed.

(** An action outside the weight table stops the aggregation loop: the
    counter dictionary of a pair has no such key. *)
Example unknown_action_raises : ratings [ Act.mk 1 1 "view" ] = Raise KeyError.
Proof. vm_compute. reflexivity. Qed.

(** ** The empty log *)

(** C2, as the code has it.  On the empty action log nothing is raised:
    both loops run zero times, [max_rating] stays 0, and the notebook
    returns the empty ratings table, so that no rating - NaN or other -
    is computed from the zero maximum. *)
Theorem ratings_empty_log :
  ratings [] = Ok [] /\
  exists s st,
    agg_loop (counts []) = Ok s /\ rating_loop s = Ok st /\
    raw_ratings st = [] /\ max_rating st = 0.
Proof.
  split; [reflexivity|].
  exists (mk_agg_state [] [] None), (mk_rating_state [] 0).
  repeat split; reflexivity.
Qed.

(** On the empty log the notebook does not stop with an exception. *)
Lemma ratings_empty_log_not_raised : ~ exists e : exn, ratings [] = Raise e.
Proof. intros [e He]. vm_compute in He. discriminate. Qed.

(** * Float64 arithmetic in the notebooks *)

(** ** Rounding keeps sign and range *)

(** One step of the right shift halves the mantissa, rounding down. *)
Lemma shr_1_nonneg r : 0 <= shr_m r -> 0 <= shr_m (shr_1 r).
Proof. destruct r as [m rb sb]. destruct m as [|[p|p|]|[p|p|]]; simpl; lia. Qed.

Lemma shr_1_half r k : 0 <= k -> 2 * k <= shr_m r -> k <= shr_m (shr_1 r).
Proof. destruct r as [m rb sb]. destruct m as [|[p|p|]|[p|p|]]; simpl; lia. Qed.

(** So does a shift by [p] bits: a mantissa of at least [2^p * k] is left
    with at least [k]. *)
Lemma iter_shr_1_nonneg p : forall r, 0 <= shr_m r -> 0 <= shr_m (SpecFloat.iter_pos shr_1 p r).
Proof.
  induction p as [p IH|p IH|]; intros r Hr; simpl.
  - apply IH, IH, shr_1_nonneg, Hr.
  - apply IH, IH, Hr.
  - apply shr_1_nonneg, Hr.
Qed.

Lemma iter_shr_1_pow p :
  forall r k, 0 <= k -> 2 ^ Zpos p * k <= shr_m r -> k <= shr_m (SpecFloat.iter_pos shr_1 p r).
Proof.
  induction p as [p IH|p IH|]; intros r k Hk Hr; simpl.
  - assert (E : 2 ^ Z.pos p~1 = 2 * (2 ^ Zpos p * 2 ^ Zpos p)).
    { replace (Z.pos p~1) with (Zpos p + Zpos p + 1) by lia.
      rewrite !Z.pow_add_r by lia. change (2 ^ 1) with 2. lia. }
    assert (Hp : 0 < 2 ^ Zpos p) by (apply Z.pow_pos_nonneg; lia).
    apply IH; [exact Hk|]. apply IH; [nia|].
    apply shr_1_half; [nia|]. rewrite E in Hr. nia.
  - assert (E : 2 ^ Z.pos p~0 = 2 ^ Zpos p * 2 ^ Zpos p).
    { replace (Z.pos p~0) with (Zpos p + Zpos p) by lia.
      rewrite !Z.pow_add_r by lia. reflexivity. }
    assert (Hp : 0 < 2 ^ Zpos p) by (apply Z.pow_pos_nonneg; lia).
    apply IH; [exact Hk|]. apply IH; [nia|]. rewrite E in Hr. nia.
  - apply shr_1_half; [exact Hk|]. change (2 ^ 1) with 2 in Hr. lia.
Qed.

(** A mantissa of [d] binary digits is at least [2^(d-1)]. *)
Lemma digits2_pos_lower m : 2 ^ (Zpos (digits2_pos m) - 1) <= Zpos m.
Proof.
  induction m as [m IH|m IH|]; simpl digits2_pos.
  - rewrite Pos2Z.inj_succ. replace (Z.succ (Zpos (digits2_pos m)) - 1) with (Z.succ (Zpos (digits2_pos m) - 1)) by lia.
    rewrite Z.pow_succ_r by lia. lia.
  - rewrite Pos2Z.inj_succ. replace (Z.succ (Zpos (digits2_pos m)) - 1) with (Z.succ (Zpos (digits2_pos m) - 1)) by lia.
    rewrite Z.pow_succ_r by lia. lia.
  - simpl. lia.
Qed.

Lemma shr_record_of_loc_m m l : shr_m (shr_record_of_loc m l) = m.
Proof. destruct l as [|[| |]]; reflexivity. Qed.

(** Rounding never yields an exponent below that of the smallest
    subnormal, nor a negative mantissa. *)
Lemma shr_fexp_nonneg m e l :
  0 <= m ->
  0 <= shr_m (fst (shr_fexp 53 1024 m e l)) /\ -1074 <= snd (shr_fexp 53 1024 m e l).
Proof.
  intros Hm. unfold shr_fexp, shr, fexp, emin.
  destruct (Z.max (Zdigits2 m + e - 53) (3 - 1024 - 53) - e) as [|p|p] eqn:En; simpl;
    rewrite ?shr_record_of_loc_m; try (split; lia).
  split; [|lia]. apply iter_shr_1_nonneg. rewrite shr_record_of_loc_m. exact Hm.
Qed.

(** A non-zero mantissa at an exponent in range is not rounded to zero. *)
Lemma shr_fexp_pos m e l :
  1 <= m -> -1074 <= e ->
  1 <= shr_m (fst (shr_fexp 53 1024 m e l)) /\ -1074 <= snd (shr_fexp 53 1024 m e l).
Proof.
  intros Hm He. unfold shr_fexp, shr, fexp, emin.
  destruct (Z.max (Zdigits2 m + e - 53) (3 - 1024 - 53) - e) as [|p|p] eqn:En; simpl;
    rewrite ?shr_record_of_loc_m; try (split; lia).
  split; [|lia]. apply iter_shr_1_pow; [lia|]. rewrite shr_record_of_loc_m.
  destruct m as [|mp|mp]; try lia. simpl in En.
  pose proof (digits2_pos_lower mp) as Hd.
  assert (Ep : Zpos p = Zpos (digits2_pos mp) - 53) by lia.
  rewrite Ep, Z.mul_1_r.
  apply Z.le_trans with (2 ^ (Zpos (digits2_pos mp) - 1)); [|exact Hd].
  apply Z.pow_le_mono_r; lia.
Qed.

(** Rounding to nearest even never goes below the truncated mantissa. *)
Lemma round_nearest_even_ge m l : m <= round_nearest_even m l.
Proof. destruct l as [|[| |]]; simpl; try lia. destruct (Z.even m); lia. Qed.

(** The rounding of a non-negative mantissa at any exponent is +0.0, a
    positive number or +infinity: this is all a product can be. *)
Lemma binary_round_aux_wf m e l :
  0 <= m -> b64_wf (binary_round_aux 53 1024 false m e l).
Proof.
  intros Hm. unfold binary_round_aux.
  pose proof (shr_fexp_nonneg m e l Hm) as [H1 H1'].
  destruct (shr_fexp 53 1024 m e l) as [r1 e1]. simpl in H1, H1'.
  pose proof (round_nearest_even_ge (shr_m r1) (loc_of_shr_record r1)) as Hr.
  pose proof (shr_fexp_nonneg (round_nearest_even (shr_m r1) (loc_of_shr_record r1)) e1 loc_Exact
                ltac:(lia)) as [H2 H2'].
  destruct (shr_fexp 53 1024 _ e1 loc_Exact) as [r2 e2]. simpl in H2, H2'.
  destruct (shr_m r2) as [|p|p]; simpl; try lia; auto.
  destruct (e2 <=? 1024 - 53); simpl; auto.
Qed.

(** At an exponent in range a non-zero mantissa is not rounded to zero:
    a sum of two positive numbers does not underflow. *)
Lemma binary_round_aux_positive m e l :
  1 <= m -> -1074 <= e -> b64_positive (binary_round_aux 53 1024 false m e l).
Proof.
  intros Hm He. unfold binary_round_aux.
  pose proof (shr_fexp_pos m e l Hm He) as [H1 H1'].
  destruct (shr_fexp 53 1024 m e l) as [r1 e1]. simpl in H1, H1'.
  pose proof (round_nearest_even_ge (shr_m r1) (loc_of_shr_record r1)) as Hr.
  pose proof (shr_fexp_pos (round_nearest_even (shr_m r1) (loc_of_shr_record r1)) e1 loc_Exact
                ltac:(lia) H1') as [H2 H2'].
  destruct (shr_fexp 53 1024 _ e1 loc_Exact) as [r2 e2]. simpl in H2, H2'.
  destruct (shr_m r2) as [|p|p]; simpl; try lia.
  destruct (e2 <=? 1024 - 53); simpl; auto.
Qed.

Lemma b64_positive_wf x : b64_positive x -> b64_wf x.
Proof. destruct x as [[]|[]| |[] m e]; simpl; tauto. Qed.

Lemma b64_wf_cases x : b64_wf x -> x = b64_zero \/ b64_positive x.
Proof. destruct x as [[]|[]| |[] m e]; simpl; intros H; try tauto; try discriminate; try (destruct H; discriminate); auto. Qed.

Lemma binary_round_positive m e :
  -1074 <= e -> b64_positive (binary_round 53 1024 false m e).
Proof.
  intros He. unfold binary_round, shl_align, fexp, emin.
  destruct (Z.max (Z.pos (digits2_pos m) + e - 53) (3 - 1024 - 53) - e) as [|p|p] eqn:En;
    apply binary_round_aux_positive; lia.
Qed.

(** The product of two positive numbers is not negative and not NaN; it
    can be +0.0. *)
Lemma b64_mul_wf sx mx ex sy my ey :
  sx = false -> sy = false ->
  b64_wf (b64_mul (S754_finite sx mx ex) (S754_finite sy my ey)).
Proof. intros -> ->. simpl. apply binary_round_aux_wf. lia. Qed.

(** The sum of two positive numbers is positive. *)
Lemma b64_add_finite mx ex my ey :
  -1074 <= ex -> -1074 <= ey ->
  b64_positive (b64_add (S754_finite false mx ex) (S754_finite false my ey)).
Proof.
  intros Hx Hy. unfold b64_add, SFadd, binary_normalize, cond_Zopp.
  rewrite <- Pos2Z.inj_add. apply binary_round_positive. lia.
Qed.

Lemma b64_add_wf x y : b64_wf x -> b64_wf y -> b64_wf (b64_add x y).
Proof.
  destruct x as [[]|[]| |[] mx ex]; destruct y as [[]|[]| |[] my ey];
    cbn [b64_wf]; try tauto; try (intros; discriminate);
    try (intros [? ?]; discriminate); try (intros ? [? ?]; discriminate);
    try (intros; exact eq_refl); try (intros; split; [reflexivity | tauto]).
  intros [_ Hx] [_ Hy]. apply b64_positive_wf, b64_add_finite; assumption.
Qed.

Lemma b64_add_positive_l x y : b64_positive x -> b64_wf y -> b64_positive (b64_add x y).
Proof.
  destruct x as [[]|[]| |[] mx ex]; destruct y as [[]|[]| |[] my ey];
    cbn [b64_wf b64_positive]; try tauto; try (intros; discriminate);
    try (intros ? [? ?]; discriminate); try (intros; exact I); try (intros; assumption).
  intros Hx [_ Hy]. apply b64_add_finite; assumption.
Qed.

Lemma b64_add_positive_r x y : b64_wf x -> b64_positive y -> b64_positive (b64_add x y).
Proof.
  destruct x as [[]|[]| |[] mx ex]; destruct y as [[]|[]| |[] my ey];
    cbn [b64_wf b64_positive]; try tauto; try (intros; discriminate);
    try (intros [? ?]; discriminate); try (intros; exact I); try (intros; assumption).
  intros [_ Hx] Hy. apply b64_add_finite; assumption.
Qed.

(** What Python's comparisons with 0.0 say. *)
Lemma b64_wf_leb x : b64_wf x -> b64_leb b64_zero x = true.
Proof. destruct x as [[]|[]| |[] m e]; simpl; intros H; try tauto; try discriminate; try (destruct H; discriminate); reflexivity. Qed.

Lemma b64_wf_ltb x : b64_wf x -> (b64_ltb b64_zero x = true <-> b64_positive x).
Proof.
  destruct x as [[]|[]| |[] m e]; simpl; intros H; try tauto; try discriminate;
    try (destruct H; discriminate); unfold b64_ltb, SFltb; simpl; split; auto; try discriminate; tauto.
Qed.

(** A float64 above 0 and below a bound is a positive finite number:
    not NaN, not an infinity. *)
Lemma b64_between_finite q hi :
  b64_ltb b64_zero q = true -> b64_ltb q (b64_of_Z hi) = true ->
  exists m e, q = S754_finite false m e.
Proof.
  unfold b64_ltb, SFltb.
  destruct q as [[]|[]| |[] m e]; simpl; try discriminate; eauto.
  intros _. destruct (b64_of_Z hi) as [[]|[]| |[] m e]; simpl; discriminate.
Qed.

(** ** Cleaning and group-by on float64 columns *)

Lemma f64_drop_outliers_cleaned d x :
  In x (F64.drop_outliers (F64.drop_returns (F64.date_window d))) ->
  In x d /\ F64.cleaned x.
Proof.
  unfold F64.drop_outliers, F64.price_cap, F64.quantity_cap, F64.drop_returns,
    F64.date_window, F64.cleaned.
  rewrite !filter_In. tauto.
Qed.

Lemma f64_drop_missing_CustomerID_iff raw x :
  In x (F64.drop_missing_CustomerID raw) <->
  exists y, In y raw /\ F64.Raw.CustomerID y = Some (F64.Txn.CustomerID x) /\
            x = F64.Txn.mk (F64.Raw.InvoiceNo y) (F64.Raw.Quantity y)
                  (F64.Raw.InvoiceDate y) (F64.Raw.UnitPrice y) (F64.Txn.CustomerID x).
Proof.
  unfold F64.drop_missing_CustomerID. rewrite in_flat_map. split.
  - intros (y & Hy & Hx). exists y. split; [exact Hy|].
    destruct (F64.Raw.CustomerID y); simpl in Hx; [|contradiction].
    destruct Hx as [<-|[]]. simpl. auto.
  - intros (y & Hy & Ec & Ex). exists y. split; [exact Hy|].
    rewrite Ec. left. symmetry. exact Ex.
Qed.

Lemma f64_filtered_In raw x :
  In x (F64.filtered raw) ->
  F64.cleaned x /\
  exists y, In y raw /\ F64.Raw.CustomerID y = Some (F64.Txn.CustomerID x) /\
            x = F64.Txn.mk (F64.Raw.InvoiceNo y) (F64.Raw.Quantity y)
                  (F64.Raw.InvoiceDate y) (F64.Raw.UnitPrice y) (F64.Txn.CustomerID x).
Proof.
  unfold F64.filtered, F64.data. intros Hx.
  apply f64_drop_outliers_cleaned in Hx. destruct Hx as [Hx Hc].
  split; [exact Hc|]. apply f64_drop_missing_CustomerID_iff. exact Hx.
Qed.

Lemma f64_filtered_valid raw x :
  Forall (fun y => valid_Timestamp (F64.Raw.InvoiceDate y)) raw ->
  In x (F64.filtered raw) -> valid_Timestamp (F64.Txn.InvoiceDate x).
Proof.
  intros Hv Hx. apply f64_filtered_In in Hx. destruct Hx as (_ & y & Hy & _ & ->).
  rewrite List.Forall_forall in Hv. simpl. auto.
Qed.

Lemma f64_clean_data_In raw r :
  In r (F64.clean_data raw) <-> exists x, In x (F64.filtered raw) /\ r = F64.with_period x.
Proof.
  unfold F64.clean_data, F64.add_period_columns. rewrite in_map_iff.
  split; intros (x & H1 & H2); exists x; split; auto.
Qed.

Lemma f64_group_rows_txn_group raw c p :
  F64.group_rows (c, (p, p + 1)) (F64.clean_data raw) =
  map F64.with_period (F64.txn_group raw c p).
Proof.
  unfold F64.clean_data, F64.add_period_columns, F64.group_rows, F64.txn_group.
  change (map _ (F64.drop_outliers (F64.drop_returns (F64.data raw))))
    with (map F64.with_period (F64.filtered raw)).
  rewrite filter_map_comm. f_equal. apply filter_ext. intros x.
  apply key_eqb_period.
Qed.

Lemma f64_group_keys_shape raw k :
  In k (group_keys (map F64.group_key (F64.clean_data raw))) ->
  exists x, In x (F64.filtered raw) /\
            k = (F64.Txn.CustomerID x,
                 (get_period (F64.Txn.InvoiceDate x), get_period (F64.Txn.InvoiceDate x) + 1)).
Proof.
  rewrite group_keys_In, in_map_iff. intros (r & <- & Hr).
  apply f64_clean_data_In in Hr. destruct Hr as (x & Hx & ->).
  exists x. split; [exact Hx | reflexivity].
Qed.

Lemma f64_txn_group_In raw c p x :
  In x (F64.txn_group raw c p) <->
  In x (F64.filtered raw) /\ F64.Txn.CustomerID x = c /\
  get_period (F64.Txn.InvoiceDate x) = p.
Proof.
  unfold F64.txn_group. rewrite filter_In, andb_true_iff, !Z.eqb_eq. tauto.
Qed.

Lemma f64_groupby_agg_keys raw :
  map F64.agg_key (F64.groupby_agg (F64.clean_data raw)) =
  group_keys (map F64.group_key (F64.clean_data raw)).
Proof.
  unfold F64.groupby_agg.
  assert (Hne : forall k, In k (group_keys (map F64.group_key (F64.clean_data raw))) ->
                          F64.group_rows k (F64.clean_data raw) <> []).
  { intros k Hk E. apply f64_group_keys_shape in Hk. destruct Hk as (x & Hx & ->).
    rewrite f64_group_rows_txn_group in E.
    assert (Hin : In x (F64.txn_group raw (F64.Txn.CustomerID x)
                          (get_period (F64.Txn.InvoiceDate x))))
      by (apply f64_txn_group_In; auto).
    destruct (F64.txn_group raw _ _); [contradiction | discriminate]. }
  induction (group_keys (map F64.group_key (F64.clean_data raw))) as [|k ks IH];
    simpl; [reflexivity|].
  rewrite map_app, IH by (intros; apply Hne; right; assumption).
  destruct (F64.group_rows k (F64.clean_data raw)) as [|x xs] eqn:E.
  - exfalso. apply (Hne k); [left; reflexivity | exact E].
  - simpl. destruct k as [c [p n]]. reflexivity.
Qed.

(** Every aggregate is the summary of one non-empty transaction group. *)
Lemma f64_rfm_data_In raw r :
  In r (F64.rfm_data raw) ->
  exists c p x g,
    F64.txn_group raw c p = x :: g /\ (p = 1 \/ p = 2) /\
    r = F64.Rfm.mk c p (p + 1)
          (days_between (if p =? 1 then mkdate 2011 5 31 else mkdate 2011 11 30)
             (ts_date (fold_left ts_max (map F64.Txn.InvoiceDate g) (F64.Txn.InvoiceDate x))))
          (F64.nunique (map F64.Txn.InvoiceNo (x :: g)))
          (F64.col_sum (map F64.amount (x :: g))).
Proof.
  unfold F64.rfm_data, F64.rename_select, F64.add_R. rewrite map_map, in_map_iff.
  intros (a & <- & Ha). simpl.
  unfold F64.groupby_agg in Ha. apply in_flat_map in Ha.
  destruct Ha as (k & Hk & Ha).
  apply f64_group_keys_shape in Hk. destruct Hk as (x0 & Hx0 & ->).
  rewrite f64_group_rows_txn_group in Ha.
  set (c := F64.Txn.CustomerID x0) in *.
  set (p := get_period (F64.Txn.InvoiceDate x0)) in *.
  destruct (F64.txn_group raw c p) as [|x g] eqn:Eg; simpl in Ha; [contradiction|].
  destruct Ha as [<-|[]].
  exists c, p, x, g. split; [exact Eg|]. split; [apply get_period_cases|].
  unfold F64.recency, F64.aggregations. simpl. rewrite !map_map. simpl. reflexivity.
Qed.

Lemma f64_rfm_data_keys raw :
  map F64.rfm_key3 (F64.rfm_data raw) =
  group_keys (map F64.group_key (F64.clean_data raw)).
Proof.
  rewrite <- f64_groupby_agg_keys. unfold F64.rfm_data, F64.rename_select, F64.add_R.
  rewrite !map_map. reflexivity.
Qed.

(** ** Aggregates on float64 columns *)

(** The reference date of a period is not before any date of the period
    inside the date window. *)
Lemma last_invoice_recency (t : Timestamp) (p : Z) :
  valid_Timestamp t ->
  ts_ltb t (Timestamp_of_date (mkdate 2011 12 1)) = true ->
  get_period t = p ->
  0 <= days_between (if p =? 1 then mkdate 2011 5 31 else mkdate 2011 11 30) (ts_date t).
Proof.
  intros [Vd Vn] Hwin Hper. unfold days_between.
  destruct (get_period_cases t) as [E | E]; rewrite E in Hper; subst p; simpl.
  - assert (Hb : date_before (ts_date t) (mkdate 2011 6 1)).
    { apply date_ltb_before. unfold get_period in E.
      destruct (date_ltb _ _); [reflexivity | discriminate]. }
    assert (Hlt : toordinal (ts_date t) < toordinal (mkdate 2011 6 1)).
    { apply toordinal_lt; [exact Vd | | exact Hb]. vm_compute. intuition discriminate. }
    change (toordinal (mkdate 2011 6 1)) with 734289 in Hlt.
    change (toordinal (mkdate 2011 5 31)) with 734288. lia.
  - assert (Hb : date_before (ts_date t) (mkdate 2011 12 1)).
    { apply ts_ltb_midnight; [lia | exact Hwin]. }
    assert (Hlt : toordinal (ts_date t) < toordinal (mkdate 2011 12 1)).
    { apply toordinal_lt; [exact Vd | | exact Hb]. vm_compute. intuition discriminate. }
    change (toordinal (mkdate 2011 12 1)) with 734472 in Hlt.
    change (toordinal (mkdate 2011 11 30)) with 734471. lia.
Qed.

Lemma f64_recency_nonneg raw c p x g :
  Forall (fun y => valid_Timestamp (F64.Raw.InvoiceDate y)) raw ->
  F64.txn_group raw c p = x :: g ->
  0 <= days_between (if p =? 1 then mkdate 2011 5 31 else mkdate 2011 11 30)
         (ts_date (fold_left ts_max (map F64.Txn.InvoiceDate g) (F64.Txn.InvoiceDate x))).
Proof.
  intros Hv Eg.
  assert (Hmax : exists y, In y (x :: g) /\
            fold_left ts_max (map F64.Txn.InvoiceDate g) (F64.Txn.InvoiceDate x) =
            F64.Txn.InvoiceDate y).
  { destruct (ts_max_In (map F64.Txn.InvoiceDate g) (F64.Txn.InvoiceDate x)) as [E|Hin].
    - exists x. split; [left; reflexivity | exact E].
    - apply in_map_iff in Hin. destruct Hin as (y & Ey & Hy).
      exists y. split; [right; exact Hy | symmetry; exact Ey]. }
  destruct Hmax as (y & Hy & ->).
  rewrite <- Eg in Hy. apply f64_txn_group_In in Hy. destruct Hy as (Hf & _ & Hper).
  pose proof (f64_filtered_valid raw y Hv Hf) as Hvalid.
  apply f64_filtered_In in Hf. destruct Hf as ((_ & _ & _ & _ & Hwin) & _).
  apply last_invoice_recency; assumption.
Qed.

Lemma f64_nunique_distinct g :
  F64.nunique (map F64.Txn.InvoiceNo g) = F64.distinct_invoices g.
Proof.
  assert (E : omap id (map F64.Txn.InvoiceNo g) = omap F64.Txn.InvoiceNo g).
  { induction g as [|x g IH]; [reflexivity|]. simpl.
    destruct (F64.Txn.InvoiceNo x); simpl; [f_equal|]; exact IH. }
  unfold F64.nunique, F64.distinct_invoices. rewrite E. f_equal.
  rewrite <- (size_list_to_set (C := gset string) (remove_dups (omap F64.Txn.InvoiceNo g)))
    by apply NoDup_remove_dups.
  f_equal. apply set_eq. intros s.
  rewrite !elem_of_list_to_set. apply elem_of_remove_dups.
Qed.

Lemma f64_distinct_invoices_pos g :
  1 <= F64.distinct_invoices g <->
  exists x, In x g /\ F64.Txn.InvoiceNo x <> None.
Proof.
  unfold F64.distinct_invoices. split.
  - intros Hpos.
    destruct (size_pos_elem_of (list_to_set (omap F64.Txn.InvoiceNo g) : gset string))
      as [s Hs]; [lia|].
    apply elem_of_list_to_set, list_elem_of_omap in Hs. destruct Hs as (x & Hx & Ex).
    exists x. split; [apply list_elem_of_In; exact Hx | congruence].
  - intros (x & Hx & Hn).
    destruct (F64.Txn.InvoiceNo x) as [s|] eqn:Ex; [|congruence].
    assert (Hs : s ∈ (list_to_set (omap F64.Txn.InvoiceNo g) : gset string)).
    { apply elem_of_list_to_set, list_elem_of_omap. exists x.
      split; [apply list_elem_of_In; exact Hx | exact Ex]. }
    assert (Hne : size (list_to_set (omap F64.Txn.InvoiceNo g) : gset string) <> 0%nat).
    { intros Hz. apply size_empty_inv in Hz. apply (proj1 (Hz s)) in Hs.
      exact (not_elem_of_empty s Hs). }
    lia.
Qed.

Lemma f64_amount_wf raw x : In x (F64.filtered raw) -> b64_wf (F64.amount x).
Proof.
  intros Hx. apply f64_filtered_In in Hx. destruct Hx as ((Hq & Hp & Hq' & Hp' & _) & _).
  destruct (b64_between_finite _ _ Hq Hq') as (mq & eq & Eq).
  destruct (b64_between_finite _ _ Hp Hp') as (mp & ep & Ep).
  unfold F64.amount. rewrite Eq, Ep. apply b64_mul_wf; reflexivity.
Qed.

(** A running total of such amounts is +0.0, positive or +infinity, and
    it is positive exactly when the start or one of the amounts is. *)
Lemma b64_sum_acc_wf l : forall a,
  b64_wf a -> Forall b64_wf l ->
  b64_wf (fold_left b64_add l a) /\
  (b64_positive (fold_left b64_add l a) <-> b64_positive a \/ Exists b64_positive l).
Proof.
  induction l as [|x l IH]; intros a Ha Hl; simpl.
  - split; [exact Ha|]. rewrite Exists_nil. tauto.
  - inversion Hl as [|? ? Hx Hl']; subst.
    destruct (IH (b64_add a x) (b64_add_wf a x Ha Hx) Hl') as [IH1 IH2].
    split; [exact IH1|]. rewrite IH2, Exists_cons.
    assert (Hadd : b64_positive (b64_add a x) <-> b64_positive a \/ b64_positive x).
    { split.
      - intros Hpos.
        destruct (b64_wf_cases a Ha) as [-> | Pa]; [|auto].
        destruct (b64_wf_cases x Hx) as [-> | Px]; [|auto].
        exfalso. exact Hpos.
      - intros [Pa | Px]; [apply b64_add_positive_l | apply b64_add_positive_r]; assumption. }
    tauto.
Qed.

Lemma f64_col_sum_wf l :
  Forall b64_wf l ->
  b64_wf (F64.col_sum l) /\ (b64_positive (F64.col_sum l) <-> Exists b64_positive l).
Proof.
  intros Hl. unfold F64.col_sum.
  destruct (b64_sum_acc_wf l b64_zero eq_refl Hl) as [H1 H2].
  split; [exact H1|]. rewrite H2. simpl. tauto.
Qed.



Lemma f64_group_amounts_wf raw c p :
  Forall b64_wf (map F64.amount (F64.txn_group raw c p)).
Proof.
  apply List.Forall_forall. intros a Ha. apply in_map_iff in Ha.
  destruct Ha as (x & <- & Hx). apply f64_txn_group_In in Hx.
  apply (f64_amount_wf raw). tauto.
Qed.

Lemma f64_group_total_sign raw c p :
  b64_leb b64_zero (F64.total_amount (F64.txn_group raw c p)) = true /\
  b64_isnan (F64.total_amount (F64.txn_group raw c p)) = false /\
  (b64_ltb b64_zero (F64.total_amount (F64.txn_group raw c p)) = true <->
   exists x, In x (F64.txn_group raw c p) /\ b64_ltb b64_zero (F64.amount x) = true).
Proof.
  pose proof (f64_group_amounts_wf raw c p) as Hwf.
  destruct (f64_col_sum_wf _ Hwf) as [Hs Hpos].
  change (F64.col_sum (map F64.amount (F64.txn_group raw c p)))
    with (F64.total_amount (F64.txn_group raw c p)) in Hs, Hpos.
  split; [apply b64_wf_leb; exact Hs|]. split.
  - destruct (F64.total_amount _); simpl in *; tauto.
  - rewrite (b64_wf_ltb _ Hs), Hpos, List.Exists_exists. split.
    + intros (a & Ha & Pa). apply in_map_iff in Ha. destruct Ha as (x & <- & Hx).
      exists x. split; [exact Hx|]. apply b64_wf_ltb; [|exact Pa].
      rewrite List.Forall_forall in Hwf. apply Hwf, in_map, Hx.
    + intros (x & Hx & Px). exists (F64.amount x). split; [apply in_map, Hx|].
      apply b64_wf_ltb; [|exact Px].
      rewrite List.Forall_forall in Hwf. apply Hwf, in_map, Hx.
Qed.

(** Every aggregate, in terms of its group. *)
Lemma f64_rfm_data_row raw r :
  In r (F64.rfm_data raw) ->
  let g := F64.txn_group raw (F64.Rfm.CustomerID r) (F64.Rfm.HalfYear r) in
  g <> [] /\
  (F64.Rfm.HalfYear r = 1 \/ F64.Rfm.HalfYear r = 2) /\
  F64.Rfm.NextHalfYear r = F64.Rfm.HalfYear r + 1 /\
  F64.Rfm.F r = F64.distinct_invoices g /\
  F64.Rfm.M r = F64.total_amount g.
Proof.
  intros Hr. apply f64_rfm_data_In in Hr.
  destruct Hr as (c & p & x & g & Eg & Hp & ->).
  cbn [F64.Rfm.CustomerID F64.Rfm.HalfYear F64.Rfm.NextHalfYear F64.Rfm.F F64.Rfm.M].
  rewrite Eg. split; [discriminate|]. split; [exact Hp|]. split; [reflexivity|].
  split; [apply f64_nunique_distinct | reflexivity].
Qed.

(** C8, as the code has it.  Every row of the aggregator's output
    summarises the non-empty group of filtered transactions of its entity
    and period: its F is the number of distinct invoice ids that occur in
    the group, and its M is the float64 running total of the float64
    products quantity times unit price, taken in the order of the rows,
    every product and every partial sum rounded. *)
Theorem rfm_frequency_monetary (raw : list F64.Raw.row) :
  Forall (fun r =>
            let g := F64.txn_group raw (F64.Rfm.CustomerID r) (F64.Rfm.HalfYear r) in
            g <> [] /\
            F64.Rfm.F r = F64.distinct_invoices g /\
            F64.Rfm.M r = F64.total_amount g)
         (F64.rfm_data raw).
Proof.
  apply List.Forall_forall. intros r Hr.
  destruct (f64_rfm_data_row raw r Hr) as (Hne & _ & _ & HF & HM). auto.
Qed.

(** C8 as stated fails: for one piece at 0.1 and one piece at 0.2 the
    aggregate holds M = 0.30000000000000004 (5404319552844596 * 2^-54),
    which is not the exact sum of the two products. *)
Lemma monetary_sum_rounded :
  ~ Forall (fun r =>
              let g := F64.txn_group F64.dimes_raw (F64.Rfm.CustomerID r) (F64.Rfm.HalfYear r) in
              F64.Rfm.F r = F64.distinct_invoices g /\
              exists t, F64.exact_total g = Some t /\ b64_exactly (F64.Rfm.M r) t)
           (F64.rfm_data F64.dimes_raw).
Proof.
  intros H.
  assert (E : F64.rfm_data F64.dimes_raw =
              [F64.Rfm.mk 17850 1 2 90 2 (S754_finite false 5404319552844596 (-54))])
    by (vm_compute; reflexivity).
  rewrite E in H. inversion H as [|r l [_ (t & Et & Hex)] _]; subst.
  vm_compute in Et. injection Et as <-. vm_compute in Hex. discriminate.
Qed.

(** C3, as the code has it.  When the timestamps of the loaded file are
    well-formed, every row the aggregator emits has a recency of at least
    0 days; a frequency of at least 0, and of at least 1 exactly when some
    transaction of its group carries an invoice number; and a monetary
    value that is a float64 not below 0.0 (so not NaN), and above 0.0
    exactly when the product quantity times unit price of some
    transaction of its group is above 0.0, that is, has not underflowed. *)
Theorem rfm_row_bounds (raw : list F64.Raw.row) :
  Forall (fun y => valid_Timestamp (F64.Raw.InvoiceDate y)) raw ->
  Forall (fun r =>
            let g := F64.txn_group raw (F64.Rfm.CustomerID r) (F64.Rfm.HalfYear r) in
            0 <= F64.Rfm.R r /\
            0 <= F64.Rfm.F r /\
            (1 <= F64.Rfm.F r <-> exists x, In x g /\ F64.Txn.InvoiceNo x <> None) /\
            b64_leb b64_zero (F64.Rfm.M r) = true /\
            (b64_ltb b64_zero (F64.Rfm.M r) = true <->
             exists x, In x g /\ b64_ltb b64_zero (F64.amount x) = true))
         (F64.rfm_data raw).
Proof.
  intros Hv. apply List.Forall_forall. intros r Hr.
  destruct (f64_rfm_data_row raw r Hr) as (_ & _ & _ & HF & HM).
  cbv zeta. rewrite HF, HM.
  destruct (f64_group_total_sign raw (F64.Rfm.CustomerID r) (F64.Rfm.HalfYear r))
    as (Hle & _ & Hlt).
  split; [|split; [|split; [|split]]].
  - apply f64_rfm_data_In in Hr. destruct Hr as (c & p & x & g & Eg & Hp & ->).
    cbn [F64.Rfm.R]. eapply f64_recency_nonneg; eauto.
  - unfold F64.distinct_invoices. lia.
  - apply f64_distinct_invoices_pos.
  - exact Hle.
  - exact Hlt.
Qed.

Lemma rfm_row_bounds_witness :
  Forall (fun y => valid_Timestamp (F64.Raw.InvoiceDate y)) F64.example_raw /\
  Forall (fun r =>
            let g := F64.txn_group F64.example_raw (F64.Rfm.CustomerID r) (F64.Rfm.HalfYear r) in
            0 <= F64.Rfm.R r /\
            0 <= F64.Rfm.F r /\
            (1 <= F64.Rfm.F r <-> exists x, In x g /\ F64.Txn.InvoiceNo x <> None) /\
            b64_leb b64_zero (F64.Rfm.M r) = true /\
            (b64_ltb b64_zero (F64.Rfm.M r) = true <->
             exists x, In x g /\ b64_ltb b64_zero (F64.amount x) = true))
         (F64.rfm_data F64.example_raw).
Proof.
  assert (Hv : Forall (fun y => valid_Timestamp (F64.Raw.InvoiceDate y)) F64.example_raw).
  { repeat constructor; vm_compute; (reflexivity || discriminate). }
  split; [exact Hv | exact (rfm_row_bounds F64.example_raw Hv)].
Defined.

(** C3 as stated fails: both transactions of [F64.degenerate_raw] pass
    every cleaning cell, and the aggregator emits a row with F = 0 (no
    invoice number in the group) and a row with M = 0.0 (the product
    2^-600 * 2^-600 underflows). *)
Lemma rfm_row_bounds_degenerate :
  length (F64.clean_data F64.degenerate_raw) = length F64.degenerate_raw /\
  F64.rfm_data F64.degenerate_raw =
    [ F64.Rfm.mk 13047 1 2 90 1 (S754_zero false);
      F64.Rfm.mk 17850 1 2 91 0 (b64_of_Z 10) ] /\
  ~ Forall (fun r => 0 <= F64.Rfm.R r /\ 1 <= F64.Rfm.F r /\
                     b64_ltb b64_zero (F64.Rfm.M r) = true)
           (F64.rfm_data F64.degenerate_raw).
Proof.
  assert (E : F64.rfm_data F64.degenerate_raw =
    [ F64.Rfm.mk 13047 1 2 90 1 (S754_zero false);
      F64.Rfm.mk 17850 1 2 91 0 (b64_of_Z 10) ]) by (vm_compute; reflexivity).
  split; [vm_compute; reflexivity|]. split; [exact E|].
  rewrite E. intros H. inversion H as [|r l (_ & _ & Hm) _]; subst.
  vm_compute in Hm. discriminate.
Qed.

(** ** Label join on float64 columns *)

(** No aggregate has NaN for its M, so the isnan filter drops exactly the
    rows the merge found no partner for. *)
Lemma f64_rfm_data_M_number raw b :
  In b (F64.rfm_data raw) -> b64_isnan (F64.Rfm.M b) = false.
Proof.
  intros Hb. destruct (f64_rfm_data_row raw b Hb) as (_ & _ & _ & _ & ->).
  apply f64_group_total_sign.
Qed.

Lemma f64_dropna_matched a bs :
  Forall (fun b => b64_isnan (F64.Rfm.M b) = false) bs ->
  F64.dropna_M_Next (map F64.select_RFM_MNext (map (fun b => (a, Some b)) bs)) =
  map F64.label (map (fun b => (a, b)) bs).
Proof.
  induction bs as [|b bs IH]; intros Hbs; [reflexivity|].
  inversion Hbs as [|? ? Hb Hbs']; subst.
  unfold F64.dropna_M_Next in *. simpl. rewrite Hb. simpl. f_equal. apply IH, Hbs'.
Qed.

Lemma f64_final_labeled_pairs l r :
  Forall (fun b => b64_isnan (F64.Rfm.M b) = false) r ->
  F64.dropna_M_Next (map F64.select_RFM_MNext (F64.merge_left l r)) =
  map F64.label (F64.labeled_pairs l r).
Proof.
  intros Hr. induction l as [|a l IH]; simpl; [reflexivity|].
  rewrite !map_app. unfold F64.dropna_M_Next in *. rewrite List.filter_app, IH. f_equal.
  assert (Hbs : Forall (fun b => b64_isnan (F64.Rfm.M b) = false)
                  (List.filter (F64.merge_on a) r)).
  { rewrite List.Forall_forall in *. intros b Hb. apply filter_In in Hb. apply Hr, Hb. }
  destruct (List.filter (F64.merge_on a) r) as [|b bs] eqn:E; [reflexivity|].
  apply (f64_dropna_matched a (b :: bs)). exact Hbs.
Qed.

Lemma f64_labeled_pairs_In l r a b :
  In (a, b) (F64.labeled_pairs l r) <-> In a l /\ In b r /\ F64.merge_on a b = true.
Proof.
  unfold F64.labeled_pairs. rewrite in_flat_map. split.
  - intros (a' & Ha' & Hin). apply in_map_iff in Hin.
    destruct Hin as (b' & [= <- <-] & Hb'). apply filter_In in Hb'. tauto.
  - intros (Ha & Hb & Hm). exists a. split; [exact Ha|].
    apply in_map_iff. exists b. split; [reflexivity|]. apply filter_In. tauto.
Qed.

Lemma f64_rfm_data_final_In (raw : list F64.Raw.row) (r : F64.Final.row) :
  In r (F64.rfm_data_final raw) <->
  exists a b,
    In a (F64.rfm_data raw) /\ In b (F64.rfm_data raw) /\
    F64.Rfm.CustomerID a = F64.Rfm.CustomerID b /\
    F64.Rfm.HalfYear a = 1 /\ F64.Rfm.HalfYear b = 2 /\
    r = F64.Final.mk (F64.Rfm.R a) (F64.Rfm.F a) (F64.Rfm.M a) (F64.Rfm.M b).
Proof.
  unfold F64.rfm_data_final, F64.rfm_data_merged.
  rewrite f64_final_labeled_pairs
    by (apply List.Forall_forall; intros b Hb; apply (f64_rfm_data_M_number raw b Hb)).
  rewrite in_map_iff. split.
  - intros ([a b] & <- & Hp). apply f64_labeled_pairs_In in Hp.
    destruct Hp as (Ha & Hb & Hm).
    unfold F64.merge_on in Hm. rewrite andb_true_iff, !Z.eqb_eq in Hm.
    destruct Hm as [Hc Hn].
    destruct (f64_rfm_data_row raw a Ha) as (_ & Hpa & Hna & _).
    destruct (f64_rfm_data_row raw b Hb) as (_ & Hpb & _).
    exists a, b. repeat split; auto; lia.
  - intros (a & b & Ha & Hb & Hc & H1 & H2 & ->). exists (a, b).
    split; [reflexivity|]. apply f64_labeled_pairs_In.
    split; [exact Ha|]. split; [exact Hb|].
    unfold F64.merge_on. rewrite andb_true_iff, !Z.eqb_eq.
    destruct (f64_rfm_data_row raw a Ha) as (_ & _ & Hna & _). split; [exact Hc | lia].
Qed.

Lemma f64_rfm_data_group raw c p :
  F64.txn_group raw c p <> [] ->
  exists r, In r (F64.rfm_data raw) /\ F64.Rfm.CustomerID r = c /\ F64.Rfm.HalfYear r = p.
Proof.
  intros Hne. destruct (F64.txn_group raw c p) as [|x g] eqn:Eg; [congruence|].
  assert (Hx : In x (F64.txn_group raw c p)) by (rewrite Eg; left; reflexivity).
  apply f64_txn_group_In in Hx. destruct Hx as (Hx & <- & <-).
  assert (Hk : In (F64.group_key (F64.with_period x)) (map F64.rfm_key3 (F64.rfm_data raw))).
  { rewrite f64_rfm_data_keys. apply group_keys_In. apply in_map.
    apply f64_clean_data_In. exists x. split; [exact Hx | reflexivity]. }
  apply in_map_iff in Hk. destruct Hk as (r & Er & Hr).
  exists r. split; [exact Hr|].
  unfold F64.rfm_key3, F64.group_key in Er. simpl in Er. split; congruence.
Qed.

(** ** Ratings on float64 columns *)

(** The raw ratings and [max_rating] that the normalisation starts from. *)
Lemma f64_ratings_ok log :
  Forall (fun x => known_action (Act.Action x)) log ->
  exists (rows : list (Z * Z * Z)) (mx : Z),
    F64.ratings log = Ok (F64.ratings_frame (mk_rating_state rows mx)) /\
    List.NoDup (map fst rows) /\
    (forall m u x, In (m, u, x) rows <->
                   has_action log m u /\ x = weighted_score log m u) /\
    0 <= mx /\
    (forall x, In x (map snd rows) -> x <= mx) /\
    (mx = 0 \/ In mx (map snd rows)).
Proof.
  intros Hknown.
  destruct (agg_loop_ok log Hknown) as (s & Hrun & [Hk Hmd] & Hdom & Hval).
  set (rows := rating_rows (agg_data s) (weighted_score log) (dict_keys (agg_data s))).
  exists rows, (fold_left Z.max (map snd rows) 0).
  split; [|split; [|split; [|split; [|split]]]].
  - unfold F64.ratings. rewrite Hrun. simpl. unfold rating_loop.
    rewrite (rating_movies_loop s (weighted_score log)).
    + reflexivity.
    + intros m md u _ Em Hu.
      assert (Hr : entry_ref (agg_data s) m u <> None).
      { unfold entry_ref. rewrite Em. apply dict_get_keys. exact Hu. }
      destruct (entry_ref (agg_data s) m u) as [r|] eqn:Er; [|congruence].
      apply (raw_rating_ok s m u r _ _ _ Er). apply Hval. exact Er.
    + intros m Hm. apply dict_get_keys. exact Hm.
  - apply rating_rows_NoDup; assumption.
  - intros m u x. unfold rows. rewrite rating_rows_In, Hdom. split.
    + tauto.
    + intros [Ha ->]. split; [|auto].
      apply Hdom in Ha. unfold entry_ref in Ha.
      apply dict_get_keys. destruct (dict_get m (agg_data s)); congruence.
  - exact (proj1 (fold_max_bounds (map snd rows) 0)).
  - exact (proj1 (proj2 (fold_max_bounds (map snd rows) 0))).
  - exact (proj2 (proj2 (fold_max_bounds (map snd rows) 0))).
Qed.

Lemma f64_ratings_frame_In rows mx r :
  In r (F64.ratings_frame (mk_rating_state rows mx)) <->
  exists m u x, In (m, u, x) rows /\
    r = F64.Rating.mk m u x
          (b64_div (b64_mul (b64_of_Z 10) (b64_of_Z x)) (b64_of_Z mx)).
Proof.
  unfold F64.ratings_frame. simpl. rewrite in_map_iff. split.
  - intros ([[m u] x] & <- & Hin). exists m, u, x. auto.
  - intros (m & u & x & Hin & ->). exists (m, u, x). auto.
Qed.

(** C6, as the code has it.  On a log of known actions the notebook
    returns a ratings table with a row for every pair that has an action.
    The raw rating of a row is the sum over the action types of the
    pair's count times the weight (buy 100, addToCart 50, details 15); its
    rating is the float64 quotient of the float64 product 10.0 * raw
    rating by [max_rating], the largest raw rating of the table, product
    and quotient rounded.  In particular a pair with two details actions,
    one addToCart action and no buy action has raw rating 80, and its
    rating is exactly 10.0 when 80 is the largest raw rating. *)
Theorem rating_formula (log : list Act.row) :
  Forall (fun x => known_action (Act.Action x)) log ->
  exists (rows : list F64.Rating.row) (mx : Z),
    F64.ratings log = Ok rows /\
    Forall (fun r => F64.Rating.RawRating r <= mx) rows /\
    (rows <> [] -> exists r, In r rows /\ F64.Rating.RawRating r = mx) /\
    (forall m u, has_action log m u -> exists r, In r rows /\ F64.rating_key r = (m, u)) /\
    Forall (fun r =>
              F64.Rating.RawRating r =
                action_count log (F64.Rating.MovieId r) (F64.Rating.UserId r) "buy" * 100 +
                action_count log (F64.Rating.MovieId r) (F64.Rating.UserId r) "addToCart" * 50 +
                action_count log (F64.Rating.MovieId r) (F64.Rating.UserId r) "details" * 15 /\
              F64.Rating.Rating r =
                b64_div (b64_mul (b64_of_Z 10) (b64_of_Z (F64.Rating.RawRating r)))
                        (b64_of_Z mx)) rows /\
    (forall m u,
       action_count log m u "details" = 2 ->
       action_count log m u "addToCart" = 1 ->
       action_count log m u "buy" = 0 ->
       exists r, In r rows /\ F64.rating_key r = (m, u) /\ F64.Rating.RawRating r = 80 /\
                 (mx = 80 -> F64.Rating.Rating r = b64_of_Z 10 /\
                             b64_exactly (F64.Rating.Rating r) 10)).
Proof.
  intros Hknown.
  destruct (f64_ratings_ok log Hknown) as (rows & mx & Hrun & Hnd & Hrows & Hmx0 & Hle & Hmax).
  assert (Hrow : forall m u, has_action log m u ->
            In (F64.Rating.mk m u (weighted_score log m u)
                  (b64_div (b64_mul (b64_of_Z 10) (b64_of_Z (weighted_score log m u)))
                           (b64_of_Z mx)))
               (F64.ratings_frame (mk_rating_state rows mx)) /\
            15 <= weighted_score log m u <= mx).
  { intros m u Ha.
    assert (Hin : In (m, u, weighted_score log m u) rows) by (apply Hrows; auto).
    split; [apply f64_ratings_frame_In; exists m, u, (weighted_score log m u); auto|].
    split; [apply weighted_score_pos; assumption|].
    apply Hle, in_map_iff. exists (m, u, weighted_score log m u). auto. }
  exists (F64.ratings_frame (mk_rating_state rows mx)), mx.
  split; [exact Hrun|]. split; [|split; [|split; [|split]]].
  - apply List.Forall_forall. intros r Hr. apply f64_ratings_frame_In in Hr.
    destruct Hr as (m & u & x & Hin & ->). simpl.
    apply Hle, in_map_iff. exists (m, u, x). auto.
  - intros Hne. destruct Hmax as [-> | Hmax].
    + destruct (F64.ratings_frame (mk_rating_state rows 0)) as [|r rs] eqn:E; [congruence|].
      assert (Hr : In r (F64.ratings_frame (mk_rating_state rows 0)))
        by (rewrite E; left; reflexivity).
      apply f64_ratings_frame_In in Hr. destruct Hr as (m & u & x & Hin & _).
      apply Hrows in Hin. destruct Hin as [Ha _].
      destruct (Hrow m u Ha) as [_ Hb]. lia.
    + apply in_map_iff in Hmax. destruct Hmax as ([[m0 u0] x0] & Ex0 & Hin0).
      simpl in Ex0. subst x0.
      exists (F64.Rating.mk m0 u0 mx
                (b64_div (b64_mul (b64_of_Z 10) (b64_of_Z mx)) (b64_of_Z mx))).
      split; [|reflexivity].
      apply f64_ratings_frame_In. exists m0, u0, mx. auto.
  - intros m u Ha. destruct (Hrow m u Ha) as [Hin _]. eauto.
  - apply List.Forall_forall. intros r Hr. apply f64_ratings_frame_In in Hr.
    destruct Hr as (m & u & x & Hin & ->). simpl.
    apply Hrows in Hin. destruct Hin as [Ha ->].
    split; reflexivity.
  - intros m u Hd Hc Hb.
    assert (Ha : has_action log m u)
      by (apply (action_count_has_action log m u "details"); lia).
    assert (Hw : weighted_score log m u = 80)
      by (unfold weighted_score; rewrite Hd, Hc, Hb; reflexivity).
    destruct (Hrow m u Ha) as [Hin _]. rewrite Hw in Hin.
    eexists. split; [exact Hin|]. split; [reflexivity|]. split; [reflexivity|].
    intros ->. split; vm_compute; reflexivity.
Qed.

Lemma rating_formula_witness :
  Forall (fun x => known_action (Act.Action x)) example_log /\
  exists (rows : list F64.Rating.row) (mx : Z),
    F64.ratings example_log = Ok rows /\
    Forall (fun r => F64.Rating.RawRating r <= mx) rows /\
    (rows <> [] -> exists r, In r rows /\ F64.Rating.RawRating r = mx) /\
    (forall m u, has_action example_log m u ->
                 exists r, In r rows /\ F64.rating_key r = (m, u)) /\
    Forall (fun r =>
              F64.Rating.RawRating r =
                action_count example_log (F64.Rating.MovieId r) (F64.Rating.UserId r) "buy" * 100 +
                action_count example_log (F64.Rating.MovieId r) (F64.Rating.UserId r) "addToCart" * 50 +
                action_count example_log (F64.Rating.MovieId r) (F64.Rating.UserId r) "details" * 15 /\
              F64.Rating.Rating r =
                b64_div (b64_mul (b64_of_Z 10) (b64_of_Z (F64.Rating.RawRating r)))
                        (b64_of_Z mx)) rows /\
    (forall m u,
       action_count example_log m u "details" = 2 ->
       action_count example_log m u "addToCart" = 1 ->
       action_count example_log m u "buy" = 0 ->
       exists r, In r rows /\ F64.rating_key r = (m, u) /\ F64.Rating.RawRating r = 80 /\
                 (mx = 80 -> F64.Rating.Rating r = b64_of_Z 10 /\
                             b64_exactly (F64.Rating.Rating r) 10)).
Proof.
  split; [exact example_log_known|].
  exact (rating_formula example_log example_log_known).
Defined.

(** C6 as stated fails: with the raw ratings 15 and 165 the rating of the
    first pair is the float64 0.9090909090909091
    (8188362958855447 * 2^-53), which is not 10 * 15 / 165. *)
Lemma rating_quotient_rounded :
  exists x y : binary64,
    F64.ratings uneven_log = Ok [ F64.Rating.mk 1 1 15 x; F64.Rating.mk 2 1 165 y ] /\
    ~ b64_exactly x (10 * inject_Z 15 / inject_Z 165).
Proof.
  exists (S754_finite false 8188362958855447 (-53)), (b64_of_Z 10).
  split; [vm_compute; reflexivity|].
  intros H. vm_compute in H. discriminate.
Qed.

(** The float64 pipeline on [F64.example_raw]: the customer with both
    half-years gives the one training row (R = 91, F = 1, M = 10.0,
    M_Next = 20.0). *)
Example f64_example_tables :
  F64.rfm_data_final F64.example_raw =
  [ F64.Final.mk 91 1 (b64_of_Z 10) (b64_of_Z 20) ].
Proof. vm_compute. reflexivity. Qed.

(** * Further properties of the customer-lifetime-value notebook *)

(** ** Cleaning *)

Lemma amount_bound (q p : Q) :
  (0 < q)%Q -> (0 < p)%Q -> (q < 30)%Q -> (p < 30)%Q ->
  (0 < q * p)%Q /\ (q * p < 900)%Q.
Proof.
  intros Hq Hp Hq' Hp'. split; [apply Qmult_lt_0_compat; assumption|].
  apply Qle_lt_trans with (30 * p)%Q.
  - apply Qmult_le_compat_r; [apply Qlt_le_weak; exact Hq' | apply Qlt_le_weak; exact Hp].
  - lra.
Qed.

(** X1.  Every row of [clean_data] stems from a row of the file with a
    customer id, has a quantity and a unit price that compare above 0 and
    below 30 and hence are positive finite float64 numbers, an invoice
    timestamp before 2011-12-01 00:00, an amount that is the rounded
    product of the two, not below 0.0 and not NaN, and a period of 1 or 2
    with the next period one higher. *)
Theorem clean_data_rows (raw : list F64.Raw.row) :
  Forall (fun r =>
            let x := F64.Per.txn r in
            (exists y, In y raw /\ F64.Raw.CustomerID y = Some (F64.Txn.CustomerID x) /\
                       F64.Raw.InvoiceNo y = F64.Txn.InvoiceNo x /\
                       F64.Raw.InvoiceDate y = F64.Txn.InvoiceDate x /\
                       F64.Raw.Quantity y = F64.Txn.Quantity x /\
                       F64.Raw.UnitPrice y = F64.Txn.UnitPrice x) /\
            b64_ltb b64_zero (F64.Txn.Quantity x) = true /\
            b64_ltb (F64.Txn.Quantity x) (b64_of_Z 30) = true /\
            b64_ltb b64_zero (F64.Txn.UnitPrice x) = true /\
            b64_ltb (F64.Txn.UnitPrice x) (b64_of_Z 30) = true /\
            (exists mq eq mp ep,
               F64.Txn.Quantity x = S754_finite false mq eq /\
               F64.Txn.UnitPrice x = S754_finite false mp ep) /\
            ts_ltb (F64.Txn.InvoiceDate x) (Timestamp_of_date (mkdate 2011 12 1)) = true /\
            F64.Per.Amount r = b64_mul (F64.Txn.Quantity x) (F64.Txn.UnitPrice x) /\
            b64_leb b64_zero (F64.Per.Amount r) = true /\
            b64_isnan (F64.Per.Amount r) = false /\
            (F64.Per.HalfYear r = 1 \/ F64.Per.HalfYear r = 2) /\
            F64.Per.NextHalfYear r = F64.Per.HalfYear r + 1)
         (F64.clean_data raw).
Proof.
  apply List.Forall_forall. intros r Hr.
  apply f64_clean_data_In in Hr. destruct Hr as (x & Hx & ->).
  cbn [F64.with_period F64.Per.txn F64.Per.Amount F64.Per.HalfYear F64.Per.NextHalfYear].
  pose proof (f64_amount_wf raw x Hx) as Hwf.
  destruct (f64_filtered_In raw x Hx) as ((Hq & Hp & Hq' & Hp' & Hw) & y & Hy & Ec & Ex).
  destruct (b64_between_finite _ _ Hq Hq') as (mq & eq & Eq).
  destruct (b64_between_finite _ _ Hp Hp') as (mp & ep & Ep).
  split.
  - exists y. rewrite Ex at 2 3 4 5. simpl. repeat split; auto.
  - repeat (split; [assumption|]).
    split; [exists mq, eq, mp, ep; auto|].
    split; [assumption|]. split; [reflexivity|].
    split; [apply b64_wf_leb; exact Hwf|].
    split; [destruct (F64.amount x); simpl in *; tauto|].
    split; [apply get_period_cases | reflexivity].
Qed.

Lemma filtered_one_pass raw :
  filtered raw = drop_missing_CustomerID (List.filter kept raw).
Proof.
  unfold filtered, data, drop_outliers, price_cap, quantity_cap, drop_returns,
    date_window, kept.
  induction raw as [|y raw IH]; [reflexivity|].
  simpl. destruct (Raw.CustomerID y) as [c|] eqn:Ec; simpl.
  - destruct (ts_ltb (Raw.InvoiceDate y) _) eqn:E1; simpl; rewrite ?Ec; simpl;
      [|exact IH].
    destruct (Qltb 0 (Raw.Quantity y)) eqn:E2; simpl; rewrite ?Ec; simpl;
      [|exact IH].
    destruct (Qltb 0 (Raw.UnitPrice y)) eqn:E3; simpl; rewrite ?Ec; simpl;
      [|exact IH].
    destruct (Qltb (Raw.Quantity y) 30) eqn:E4; simpl; rewrite ?Ec; simpl;
      [|exact IH].
    destruct (Qltb (Raw.UnitPrice y) 30) eqn:E5; simpl; rewrite ?Ec; simpl;
      [|exact IH].
    f_equal. exact IH.
  - exact IH.
Qed.

(** X2.  The tables of the notebook depend on the loaded file only
    through the rows that survive the cleaning: two files with the same
    surviving rows, in the same order, give the same [clean_data], the
    same aggregates and the same training table. *)
Theorem kept_rows_determine_tables (raw1 raw2 : list Raw.row) :
  List.filter kept raw1 = List.filter kept raw2 ->
  clean_data raw1 = clean_data raw2 /\
  rfm_data raw1 = rfm_data raw2 /\
  rfm_data_final raw1 = rfm_data_final raw2.
Proof.
  intros E.
  assert (Hc : clean_data raw1 = clean_data raw2).
  { rewrite !clean_data_filtered, !filtered_one_pass, E. reflexivity. }
  assert (Hr : rfm_data raw1 = rfm_data raw2).
  { unfold rfm_data. rewrite Hc. reflexivity. }
  split; [exact Hc|]. split; [exact Hr|].
  unfold rfm_data_final, rfm_data_merged. rewrite Hr. reflexivity.
Qed.

Lemma kept_rows_determine_tables_witness :
  List.filter kept example_raw = List.filter kept (firstn 3 example_raw) /\
  clean_data example_raw = clean_data (firstn 3 example_raw) /\
  rfm_data example_raw = rfm_data (firstn 3 example_raw) /\
  rfm_data_final example_raw = rfm_data_final (firstn 3 example_raw).
Proof.
  assert (E : List.filter kept example_raw = List.filter kept (firstn 3 example_raw))
    by (vm_compute; reflexivity).
  split; [exact E|].
  exact (kept_rows_determine_tables example_raw (firstn 3 example_raw) E).
Defined.

(** ** Aggregates *)

Lemma sorted_map_weaken {A B} (f : A -> B) (R : B -> B -> Prop) (S : A -> A -> Prop)
    (l : list A) :
  (forall a b, In a l -> In b l -> R (f a) (f b) -> S a b) ->
  StronglySorted R (map f l) -> StronglySorted S l.
Proof.
  induction l as [|x xs IH]; simpl; intros HRS Hs; [constructor|].
  inversion Hs as [|? ? Hs' Hall]; subst. constructor.
  - apply IH; auto.
  - rewrite List.Forall_forall in *. intros y Hy.
    apply HRS; auto. apply Hall. apply in_map. exact Hy.
Qed.

Lemma klt_rfm_key3 a b :
  Rfm.NextHalfYear a = Rfm.HalfYear a + 1 ->
  Rfm.NextHalfYear b = Rfm.HalfYear b + 1 ->
  klt (rfm_key3 a) (rfm_key3 b) -> rfm_before a b.
Proof.
  unfold klt, rfm_key3, rfm_before. simpl. unfold lex_cmp. simpl. unfold lex_cmp. simpl.
  intros Ha Hb.
  destruct (Z.compare_spec (Rfm.CustomerID a) (Rfm.CustomerID b)); try discriminate; auto.
  destruct (Z.compare_spec (Rfm.HalfYear a) (Rfm.HalfYear b)); try discriminate; auto.
  rewrite Z.compare_lt_iff. lia.
Qed.

Lemma rfm_data_group_iff raw c p :
  (exists r, In r (rfm_data raw) /\ Rfm.CustomerID r = c /\ Rfm.HalfYear r = p) <->
  (exists x, In x (filtered raw) /\ Txn.CustomerID x = c /\
             get_period (Txn.InvoiceDate x) = p).
Proof.
  split.
  - intros (r & Hr & <- & <-). apply rfm_data_In in Hr.
    destruct Hr as (c & p & x & g & Eg & _ & ->). simpl.
    exists x. apply txn_group_In. rewrite Eg. left. reflexivity.
  - intros (x & Hx & <- & <-).
    assert (Hk : In (group_key (with_period x))
                    (map rfm_key3 (rfm_data raw))).
    { rewrite rfm_data_keys. apply group_keys_In. apply in_map.
      apply clean_data_In. exists x. split; [exact Hx | reflexivity]. }
    apply in_map_iff in Hk. destruct Hk as (r & Er & Hr).
    exists r. split; [exact Hr|].
    rewrite group_key_with_period in Er. unfold rfm_key3 in Er.
    split; congruence.
Qed.

(** X3.  The aggregates come out ordered by customer and then by period,
    and there is an aggregate for a customer and a period exactly when
    some transaction of that customer in that period survives the
    cleaning. *)
Theorem rfm_data_sorted_complete (raw : list Raw.row) :
  StronglySorted rfm_before (rfm_data raw) /\
  (forall c p,
     (exists r, In r (rfm_data raw) /\ Rfm.CustomerID r = c /\ Rfm.HalfYear r = p) <->
     (exists x, In x (filtered raw) /\ Txn.CustomerID x = c /\
                get_period (Txn.InvoiceDate x) = p)).
Proof.
  split.
  - apply (sorted_map_weaken rfm_key3 klt).
    + intros a b Ha Hb Hlt. apply klt_rfm_key3; [| |exact Hlt].
      * apply (rfm_data_periods raw a Ha).
      * apply (rfm_data_periods raw b Hb).
    + rewrite rfm_data_keys. apply group_keys_sorted.
  - apply rfm_data_group_iff.
Qed.

(** ** Recency *)

Lemma date_trichotomy a b : date_before a b \/ a = b \/ date_before b a.
Proof.
  destruct a as [ya ma da], b as [yb mb db]. unfold date_before. simpl.
  destruct (Z.lt_trichotomy ya yb) as [?|[->|?]]; auto;
    destruct (Z.lt_trichotomy ma mb) as [?|[->|?]]; auto 6;
    destruct (Z.lt_trichotomy da db) as [?|[->|?]]; auto 8.
Qed.

Lemma date_before_irrefl a : ~ date_before a a.
Proof. unfold date_before. lia. Qed.

Lemma date_before_trans a b c : date_before a b -> date_before b c -> date_before a c.
Proof. unfold date_before. lia. Qed.

Lemma toordinal_le a b :
  valid_date a -> valid_date b -> ~ date_before b a -> toordinal a <= toordinal b.
Proof.
  intros Va Vb Hn. destruct (date_trichotomy a b) as [H | [-> | H]].
  - apply Z.lt_le_incl. apply toordinal_lt; assumption.
  - lia.
  - contradiction.
Qed.

Lemma toordinal_inj a b :
  valid_date a -> valid_date b -> toordinal a = toordinal b -> a = b.
Proof.
  intros Va Vb E. destruct (date_trichotomy a b) as [H | [-> | H]]; [|reflexivity|].
  - pose proof (toordinal_lt a b Va Vb H). lia.
  - pose proof (toordinal_lt b a Vb Va H). lia.
Qed.

(** X4.  Within a period, [recency] orders the aggregates by the date of
    their last invoice: the later that date, the smaller the recency, and
    two aggregates have the same recency exactly when their last invoices
    fall on the same day. *)
Theorem recency_order (x y : Agg.row) :
  Agg.HalfYear x = Agg.HalfYear y ->
  valid_date (ts_date (Agg.InvoiceDate x)) ->
  valid_date (ts_date (Agg.InvoiceDate y)) ->
  (recency y < recency x <->
   date_before (ts_date (Agg.InvoiceDate x)) (ts_date (Agg.InvoiceDate y))) /\
  (recency x = recency y <->
   ts_date (Agg.InvoiceDate x) = ts_date (Agg.InvoiceDate y)).
Proof.
  intros Eh Vx Vy. unfold recency, days_between. rewrite Eh.
  set (ref_date := if Agg.HalfYear y =? 1 then mkdate 2011 5 31 else mkdate 2011 11 30).
  set (dx := ts_date (Agg.InvoiceDate x)) in *.
  set (dy := ts_date (Agg.InvoiceDate y)) in *.
  split; split.
  - intros Hlt. destruct (date_trichotomy dx dy) as [H | [E | H]]; [exact H | |].
    + rewrite E in Hlt. lia.
    + pose proof (toordinal_lt dy dx Vy Vx H). lia.
  - intros H. pose proof (toordinal_lt dx dy Vx Vy H). lia.
  - intros E. apply toordinal_inj; [assumption | assumption | lia].
  - intros ->. reflexivity.
Qed.

Lemma recency_order_witness :
  let x := Agg.mk 1 1 2 10 (mkTimestamp (mkdate 2011 3 1) 0) 1 in
  let y := Agg.mk 2 1 2 20 (mkTimestamp (mkdate 2011 5 30) 0) 3 in
  Agg.HalfYear x = Agg.HalfYear y /\
  valid_date (ts_date (Agg.InvoiceDate x)) /\
  valid_date (ts_date (Agg.InvoiceDate y)) /\
  (recency y < recency x <->
   date_before (ts_date (Agg.InvoiceDate x)) (ts_date (Agg.InvoiceDate y))) /\
  (recency x = recency y <->
   ts_date (Agg.InvoiceDate x) = ts_date (Agg.InvoiceDate y)).
Proof.
  intros x y.
  assert (Eh : Agg.HalfYear x = Agg.HalfYear y) by reflexivity.
  assert (Vx : valid_date (ts_date (Agg.InvoiceDate x)))
    by (repeat split; vm_compute; (reflexivity || discriminate)).
  assert (Vy : valid_date (ts_date (Agg.InvoiceDate y)))
    by (repeat split; vm_compute; (reflexivity || discriminate)).
  split; [exact Eh|]. split; [exact Vx|]. split; [exact Vy|].
  exact (recency_order x y Eh Vx Vy).
Defined.

Lemma kcmp_refl {K} `{KeyOrder K} (a : K) : kcmp a a = Eq.
Proof. apply kcmp_eq. reflexivity. Qed.

(** "Not below" is transitive in a key order. *)
Lemma not_klt_trans {K} `{KeyOrder K} (a b c : K) :
  ~ klt a b -> ~ klt b c -> ~ klt a c.
Proof.
  unfold klt. intros Hab Hbc Hac.
  destruct (kcmp a b) eqn:Eab; [|congruence|].
  - apply kcmp_eq in Eab. subst. contradiction.
  - destruct (kcmp b c) eqn:Ebc; [|congruence|].
    + apply kcmp_eq in Ebc. subst. congruence.
    + assert (Hcb : kcmp c b = Lt) by (rewrite kcmp_antisym, Ebc; reflexivity).
      assert (Hab' : kcmp a b = Lt) by (exact (kcmp_trans _ _ _ Hac Hcb)).
      congruence.
Qed.

Lemma ts_ltb_klt a b : ts_ltb a b = true <-> klt (ts_key a) (ts_key b).
Proof.
  unfold ts_ltb, klt. destruct (kcmp (ts_key a) (ts_key b)); split; congruence.
Qed.

(** The running maximum is not below its start nor below any element. *)
Lemma ts_max_upper l :
  forall a,
    ~ klt (ts_key (fold_left ts_max l a)) (ts_key a) /\
    forall t, In t l -> ~ klt (ts_key (fold_left ts_max l a)) (ts_key t).
Proof.
  induction l as [|x xs IH]; intros a; simpl.
  - split; [apply klt_irrefl | tauto].
  - destruct (IH (ts_max a x)) as [H1 H2].
    assert (Ha : ~ klt (ts_key (ts_max a x)) (ts_key a)).
    { unfold ts_max. destruct (ts_ltb a x) eqn:E; [|apply klt_irrefl].
      apply ts_ltb_klt in E. intros Hxa.
      exact (klt_irrefl _ (kcmp_trans _ _ _ E Hxa)). }
    assert (Hx : ~ klt (ts_key (ts_max a x)) (ts_key x)).
    { unfold ts_max. destruct (ts_ltb a x) eqn:E; [apply klt_irrefl|].
      intros Hax. apply ts_ltb_klt in Hax. congruence. }
    split; [exact (not_klt_trans _ _ _ H1 Ha)|].
    intros t [<- | Ht]; [exact (not_klt_trans _ _ _ H1 Hx) | auto].
Qed.

Lemma date_before_ts_klt a b :
  date_before (ts_date a) (ts_date b) -> klt (ts_key a) (ts_key b).
Proof.
  intros Hb. apply date_ltb_before in Hb. revert Hb. unfold date_ltb.
  unfold klt, ts_key. simpl. unfold lex_cmp at 2. simpl.
  destruct (lex_cmp (date_key (ts_date a)) (date_key (ts_date b)));
    [discriminate | reflexivity | discriminate].
Qed.

(** X5.  The recency of an aggregate is the number of days from the most
    recent transaction of its group to the reference date of its period
    (2011-05-31 or 2011-11-30): some transaction of the group lies that
    many days before the reference date and none lies fewer.  In period 2
    the recency is at most 182 days. *)
Theorem recency_of_last_invoice (raw : list Raw.row) :
  Forall (fun y => valid_Timestamp (Raw.InvoiceDate y)) raw ->
  Forall (fun r =>
            let g := txn_group raw (Rfm.CustomerID r) (Rfm.HalfYear r) in
            let ref_date :=
              if Rfm.HalfYear r =? 1 then mkdate 2011 5 31 else mkdate 2011 11 30 in
            (exists y, In y g /\
               Rfm.R r = days_between ref_date (ts_date (Txn.InvoiceDate y))) /\
            (forall y, In y g ->
               Rfm.R r <= days_between ref_date (ts_date (Txn.InvoiceDate y))) /\
            (Rfm.HalfYear r = 2 -> Rfm.R r <= 182))
         (rfm_data raw).
Proof.
  intros Hv. apply List.Forall_forall. intros r Hr.
  apply rfm_data_In in Hr. destruct Hr as (c & p & x & g & Eg & Hp & ->).
  cbn [Rfm.CustomerID Rfm.HalfYear Rfm.R]. rewrite Eg.
  set (tmax := fold_left ts_max (map Txn.InvoiceDate g) (Txn.InvoiceDate x)).
  set (ref_date := if p =? 1 then mkdate 2011 5 31 else mkdate 2011 11 30).
  assert (Hmem : exists y, In y (x :: g) /\ tmax = Txn.InvoiceDate y).
  { destruct (ts_max_In (map Txn.InvoiceDate g) (Txn.InvoiceDate x)) as [E|Hin].
    - exists x. split; [left; reflexivity | exact E].
    - apply in_map_iff in Hin. destruct Hin as (y & Ey & Hy).
      exists y. split; [right; exact Hy | symmetry; exact Ey]. }
  destruct Hmem as (ym & Hym & Em).
  assert (Hvalid : forall y, In y (x :: g) -> valid_date (ts_date (Txn.InvoiceDate y))).
  { intros y Hy. destruct (txn_group_member _ _ _ _ _ _ Eg Hy) as [Hf _].
    apply (filtered_valid raw y Hv Hf). }
  assert (Hupper : forall y, In y (x :: g) ->
            toordinal (ts_date (Txn.InvoiceDate y)) <= toordinal (ts_date tmax)).
  { intros y Hy. apply toordinal_le.
    - apply Hvalid. exact Hy.
    - rewrite Em. apply Hvalid. exact Hym.
    - intros Hb. apply date_before_ts_klt in Hb. revert Hb.
      destruct (ts_max_upper (map Txn.InvoiceDate g) (Txn.InvoiceDate x)) as [H1 H2].
      destruct Hy as [<- | Hy]; [exact H1|].
      apply H2. apply in_map. exact Hy. }
  split; [|split].
  - exists ym. split; [exact Hym | rewrite Em; reflexivity].
  - intros y Hy. unfold days_between. pose proof (Hupper y Hy). lia.
  - intros ->. simpl in ref_date. unfold ref_date, days_between.
    destruct (txn_group_member _ _ _ _ _ _ Eg Hym) as [_ Hper].
    assert (Hnb : ~ date_before (ts_date (Txn.InvoiceDate ym)) (mkdate 2011 6 1)).
    { apply date_ltb_not_before. unfold get_period in Hper.
      destruct (date_ltb _ _); [discriminate | reflexivity]. }
    assert (Hle : toordinal (mkdate 2011 6 1) <= toordinal (ts_date (Txn.InvoiceDate ym))).
    { apply toordinal_le; [| apply Hvalid; exact Hym | exact Hnb].
      vm_compute. intuition discriminate. }
    rewrite Em.
    change (toordinal (mkdate 2011 6 1)) with 734289 in Hle.
    change (toordinal (mkdate 2011 11 30)) with 734471. lia.
Qed.

Lemma recency_of_last_invoice_witness :
  Forall (fun y => valid_Timestamp (Raw.InvoiceDate y)) example_raw /\
  Forall (fun r =>
            let g := txn_group example_raw (Rfm.CustomerID r) (Rfm.HalfYear r) in
            let ref_date :=
              if Rfm.HalfYear r =? 1 then mkdate 2011 5 31 else mkdate 2011 11 30 in
            (exists y, In y g /\
               Rfm.R r = days_between ref_date (ts_date (Txn.InvoiceDate y))) /\
            (forall y, In y g ->
               Rfm.R r <= days_between ref_date (ts_date (Txn.InvoiceDate y))) /\
            (Rfm.HalfYear r = 2 -> Rfm.R r <= 182))
         (rfm_data example_raw).
Proof.
  assert (Hv : Forall (fun y => valid_Timestamp (Raw.InvoiceDate y)) example_raw).
  { repeat constructor; vm_compute; (reflexivity || discriminate). }
  split; [exact Hv | exact (recency_of_last_invoice example_raw Hv)].
Defined.

Lemma remove_dups_length (l : list string) : (length (remove_dups l) <= length l)%nat.
Proof.
  induction l as [|x xs IH]; simpl; [lia|].
  destruct (decide_rel elem_of x xs); simpl; lia.
Qed.

Lemma total_amount_upper g :
  (forall y, In y g -> (Txn.Quantity y * Txn.UnitPrice y < 900)%Q) ->
  (total_amount g <= 900 * inject_Z (Z.of_nat (length g)))%Q.
Proof.
  induction g as [|x g IH]; intros Hb.
  - vm_compute. discriminate.
  - assert (Hx : (Txn.Quantity x * Txn.UnitPrice x < 900)%Q)
      by (apply Hb; left; reflexivity).
    assert (Hg : (total_amount g <= 900 * inject_Z (Z.of_nat (length g)))%Q)
      by (apply IH; intros; apply Hb; right; assumption).
    cbn [total_amount fold_right length].
    fold (total_amount g).
    rewrite Nat2Z.inj_succ. unfold Z.succ. rewrite inject_Z_plus.
    change (inject_Z 1) with 1%Q. lra.
Qed.

(** X6.  The frequency of an aggregate is at most the number of
    transactions of its group, and its monetary value stays strictly below
    900 times that number (each amount being below 30 times 30). *)
Theorem aggregate_size_bounds (raw : list Raw.row) :
  Forall (fun r =>
            let g := txn_group raw (Rfm.CustomerID r) (Rfm.HalfYear r) in
            Rfm.F r <= Z.of_nat (length g) /\
            (Rfm.M r < 900 * inject_Z (Z.of_nat (length g)))%Q)
         (rfm_data raw).
Proof.
  apply List.Forall_forall. intros r Hr.
  apply rfm_data_In in Hr. destruct Hr as (c & p & x & g & Eg & _ & ->).
  cbn [Rfm.CustomerID Rfm.HalfYear Rfm.F Rfm.M]. rewrite Eg. split.
  - unfold nunique.
    pose proof (remove_dups_length (map Txn.InvoiceNo (x :: g))) as Hl.
    rewrite length_map in Hl. lia.
  - rewrite col_sum_total_amount.
    assert (Hb : forall y, In y (x :: g) ->
              (0 < Txn.Quantity y * Txn.UnitPrice y)%Q /\
              (Txn.Quantity y * Txn.UnitPrice y < 900)%Q).
    { intros y Hy. destruct (txn_group_member _ _ _ _ _ _ Eg Hy) as [Hf _].
      pose proof (filtered_cleaned raw y Hf) as (Hq & Hp & Hq' & Hp' & _).
      apply amount_bound; assumption. }
    assert (Hg : (total_amount g <= 900 * inject_Z (Z.of_nat (length g)))%Q).
    { apply total_amount_upper. intros y Hy. apply Hb. right. exact Hy. }
    destruct (Hb x (or_introl eq_refl)) as [_ Hx].
    cbn [total_amount fold_right length]. fold (total_amount g).
    rewrite Nat2Z.inj_succ. unfold Z.succ. rewrite inject_Z_plus.
    change (inject_Z 1) with 1%Q. lra.
Qed.

(** ** Label join *)

Lemma merge_left_fst l r :
  (forall a, In a l -> (length (List.filter (merge_on a) r) <= 1)%nat) ->
  map fst (merge_left l r) = l.
Proof.
  induction l as [|a l IH]; intros Hone; [reflexivity|].
  simpl. rewrite map_app, IH by (intros; apply Hone; right; assumption).
  pose proof (Hone a (or_introl eq_refl)) as Hlen.
  destruct (List.filter (merge_on a) r) as [|b [|b' bs]]; simpl in *;
    [reflexivity | reflexivity | lia].
Qed.

(** X7.  The merge neither drops nor multiplies aggregates: the merged
    table has exactly the aggregates, in their order, as its left part,
    one row for each. *)
Theorem merge_keeps_every_aggregate (raw : list Raw.row) :
  map fst (rfm_data_merged raw) = rfm_data raw /\
  length (rfm_data_merged raw) = length (rfm_data raw).
Proof.
  assert (E : map fst (rfm_data_merged raw) = rfm_data raw).
  { unfold rfm_data_merged. apply merge_left_fst.
    intros a _. apply rfm_data_one_match. }
  split; [exact E|]. rewrite <- (length_map fst), E. reflexivity.
Qed.

(** X8.  The final training table has at most half as many rows as there
    are aggregates: every training row uses up two of them. *)
Theorem final_size_bound (raw : list Raw.row) :
  (2 * length (rfm_data_final raw) <= length (rfm_data raw))%nat.
Proof.
  rewrite rfm_data_final_pairs, length_map.
  set (src := labeled_pairs (rfm_data raw) (rfm_data raw)).
  assert (Hsrc : forall p, In p src ->
            In (fst p) (rfm_data raw) /\ In (snd p) (rfm_data raw) /\
            Rfm.CustomerID (snd p) = Rfm.CustomerID (fst p) /\
            Rfm.HalfYear (fst p) = 1 /\ Rfm.HalfYear (snd p) = 2).
  { intros [a b] Hp. apply labeled_pairs_In in Hp. destruct Hp as (Ha & Hb & Hm).
    apply merge_on_spec in Hm. destruct Hm as [Hc Hn].
    destruct (rfm_data_periods raw a Ha) as [Hpa Hnext].
    destruct (rfm_data_periods raw b Hb) as [Hpb _]. simpl.
    repeat split; auto; lia. }
  assert (Hfst : List.NoDup (map (fun p => rfm_key (fst p)) src)).
  { apply labeled_pairs_NoDup; [intros; apply rfm_data_one_match | apply rfm_data_NoDup]. }
  assert (Hsnd : List.NoDup (map (fun p => rfm_key (snd p)) src)).
  { apply (NoDup_map_weaken (fun p => rfm_key (fst p))); [|exact Hfst].
    intros p q Hp Hq E. unfold rfm_key in *.
    destruct (Hsrc p Hp) as (_ & _ & Cp & Fp & _).
    destruct (Hsrc q Hq) as (_ & _ & Cq & Fq & _). congruence. }
  assert (Hnd : List.NoDup (map rfm_key (map fst src ++ map snd src))).
  { rewrite map_app, !map_map. apply List.NoDup_app; [exact Hfst | exact Hsnd |].
    intros k H1 H2.
    apply in_map_iff in H1. destruct H1 as (p & <- & Hp).
    apply in_map_iff in H2. destruct H2 as (q & Eq & Hq).
    destruct (Hsrc p Hp) as (_ & _ & _ & Fp & _).
    destruct (Hsrc q Hq) as (_ & _ & _ & _ & Sq).
    unfold rfm_key in Eq. congruence. }
  apply NoDup_map_inv in Hnd.
  assert (Hincl : incl (map fst src ++ map snd src) (rfm_data raw)).
  { intros a Ha. apply in_app_or in Ha.
    destruct Ha as [Ha | Ha]; apply in_map_iff in Ha; destruct Ha as (p & <- & Hp);
      apply (Hsrc p Hp). }
  pose proof (NoDup_incl_length Hnd Hincl) as Hlen.
  rewrite length_app, !length_map in Hlen. lia.
Qed.

(** ** Period assignment *)

(** X9.  [get_period] is monotone in the date: a timestamp whose date is
    not before that of another never gets the earlier period. *)
Theorem get_period_monotone (x y : Timestamp) :
  ~ date_before (ts_date y) (ts_date x) -> get_period x <= get_period y.
Proof.
  intros Hxy. unfold get_period.
  destruct (date_ltb (ts_date y) (mkdate 2011 6 1)) eqn:Ey;
    destruct (date_ltb (ts_date x) (mkdate 2011 6 1)) eqn:Ex; try lia.
  exfalso. apply date_ltb_before in Ey. apply date_ltb_not_before in Ex.
  destruct (date_trichotomy (ts_date x) (ts_date y)) as [H | [E | H]].
  - apply Ex. eapply date_before_trans; eassumption.
  - apply Ex. rewrite E. exact Ey.
  - contradiction.
Qed.

Lemma get_period_monotone_witness :
  let x := mkTimestamp (mkdate 2011 5 31) 86399000000000 in
  let y := mkTimestamp (mkdate 2011 6 1) 0 in
  ~ date_before (ts_date y) (ts_date x) /\ get_period x <= get_period y.
Proof.
  intros x y.
  assert (H : ~ date_before (ts_date y) (ts_date x)).
  { apply date_ltb_not_before. vm_compute. reflexivity. }
  split; [exact H | exact (get_period_monotone x y H)].
Defined.

(** * Further properties of the rating notebook *)

(** ** Unknown actions *)

Lemma known_action_dec (a : string) : {known_action a} + {~ known_action a}.
Proof.
  unfold known_action.
  destruct (decide (a = "buy"%string)); [left; auto|].
  destruct (decide (a = "addToCart"%string)); [left; auto|].
  destruct (decide (a = "details"%string)); [left; auto|].
  right. tauto.
Qed.

Lemma counters_of_get_unknown v P m u a :
  ~ known_action a -> dict_get a (counters_of v P m u) = None.
Proof.
  unfold known_action, counters_of. intros Hn. cbn [dict_get].
  repeat (case_decide; [tauto|]). reflexivity.
Qed.

(** The iteration that meets an action outside the weight table raises
    [KeyError] at the [+=]. *)
Lemma agg_body_unknown c v P prev s k :
  agg_inv v P prev s ->
  (forall p, In p P -> klt p k) ->
  ~ known_action (snd (snd k)) ->
  agg_body c s k = Raise KeyError.
Proof.
  destruct k as [m2 [u2 a2]]. simpl. intros Hinv Hlt Hunknown.
  destruct (ensure_entry_inv v P prev s m2 u2 a2 Hinv Hlt) as
    (s1 & r1 & Hok & Hwf & Hu & Hent & Hr1 & Hold).
  assert (Hent2 : entry_ref (agg_data s1) m2 u2 = Some r1).
  { rewrite Hent. destruct (decide (m2 = m2 /\ u2 = u2)); tauto. }
  unfold agg_body. rewrite Hok. cbn [bind].
  unfold add_count, entry_ref in *. simpl fst. simpl snd.
  destruct (dict_get m2 (agg_data s1)) as [md|]; [|discriminate].
  cbn [bind expect]. rewrite Hent2. cbn [bind expect]. rewrite Hr1.
  cbn [bind expect].
  rewrite counters_of_get_unknown by exact Hunknown. reflexivity.
Qed.

Lemma agg_loop_steps_raise c v rest :
  forall P prev s,
    agg_inv v P prev s ->
    (forall p k, In p P -> In k rest -> klt p k) ->
    StronglySorted klt rest ->
    (forall k, In k rest -> series_get c k = Some (v k)) ->
    (exists k, In k rest /\ ~ known_action (snd (snd k))) ->
    for_each rest (agg_body c) s = Raise KeyError.
Proof.
  induction rest as [|k rest IH]; intros P prev s Hinv Hlt Hsorted Hget Hex.
  - destruct Hex as (k & [] & _).
  - inversion Hsorted as [|? ? Hs Hall]; subst.
    assert (Hltk : forall p, In p P -> klt p k)
      by (intros p Hp; apply Hlt; [exact Hp | left; reflexivity]).
    simpl. destruct (known_action_dec (snd (snd k))) as [Hk | Hk].
    + destruct (agg_body_step c v P prev s k Hinv Hltk Hk) as (s1 & Hstep & Hinv1).
      { apply Hget. left. reflexivity. }
      rewrite Hstep. simpl. apply (IH (k :: P) (Some k) s1 Hinv1).
      * intros p k' [<- | Hp] Hk'.
        -- rewrite List.Forall_forall in Hall. apply Hall. exact Hk'.
        -- apply Hlt; [exact Hp | right; exact Hk'].
      * exact Hs.
      * intros k' Hk'. apply Hget. right. exact Hk'.
      * destruct Hex as (k' & [<- | Hk'] & Hn); [contradiction | eauto].
    + rewrite (agg_body_unknown c v P prev s k Hinv Hltk Hk). reflexivity.
Qed.

Lemma ratings_unknown_action log :
  Exists (fun x => ~ known_action (Act.Action x)) log ->
  ratings log = Raise KeyError.
Proof.
  intros Hex. apply List.Exists_exists in Hex. destruct Hex as (x & Hx & Hn).
  unfold ratings, agg_loop.
  rewrite (agg_loop_steps_raise (counts log) (count_of log) (index (counts log))
             [] None (mk_agg_state [] [] None)).
  - reflexivity.
  - apply agg_inv_init.
  - intros p k [].
  - rewrite index_counts. apply group_keys_sorted.
  - intros k Hk. apply series_get_counts. exact Hk.
  - exists (action_key x). split; [|exact Hn].
    rewrite index_counts. apply group_keys_In. apply in_map. exact Hx.
Qed.

(** X10.  The rating notebook either returns a ratings table or stops
    with [KeyError]: it returns a table exactly when every action of the
    log is one of buy, addToCart and details, and raises [KeyError]
    exactly when some row has another action.  It never raises
    [NameError], although the loop reads [user_agg_data] in a branch that
    does not assign it. *)
Theorem ratings_outcome (log : list Act.row) :
  ((exists rows, ratings log = Ok rows) <->
   Forall (fun x => known_action (Act.Action x)) log) /\
  (ratings log = Raise KeyError <->
   Exists (fun x => ~ known_action (Act.Action x)) log) /\
  ratings log <> Raise NameError.
Proof.
  assert (Hdec : Forall (fun x => known_action (Act.Action x)) log \/
                 Exists (fun x => ~ known_action (Act.Action x)) log).
  { destruct (List.Forall_Exists_dec (fun x => known_action (Act.Action x))
                (fun x => known_action_dec (Act.Action x)) log); auto. }
  destruct Hdec as [Hall | Hex].
  - destruct (ratings_ok log Hall) as (rows & mx & Hrun & _).
    split; [|split].
    + split; [intros _; exact Hall | intros _; eauto].
    + split; [rewrite Hrun; discriminate|].
      intros Hex. apply List.Exists_exists in Hex. destruct Hex as (x & Hx & Hn).
      rewrite List.Forall_forall in Hall. exfalso. apply Hn. auto.
    + rewrite Hrun. discriminate.
  - pose proof (ratings_unknown_action log Hex) as Hrun.
    split; [|split].
    + split; [intros (rows & E); congruence|].
      intros Hall. apply List.Exists_exists in Hex. destruct Hex as (x & Hx & Hn).
      rewrite List.Forall_forall in Hall. exfalso. apply Hn. auto.
    + split; [intros _; exact Hex | intros _; exact Hrun].
    + rewrite Hrun. discriminate.
Qed.

(** ** The counts *)

Lemma col_total_add {A} (f g : A -> Z) (l : list A) :
  col_total (map (fun k => f k + g k) l) = col_total (map f l) + col_total (map g l).
Proof. unfold col_total. induction l as [|x xs IH]; simpl; lia. Qed.

Lemma col_total_indicator (k0 : Z * (Z * string)) ks :
  List.NoDup ks ->
  col_total (map (fun k => if key_eqb k0 k then 1 else 0) ks) =
  if existsb (key_eqb k0) ks then 1 else 0.
Proof.
  unfold col_total. induction 1 as [|k ks Hk Hnd IH]; simpl; [reflexivity|].
  rewrite IH. destruct (key_eqb k0 k) eqn:E; simpl; [|reflexivity].
  apply key_eqb_true in E. subst k0.
  destruct (existsb (key_eqb k) ks) eqn:Ex; [|reflexivity].
  apply existsb_key_In in Ex. contradiction.
Qed.

Lemma count_of_cons x log k :
  count_of (x :: log) k =
  (if key_eqb (action_key x) k then 1 else 0) + count_of log k.
Proof.
  unfold count_of. simpl. destruct (key_eqb (action_key x) k); simpl length; lia.
Qed.

Lemma col_total_counts ks log :
  List.NoDup ks ->
  (forall x, In x log -> In (action_key x) ks) ->
  col_total (map (count_of log) ks) = Z.of_nat (length log).
Proof.
  intros Hnd. induction log as [|x log IH]; intros Hin.
  - clear Hnd Hin. unfold col_total, count_of.
    induction ks as [|k ks IHk]; simpl in *; [reflexivity | lia].
  - rewrite (map_ext _ _ (count_of_cons x log)), col_total_add.
    rewrite col_total_indicator by exact Hnd.
    rewrite IH by (intros; apply Hin; right; assumption).
    assert (E : existsb (key_eqb (action_key x)) ks = true)
      by (apply existsb_key_In, Hin; left; reflexivity).
    rewrite E. simpl length. lia.
Qed.

(** X11.  [counts] partitions the log: its index is strictly increasing
    in (MovieId, UserId, Action) and holds the key of every row, each
    entry is the number of rows with its key and is at least 1, and the
    entries add up to the number of rows of the log. *)
Theorem counts_partition (log : list Act.row) :
  StronglySorted klt (index (counts log)) /\
  (forall x, In x log -> In (action_key x) (index (counts log))) /\
  Forall (fun e =>
            snd e = action_count log (fst (fst e)) (fst (snd (fst e))) (snd (snd (fst e))) /\
            1 <= snd e)
         (counts log) /\
  col_total (map snd (counts log)) = Z.of_nat (length log).
Proof.
  split; [|split; [|split]].
  - rewrite index_counts. apply group_keys_sorted.
  - intros x Hx. rewrite index_counts. apply group_keys_In, in_map. exact Hx.
  - apply List.Forall_forall. intros [[m [u a]] n] He.
    unfold counts in He. apply in_map_iff in He.
    destruct He as (k & [= -> <-] & Hk). simpl.
    fold (count_of log (m, (u, a))). rewrite count_of_action_count.
    split; [reflexivity|].
    apply group_keys_In, in_map_iff in Hk. destruct Hk as (x & Ex & Hx).
    pose proof (action_count_pos log x Hx) as Hpos.
    unfold action_key in Ex. congruence.
  - unfold counts. rewrite map_map. simpl.
    apply (col_total_counts (group_keys (map action_key log)) log).
    + apply group_keys_NoDup.
    + intros x Hx. apply group_keys_In, in_map. exact Hx.
Qed.

(** ** The ratings table *)

Lemma rating_value_pos x mx :
  0 < x -> 0 < mx -> (0 < 10 * inject_Z x / inject_Z mx)%Q.
Proof.
  intros Hx Hmx.
  assert (Qx : (0 < inject_Z x)%Q)
    by (change (inject_Z 0 < inject_Z x)%Q; rewrite <- Zlt_Qlt; exact Hx).
  assert (Qm : (0 < inject_Z mx)%Q)
    by (change (inject_Z 0 < inject_Z mx)%Q; rewrite <- Zlt_Qlt; exact Hmx).
  apply Qlt_shift_div_l; [exact Qm | lra].
Qed.

(** The ratings table of a log of known actions, row by row. *)
Lemma ratings_rows log :
  Forall (fun x => known_action (Act.Action x)) log ->
  exists rows : list Rating.row,
    ratings log = Ok rows /\
    List.NoDup (map rating_key rows) /\
    (forall m u, In (m, u) (map rating_key rows) <-> has_action log m u) /\
    Forall (fun r =>
              Rating.RawRating r = weighted_score log (Rating.MovieId r) (Rating.UserId r) /\
              15 <= Rating.RawRating r /\
              exists q, Rating.Rating r = Fin q /\ (0 < q)%Q) rows.
Proof.
  intros Hknown.
  destruct (ratings_ok log Hknown) as (rows & mx & Hrun & Hnd & Hrows & Hmx0 & Hle & Hmax).
  exists (ratings_frame (mk_rating_state rows mx)).
  split; [exact Hrun|]. split; [rewrite ratings_frame_keys; exact Hnd|]. split.
  - intros m u. rewrite ratings_frame_keys, in_map_iff. split.
    + intros ([[m' u'] x] & [= -> ->] & Hin). apply Hrows in Hin. tauto.
    + intros Ha. exists (m, u, weighted_score log m u). split; [reflexivity|].
      apply Hrows. auto.
  - apply List.Forall_forall. intros r Hr. apply ratings_frame_In in Hr.
    destruct Hr as (m & u & x & Hin & ->). simpl.
    assert (Hx : x <= mx) by (apply Hle, in_map_iff; exists (m, u, x); auto).
    apply Hrows in Hin. destruct Hin as [Ha ->].
    pose proof (weighted_score_pos _ _ _ Hknown Ha) as Hw.
    split; [reflexivity|]. split; [exact Hw|].
    rewrite np_div_pos by lia. eexists. split; [reflexivity|].
    apply rating_value_pos; lia.
Qed.

(** X12.  On a log of known actions every row of the ratings table has a
    raw rating of at least 15, the weight of a single view, and a rating
    that is a number strictly above 0: the lower end of the 0..10 scale is
    never assigned, and no rating is an infinity or NaN. *)
Theorem rating_strictly_positive (log : list Act.row) :
  Forall (fun x => known_action (Act.Action x)) log ->
  exists rows : list Rating.row,
    ratings log = Ok rows /\
    Forall (fun r => 15 <= Rating.RawRating r /\
                     exists q, Rating.Rating r = Fin q /\ (0 < q)%Q) rows.
Proof.
  intros Hknown.
  destruct (ratings_rows log Hknown) as (rows & Hrun & _ & _ & Hall).
  exists rows. split; [exact Hrun|].
  eapply List.Forall_impl; [|exact Hall]. simpl. tauto.
Qed.

Lemma rating_strictly_positive_witness :
  Forall (fun x => known_action (Act.Action x)) example_log /\
  exists rows : list Rating.row,
    ratings example_log = Ok rows /\
    Forall (fun r => 15 <= Rating.RawRating r /\
                     exists q, Rating.Rating r = Fin q /\ (0 < q)%Q) rows.
Proof.
  split; [exact example_log_known|].
  exact (rating_strictly_positive example_log example_log_known).
Defined.

(** ** Queries on the ratings table *)

Lemma unique_In l x : In x (unique l) <-> In x l.
Proof.
  induction l as [|y ys IH]; simpl; [tauto|].
  rewrite filter_In, IH, negb_true_iff, Z.eqb_neq.
  destruct (Z.eq_dec x y) as [->|Hne]; [tauto|].
  split; [tauto|]. intros [E | Hin]; [congruence | auto].
Qed.

Lemma unrated_movies_iff (table : list Rating.row) user m :
  m ∈ unrated_movies table user <->
  (exists r, In r table /\ Rating.MovieId r = m) /\
  ~ (exists r, In r table /\ Rating.MovieId r = m /\ Rating.UserId r = user).
Proof.
  unfold unrated_movies.
  rewrite elem_of_difference, !elem_of_list_to_set, !list_elem_of_In, !unique_In,
    !in_map_iff.
  split; intros [(r0 & H0) H2]; (split; [exists r0; tauto|]).
  - intros (r & Hr & Em & Eu). apply H2. exists r. split; [exact Em|].
    apply filter_In. split; [exact Hr | apply Z.eqb_eq; exact Eu].
  - intros (r & Em & Hr). apply filter_In in Hr. destruct Hr as [Hr Eu].
    apply Z.eqb_eq in Eu. apply H2. eauto.
Qed.

Lemma rating_key_has_action log rows :
  (forall m u, In (m, u) (map rating_key rows) <-> has_action log m u) ->
  forall m u,
    (exists r, In r rows /\ Rating.MovieId r = m /\ Rating.UserId r = u) <->
    has_action log m u.
Proof.
  intros Hkeys m u. rewrite <- Hkeys, in_map_iff. unfold rating_key. split.
  - intros (r & Hr & <- & <-). eauto.
  - intros (r & [= <- <-] & Hr). eauto.
Qed.

(** X13.  On the ratings table of a log of known actions, the movies the
    notebook lists as not yet rated by a user are exactly the movies with
    a recorded action of somebody on which that user has no recorded
    action. *)
Theorem unrated_movies_spec (log : list Act.row) :
  Forall (fun x => known_action (Act.Action x)) log ->
  exists rows : list Rating.row,
    ratings log = Ok rows /\
    forall user m,
      m ∈ unrated_movies rows user <->
      (exists u, has_action log m u) /\ ~ has_action log m user.
Proof.
  intros Hknown.
  destruct (ratings_rows log Hknown) as (rows & Hrun & _ & Hkeys & _).
  pose proof (rating_key_has_action log rows Hkeys) as Hrow.
  exists rows. split; [exact Hrun|]. intros user m.
  rewrite unrated_movies_iff, (Hrow m user). split; intros [H1 H2]; (split; [|exact H2]).
  - destruct H1 as (r & Hr & Em). exists (Rating.UserId r). apply Hrow. eauto.
  - destruct H1 as (u & Ha). apply Hrow in Ha. destruct Ha as (r & Hr & Em & _). eauto.
Qed.

Lemma unrated_movies_spec_witness :
  Forall (fun x => known_action (Act.Action x)) example_log /\
  exists rows : list Rating.row,
    ratings example_log = Ok rows /\
    forall user m,
      m ∈ unrated_movies rows user <->
      (exists u, has_action example_log m u) /\ ~ has_action example_log m user.
Proof.
  split; [exact example_log_known|].
  exact (unrated_movies_spec example_log example_log_known).
Defined.

(** X14.  On the ratings table of a log of known actions, selecting the
    rows of a user and a movie yields one row when the pair has a recorded
    action and no row otherwise; in particular it yields no row for a
    movie listed as not yet rated by the user. *)
Theorem rating_of_spec (log : list Act.row) :
  Forall (fun x => known_action (Act.Action x)) log ->
  exists rows : list Rating.row,
    ratings log = Ok rows /\
    forall user m,
      (has_action log m user ->
       exists r, rating_of rows user m = [r] /\
                 Rating.MovieId r = m /\ Rating.UserId r = user /\
                 Rating.RawRating r = weighted_score log m user) /\
      (~ has_action log m user -> rating_of rows user m = []) /\
      (m ∈ unrated_movies rows user -> rating_of rows user m = []).
Proof.
  intros Hknown.
  destruct (ratings_rows log Hknown) as (rows & Hrun & Hnd & Hkeys & Hall).
  pose proof (rating_key_has_action log rows Hkeys) as Hrow.
  exists rows. split; [exact Hrun|]. intros user m.
  assert (Hsel : forall r, In r (rating_of rows user m) <->
                 In r rows /\ Rating.MovieId r = m /\ Rating.UserId r = user).
  { intros r. unfold rating_of. rewrite filter_In, andb_true_iff, !Z.eqb_eq. tauto. }
  assert (Hlen : (length (rating_of rows user m) <= 1)%nat).
  { unfold rating_of. apply (filter_at_most_one rating_key); [exact Hnd|].
    intros x y _ _ Hx Hy. apply andb_true_iff in Hx, Hy.
    rewrite !Z.eqb_eq in Hx, Hy. unfold rating_key.
    destruct Hx as [-> ->], Hy as [-> ->]. reflexivity. }
  assert (Hnone : ~ has_action log m user -> rating_of rows user m = []).
  { intros Hn. revert Hsel. clear Hlen.
    destruct (rating_of rows user m) as [|r rs]; [reflexivity|]. intros Hsel.
    exfalso. apply Hn, Hrow. exists r. apply (proj1 (Hsel r)). left. reflexivity. }
  split; [|split].
  - intros Ha. apply Hrow in Ha. destruct Ha as (r & Hr & Em & Eu).
    assert (Hin : In r (rating_of rows user m)) by (apply Hsel; auto).
    destruct (rating_of rows user m) as [|r' [|r'' rs]] eqn:E;
      [contradiction | | simpl in Hlen; lia].
    destruct Hin as [-> | []]. exists r. split; [reflexivity|].
    split; [exact Em|]. split; [exact Eu|].
    rewrite List.Forall_forall in Hall. destruct (Hall r Hr) as [Hw _].
    rewrite Hw, Em, Eu. reflexivity.
  - exact Hnone.
  - intros Hun. apply Hnone. apply unrated_movies_iff in Hun.
    destruct Hun as [_ Hn]. intros Ha. apply Hn, Hrow. exact Ha.
Qed.

Lemma rating_of_spec_witness :
  Forall (fun x => known_action (Act.Action x)) example_log /\
  exists rows : list Rating.row,
    ratings example_log = Ok rows /\
    forall user m,
      (has_action example_log m user ->
       exists r, rating_of rows user m = [r] /\
                 Rating.MovieId r = m /\ Rating.UserId r = user /\
                 Rating.RawRating r = weighted_score example_log m user) /\
      (~ has_action example_log m user -> rating_of rows user m = []) /\
      (m ∈ unrated_movies rows user -> rating_of rows user m = []).
Proof.
  split; [exact example_log_known|].
  exact (rating_of_spec example_log example_log_known).
Defined.

(** ** The order of the ratings table *)

Lemma sorted_snoc {A} (R : A -> A -> Prop) (l : list A) (y : A) :
  StronglySorted R l -> (forall x, In x l -> R x y) -> StronglySorted R (l ++ [y]).
Proof.
  induction 1 as [|x xs Hs IH Hall]; simpl; intros Hy.
  - repeat constructor.
  - constructor; [apply IH; auto|].
    rewrite List.Forall_forall in *. intros z Hz.
    apply in_app_or in Hz. destruct Hz as [Hz | [<- | []]]; auto.
Qed.

Lemma sorted_app {A} (R : A -> A -> Prop) (l1 l2 : list A) :
  StronglySorted R l1 -> StronglySorted R l2 ->
  (forall x y, In x l1 -> In y l2 -> R x y) -> StronglySorted R (l1 ++ l2).
Proof.
  induction 1 as [|x xs Hs IH Hall]; simpl; intros H2 H12; [exact H2|].
  constructor; [apply IH; auto|].
  rewrite List.Forall_forall in *. intros z Hz.
  apply in_app_or in Hz. destruct Hz as [Hz | Hz]; auto.
Qed.

Lemma klt_triple (m u m2 u2 : Z) (a a2 : string) :
  klt (m, (u, a)) (m2, (u2, a2)) -> m < m2 \/ (m = m2 /\ u <= u2).
Proof.
  unfold klt. simpl. unfold lex_cmp. simpl. unfold lex_cmp. simpl.
  destruct (Z.compare_spec m m2); try discriminate; auto.
  destruct (Z.compare_spec u u2); try discriminate; intros _; right; lia.
Qed.

Lemma dict_set_nonempty {K V} `{EqDecision K} (k : K) (v : V) (d : dict K V) :
  dict_set k v d <> [].
Proof. destruct d as [|[k' v'] d]; simpl; [|destruct (decide (k = k'))]; discriminate. Qed.

(** What an iteration does to [agg_data]. *)
Lemma agg_body_agg_data c s k s' :
  agg_body c s k = Ok s' ->
  exists r,
    agg_data s' =
    dict_set (fst k) (dict_set (fst (snd k)) r
                        (default [] (dict_get (fst k) (agg_data s)))) (agg_data s).
Proof.
  unfold agg_body. destruct (ensure_entry s k) as [s1|e] eqn:E1; [|discriminate].
  cbn [bind]. intros E2.
  assert (H2 : agg_data s' = agg_data s1).
  { unfold add_count in E2.
    destruct (dict_get (fst k) (agg_data s1)); [|discriminate]. cbn [bind expect] in E2.
    destruct (dict_get (fst (snd k)) d); [|discriminate]. cbn [bind expect] in E2.
    destruct (store s1 !! r); [|discriminate]. cbn [bind expect] in E2.
    destruct (dict_get (snd (snd k)) d0); [|discriminate]. cbn [bind expect] in E2.
    destruct (series_get c k); [|discriminate]. cbn [bind expect] in E2.
    injection E2 as <-. reflexivity. }
  rewrite H2. clear E2 H2. unfold ensure_entry in E1.
  destruct (dict_get (fst k) (agg_data s)) as [md|].
  - destruct (dict_mem (fst (snd k)) md).
    + destruct (user_agg_data s) as [r|]; [|discriminate].
      cbn [bind expect] in E1. injection E1 as <-. exists r. reflexivity.
    + cbn [bind expect alloc_user_agg_data user_agg_data] in E1.
      injection E1 as <-. eexists. reflexivity.
  - cbn [bind expect alloc_user_agg_data user_agg_data] in E1.
    injection E1 as <-. eexists. reflexivity.
Qed.

Lemma agg_body_sorted c v P prev s k s' :
  agg_inv v P prev s ->
  (forall p, In p P -> klt p k) ->
  agg_sorted (agg_data s) ->
  agg_body c s k = Ok s' ->
  agg_sorted (agg_data s').
Proof.
  destruct k as [m2 [u2 a2]]. intros Hinv Hlt [Hkeys Hmd] Hrun.
  apply agg_body_agg_data in Hrun. destruct Hrun as (r & ->). simpl fst. simpl snd.
  (* every pair already there lies before the new index entry *)
  assert (Hseen : forall m md u, dict_get m (agg_data s) = Some md ->
            In u (dict_keys md) -> m < m2 \/ (m = m2 /\ u <= u2)).
  { intros m md u Em Hu.
    assert (Hr : entry_ref (agg_data s) m u <> None).
    { unfold entry_ref. rewrite Em. apply dict_get_keys. exact Hu. }
    apply (inv_dom _ _ _ _ Hinv) in Hr. destruct Hr as (a & Ha).
    exact (klt_triple _ _ _ _ _ _ (Hlt _ Ha)). }
  split.
  - rewrite dict_keys_set.
    destruct (dict_get m2 (agg_data s)) as [md2|] eqn:E2; [exact Hkeys|].
    apply sorted_snoc; [exact Hkeys|]. intros m Hm.
    apply dict_get_keys in Hm.
    destruct (dict_get m (agg_data s)) as [md|] eqn:Em; [|congruence].
    destruct (Hmd m md Em) as [Hne _].
    destruct md as [|[u ru] md]; [congruence|].
    destruct (Hseen m _ u Em (or_introl eq_refl)) as [Hlt' | [-> _]]; [exact Hlt'|].
    congruence.
  - intros m md'. destruct (decide (m = m2)) as [->|Hm].
    + rewrite dict_get_set_eq. intros [= <-].
      split; [apply dict_set_nonempty|]. rewrite dict_keys_set.
      destruct (dict_get m2 (agg_data s)) as [md2|] eqn:E2; simpl.
      * destruct (dict_get u2 md2) eqn:Eu; [apply (Hmd m2 md2 E2)|].
        apply sorted_snoc; [apply (Hmd m2 md2 E2)|]. intros u Hu.
        destruct (Hseen m2 md2 u E2 Hu) as [Hlt' | [_ Hle]]; [lia|].
        assert (u <> u2).
        { intros ->. apply dict_get_keys in Hu. congruence. }
        lia.
      * repeat constructor.
    + rewrite dict_get_set_ne by congruence. apply Hmd.
Qed.

Lemma agg_loop_sorted c v rest :
  forall P prev s,
    agg_inv v P prev s ->
    agg_sorted (agg_data s) ->
    (forall p k, In p P -> In k rest -> klt p k) ->
    StronglySorted klt rest ->
    (forall k, In k rest -> known_action (snd (snd k)) /\ series_get c k = Some (v k)) ->
    forall s', for_each rest (agg_body c) s = Ok s' -> agg_sorted (agg_data s').
Proof.
  induction rest as [|k rest IH]; intros P prev s Hinv Hso Hlt Hsorted Hok s' Hrun.
  - simpl in Hrun. injection Hrun as <-. exact Hso.
  - inversion Hsorted as [|? ? Hs Hall]; subst.
    destruct (Hok k (or_introl eq_refl)) as [Hknown Hget].
    assert (Hltk : forall p, In p P -> klt p k)
      by (intros p Hp; apply Hlt; [exact Hp | left; reflexivity]).
    destruct (agg_body_step c v P prev s k Hinv Hltk Hknown Hget) as (s1 & Hstep & Hinv1).
    simpl in Hrun. rewrite Hstep in Hrun. cbn [bind] in Hrun.
    apply (IH (k :: P) (Some k) s1 Hinv1); [ | | exact Hs | | exact Hrun].
    + exact (agg_body_sorted c v P prev s k s1 Hinv Hltk Hso Hstep).
    + intros p k' [<- | Hp] Hk'.
      * rewrite List.Forall_forall in Hall. apply Hall. exact Hk'.
      * apply Hlt; [exact Hp | right; exact Hk'].
    + intros k' Hk'. apply Hok. right. exact Hk'.
Qed.

Lemma rating_rows_sorted agg f ms :
  StronglySorted Z.lt ms ->
  (forall m md, dict_get m agg = Some md -> StronglySorted Z.lt (dict_keys md)) ->
  StronglySorted (fun x y : Z * Z * Z =>
                    fst (fst x) < fst (fst y) \/
                    (fst (fst x) = fst (fst y) /\ snd (fst x) < snd (fst y)))
                 (rating_rows agg f ms).
Proof.
  intros Hms Hmd. induction Hms as [|m ms Hs IH Hall]; simpl; [constructor|].
  apply sorted_app; [| exact IH |].
  - destruct (dict_get m agg) as [md|] eqn:Em; [|constructor].
    pose proof (Hmd m md Em) as Hsorted.
    induction Hsorted as [|u us Hus IHus Hallu]; simpl; constructor; [exact IHus|].
    rewrite List.Forall_forall in *. intros x Hx.
    apply in_map_iff in Hx. destruct Hx as (u' & <- & Hu'). simpl. right. auto.
  - intros [[m1 u1] x1] [[m2 u2] x2] H1 H2. simpl. left.
    apply rating_rows_In in H2. destruct H2 as (H2 & _).
    rewrite List.Forall_forall in Hall.
    destruct (dict_get m agg) as [md|]; [|contradiction].
    apply in_map_iff in H1. destruct H1 as (u & [= <- <- <-] & _). auto.
Qed.

(** X15.  On a log of known actions the rows of the ratings table come in
    increasing order of MovieId and, within a movie, of UserId: the
    dictionaries are filled in the order of the sorted index of [counts]
    and read back in insertion order. *)
Theorem ratings_sorted (log : list Act.row) :
  Forall (fun x => known_action (Act.Action x)) log ->
  exists rows : list Rating.row,
    ratings log = Ok rows /\ StronglySorted rating_before rows.
Proof.
  intros Hknown.
  assert (Hidx : forall k, In k (index (counts log)) ->
            known_action (snd (snd k)) /\
            series_get (counts log) k = Some (count_of log k)).
  { intros k Hk. split; [|apply series_get_counts; exact Hk].
    rewrite index_counts, group_keys_In, in_map_iff in Hk.
    destruct Hk as (x & <- & Hx). simpl.
    rewrite List.Forall_forall in Hknown. auto. }
  destruct (agg_loop_ok log Hknown) as (s & Hrun & [Hk Hmd] & Hdom & Hval).
  assert (Hso : agg_sorted (agg_data s)).
  { apply (agg_loop_sorted (counts log) (count_of log) (index (counts log))
             [] None (mk_agg_state [] [] None)).
    - apply agg_inv_init.
    - split; [constructor | intros m md; discriminate].
    - intros p k [].
    - rewrite index_counts. apply group_keys_sorted.
    - exact Hidx.
    - exact Hrun. }
  set (rows := rating_rows (agg_data s) (weighted_score log) (dict_keys (agg_data s))).
  assert (Hrat : ratings log =
            Ok (ratings_frame (mk_rating_state rows (fold_left Z.max (map snd rows) 0)))).
  { unfold ratings. rewrite Hrun. cbn [bind]. unfold rating_loop.
    rewrite (rating_movies_loop s (weighted_score log)).
    - reflexivity.
    - intros m md u _ Em Hu.
      assert (Hr : entry_ref (agg_data s) m u <> None).
      { unfold entry_ref. rewrite Em. apply dict_get_keys. exact Hu. }
      destruct (entry_ref (agg_data s) m u) as [r|] eqn:Er; [|congruence].
      apply (raw_rating_ok s m u r _ _ _ Er). apply Hval. exact Er.
    - intros m Hm. apply dict_get_keys. exact Hm. }
  eexists. split; [exact Hrat|].
  unfold ratings_frame. cbn [raw_ratings max_rating].
  apply (sorted_map_weaken
           (fun r => (Rating.MovieId r, Rating.UserId r, Rating.RawRating r))
           (fun x y : Z * Z * Z =>
              fst (fst x) < fst (fst y) \/
              (fst (fst x) = fst (fst y) /\ snd (fst x) < snd (fst y)))).
  - intros a b _ _ H. exact H.
  - rewrite map_map. simpl. rewrite (map_ext _ (fun x => x)); [|intros [[m u] x]; reflexivity].
    rewrite map_id. apply rating_rows_sorted; [apply Hso|].
    intros m md Em. apply (proj2 Hso m md Em).
Qed.

Lemma ratings_sorted_witness :
  Forall (fun x => known_action (Act.Action x)) example_log /\
  exists rows : list Rating.row,
    ratings example_log = Ok rows /\ StronglySorted rating_before rows.
Proof.
  split; [exact example_log_known|].
  exact (ratings_sorted example_log example_log_known).
Defined.

(** ** Nothing is lost in the aggregation *)

Lemma action_count_cons x log m u a :
  action_count (x :: log) m u a =
  (if bool_decide (Act.MovieId x = m /\ Act.UserId x = u /\ Act.Action x = a)
   then 1 else 0) + action_count log m u a.
Proof.
  unfold action_count. simpl.
  destruct (bool_decide _); simpl length; lia.
Qed.

Lemma weighted_score_cons x log m u :
  known_action (Act.Action x) ->
  weighted_score (x :: log) m u =
  (if bool_decide ((Act.MovieId x, Act.UserId x) = (m, u))
   then weight_of (Act.Action x) else 0) + weighted_score log m u.
Proof.
  intros Hk. unfold weighted_score. rewrite !action_count_cons.
  destruct (bool_decide ((Act.MovieId x, Act.UserId x) = (m, u))) eqn:E.
  - apply bool_decide_eq_true in E. injection E as Em Eu.
    destruct Hk as [Ha | [Ha | Ha]]; rewrite Ha;
      repeat (case_bool_decide; try (exfalso; intuition congruence));
      try (exfalso; intuition congruence); unfold weight_of; simpl; lia.
  - apply bool_decide_eq_false in E.
    repeat (case_bool_decide; try (exfalso; apply E; f_equal; tauto)); lia.
Qed.

Lemma col_total_pair_indicator (p0 : Z * Z) (c : Z) ps :
  List.NoDup ps -> In p0 ps ->
  col_total (map (fun p => if bool_decide (p0 = p) then c else 0) ps) = c.
Proof.
  unfold col_total. induction 1 as [|p ps Hp Hnd IH]; simpl; [tauto|].
  intros [-> | Hin].
  - rewrite bool_decide_eq_true_2 by reflexivity.
    assert (E : fold_right Z.add 0
                  (map (fun p => if bool_decide (p0 = p) then c else 0) ps) = 0).
    { clear IH Hnd. induction ps as [|q qs IHq]; simpl; [reflexivity|].
      rewrite bool_decide_eq_false_2 by (intros ->; apply Hp; left; reflexivity).
      rewrite IHq; [reflexivity|]. intros Hq. apply Hp. right. exact Hq. }
    rewrite E. lia.
  - rewrite bool_decide_eq_false_2 by (intros ->; contradiction).
    rewrite IH by exact Hin. lia.
Qed.

Lemma col_total_weighted_score ps log :
  List.NoDup ps ->
  Forall (fun x => known_action (Act.Action x)) log ->
  (forall x, In x log -> In (Act.MovieId x, Act.UserId x) ps) ->
  col_total (map (fun p => weighted_score log (fst p) (snd p)) ps) =
  col_total (map (fun x => weight_of (Act.Action x)) log).
Proof.
  intros Hnd. induction log as [|x log IH]; intros Hknown Hin.
  - unfold col_total. clear. induction ps as [|p ps IHp]; simpl in *; [reflexivity|].
    rewrite IHp. reflexivity.
  - inversion Hknown as [|? ? Hx Hk']; subst.
    rewrite (map_ext _ (fun p =>
               (if bool_decide ((Act.MovieId x, Act.UserId x) = p)
                then weight_of (Act.Action x) else 0) +
               weighted_score log (fst p) (snd p))).
    2:{ intros [m u]. simpl. apply weighted_score_cons. exact Hx. }
    rewrite col_total_add, col_total_pair_indicator;
      [| exact Hnd | apply Hin; left; reflexivity].
    rewrite IH; [| exact Hk' | intros; apply Hin; right; assumption].
    reflexivity.
Qed.

(** X16.  The aggregation loses and duplicates nothing: on a log of known
    actions the raw ratings of the table add up to the sum, over the rows
    of the log, of the weight of the row's action. *)
Theorem raw_ratings_total (log : list Act.row) :
  Forall (fun x => known_action (Act.Action x)) log ->
  exists rows : list Rating.row,
    ratings log = Ok rows /\
    col_total (map Rating.RawRating rows) =
    col_total (map (fun x => weight_of (Act.Action x)) log).
Proof.
  intros Hknown.
  destruct (ratings_rows log Hknown) as (rows & Hrun & Hnd & Hkeys & Hall).
  exists rows. split; [exact Hrun|].
  rewrite <- (col_total_weighted_score (map rating_key rows) log Hnd Hknown).
  - rewrite map_map. f_equal. apply map_ext_in. intros r Hr.
    rewrite List.Forall_forall in Hall. apply (Hall r Hr).
  - intros x Hx. apply Hkeys. exists x. auto.
Qed.

Lemma raw_ratings_total_witness :
  Forall (fun x => known_action (Act.Action x)) example_log /\
  exists rows : list Rating.row,
    ratings example_log = Ok rows /\
    col_total (map Rating.RawRating rows) =
    col_total (map (fun x => weight_of (Act.Action x)) example_log).
Proof.
  split; [exact example_log_known|].
  exact (raw_ratings_total example_log example_log_known).
Defined.

(** * The training table, end to end *)

(** X17.  Every row of the final training table belongs to a customer
    with filtered transactions in both half-years: its F is the number of
    distinct invoice ids and its M the running float64 total of the
    amounts of the customer's transactions before 2011-06-01, and its
    label M_Next is the running float64 total of the amounts of the
    customer's transactions from 2011-06-01 on.  Every such customer has
    a row. *)
Theorem final_row_semantics (raw : list F64.Raw.row) :
  Forall (fun r =>
            exists c,
              F64.txn_group raw c 1 <> [] /\ F64.txn_group raw c 2 <> [] /\
              F64.Final.F r = F64.distinct_invoices (F64.txn_group raw c 1) /\
              F64.Final.M r = F64.total_amount (F64.txn_group raw c 1) /\
              F64.Final.M_Next r = F64.total_amount (F64.txn_group raw c 2))
         (F64.rfm_data_final raw) /\
  (forall c, F64.txn_group raw c 1 <> [] -> F64.txn_group raw c 2 <> [] ->
     exists r,
       In r (F64.rfm_data_final raw) /\
       F64.Final.F r = F64.distinct_invoices (F64.txn_group raw c 1) /\
       F64.Final.M r = F64.total_amount (F64.txn_group raw c 1) /\
       F64.Final.M_Next r = F64.total_amount (F64.txn_group raw c 2)).
Proof.
  split.
  - apply List.Forall_forall. intros r Hr. apply f64_rfm_data_final_In in Hr.
    destruct Hr as (a & b & Ha & Hb & Hc & H1 & H2 & ->).
    destruct (f64_rfm_data_row raw a Ha) as (Na & _ & _ & Fa & Ma).
    destruct (f64_rfm_data_row raw b Hb) as (Nb & _ & _ & _ & Mb).
    rewrite H1 in *. rewrite H2 in *. rewrite <- Hc in *.
    exists (F64.Rfm.CustomerID a). simpl. repeat split; auto.
  - intros c N1 N2.
    destruct (f64_rfm_data_group raw c 1 N1) as (a & Ha & Ca & Pa).
    destruct (f64_rfm_data_group raw c 2 N2) as (b & Hb & Cb & Pb).
    destruct (f64_rfm_data_row raw a Ha) as (_ & _ & _ & Fa & Ma).
    destruct (f64_rfm_data_row raw b Hb) as (_ & _ & _ & _ & Mb).
    rewrite Ca, Pa in *. rewrite Cb, Pb in *.
    exists (F64.Final.mk (F64.Rfm.R a) (F64.Rfm.F a) (F64.Rfm.M a) (F64.Rfm.M b)).
    split; [|simpl; auto].
    apply f64_rfm_data_final_In. exists a, b. repeat split; auto. congruence.
Qed.

(** * The order of the log *)

Lemma sorted_unique {K} `{KeyOrder K} (l1 : list K) :
  forall l2,
    StronglySorted klt l1 -> StronglySorted klt l2 ->
    (forall x, In x l1 <-> In x l2) -> l1 = l2.
Proof.
  induction l1 as [|x1 l1 IH]; intros [|x2 l2] H1 H2 Hin.
  - reflexivity.
  - exfalso. apply (proj2 (Hin x2)). left. reflexivity.
  - exfalso. apply (proj1 (Hin x1)). left. reflexivity.
  - inversion H1 as [|? ? Hs1 Hall1]; subst.
    inversion H2 as [|? ? Hs2 Hall2]; subst.
    rewrite List.Forall_forall in Hall1, Hall2.
    assert (E : x1 = x2).
    { destruct (proj1 (Hin x1) (or_introl eq_refl)) as [E | Hx1]; [auto|].
      destruct (proj2 (Hin x2) (or_introl eq_refl)) as [E | Hx2]; [auto|].
      exfalso. exact (klt_irrefl x1 (kcmp_trans _ _ _ (Hall1 _ Hx2) (Hall2 _ Hx1))). }
    subst x2. f_equal. apply IH; [exact Hs1 | exact Hs2 |].
    intros x. split; intros Hx.
    + destruct (proj1 (Hin x) (or_intror Hx)) as [<- | Hx']; [|exact Hx'].
      exfalso. exact (klt_irrefl _ (Hall1 _ Hx)).
    + destruct (proj2 (Hin x) (or_intror Hx)) as [<- | Hx']; [|exact Hx'].
      exfalso. exact (klt_irrefl _ (Hall2 _ Hx)).
Qed.

Lemma filter_length_Permutation {A} (f : A -> bool) (l l' : list A) :
  Permutation l l' -> length (List.filter f l) = length (List.filter f l').
Proof.
  induction 1 as [|x l l' _ IH|x y l|l l' l'' _ IH1 _ IH2]; simpl.
  - reflexivity.
  - destruct (f x); simpl; rewrite IH; reflexivity.
  - destruct (f x), (f y); reflexivity.
  - congruence.
Qed.

Lemma counts_Permutation log log' :
  Permutation log log' -> counts log = counts log'.
Proof.
  intros Hp. unfold counts.
  assert (Ek : group_keys (map action_key log) = group_keys (map action_key log')).
  { apply sorted_unique; [apply group_keys_sorted | apply group_keys_sorted |].
    intros k. rewrite !group_keys_In, !in_map_iff.
    split; intros (x & Ex & Hx); exists x; (split; [exact Ex|]).
    - eapply Permutation_in; [exact Hp | exact Hx].
    - eapply Permutation_in; [symmetry; exact Hp | exact Hx]. }
  rewrite Ek. apply map_ext. intros k. f_equal. f_equal.
  apply filter_length_Permutation. exact Hp.
Qed.

(** X18.  The ratings do not depend on the order of the rows of the log:
    reordering the log changes neither the ratings table, rows and order
    included, nor the exception raised. *)
Theorem ratings_Permutation (log log' : list Act.row) :
  Permutation log log' -> ratings log = ratings log'.
Proof.
  intros Hp. unfold ratings. rewrite (counts_Permutation log log' Hp). reflexivity.
Qed.

Lemma ratings_Permutation_witness :
  Permutation example_log (rev example_log) /\
  ratings example_log = ratings (rev example_log).
Proof.
  assert (Hp : Permutation example_log (rev example_log)) by apply Permutation_rev.
  split; [exact Hp | exact (ratings_Permutation example_log (rev example_log) Hp)].
Defined.
